(** * Priority-expiry cache: the point quadtree and the cache built on it

    A shallow embedding of [priority_expiry/data_structures.py] and
    [priority_expiry/mappings.py].

    Modelling conventions.
    - [Time] and [Priority] are Python integers: [Z].
    - A Python exception is a value of [exn]; a method that may raise returns
      a [result].
    - [Node.quadrants] is a dictionary with at most the four keys of
      [QuadrantIndex]: a [Node] carries one optional child per key.
    - [Node._data] is a dictionary only ever read by key: a [gmap].
    - [Node._lru_queue] is a deque read by position: a [list], head first.
    - An [Entry] object is never mutated after its creation; its identity
      (what Python's [is] compares) is the field [eid].
    - A node never holds a Python reference to its parent in the model: a
      method that calls back into [self.parent] returns that call as a
      [ParentCall], and the caller, which reached the node through its
      parent, performs it there. *)

From stdpp Require Import gmap list sorting.
From Stdlib Require Import ZArith Lia.

Set Warnings "-register-all".

Local Open Scope Z_scope.

(** ** Quadrant indices *)

Inductive QuadrantIndex : Set := ONE | TWO | THREE | FOUR.

Global Instance QuadrantIndex_eq_dec : EqDecision QuadrantIndex.
Proof. solve_decision. Defined.

(** The value of an enumeration member: (older or equal expiry, higher
    priority). *)
Definition quadrant_value (q : QuadrantIndex) : bool * bool :=
  match q with
  | ONE => (true, true)
  | TWO => (true, false)
  | THREE => (false, true)
  | FOUR => (false, false)
  end.

(** [QuadrantIndex((older, higher))]: the member with that value. *)
Definition QuadrantIndex_of (v : bool * bool) : QuadrantIndex :=
  match v with
  | (true, true) => ONE
  | (true, false) => TWO
  | (false, true) => THREE
  | (false, false) => FOUR
  end.

Definition OLDER_QUADS : list QuadrantIndex := [ONE; TWO].
Definition YOUNGER_QUADS : list QuadrantIndex := [THREE; FOUR].
Definition BEST_QUADS : list QuadrantIndex := [ONE; THREE].
Definition WORST_QUADS : list QuadrantIndex := [TWO; FOUR].

Definition all_quads : list QuadrantIndex := [ONE; TWO; THREE; FOUR].

(** ** Exceptions *)

Inductive exn : Set :=
| KeyError            (* a dictionary miss *)
| EmptyNode
| EmptyTree
| LruMissing          (* Exception("entry unexpectedly missing for lru queue") *)
| AssertionError
| KeyDoesNotExist
| KeyExpired
| OutsideModel.       (* not a Python exception, see below *)

(** [OutsideModel] is the model's answer where it stops following the
    program: a call [parent.delete(node)] or [parent.replace(child)] that
    [quadrant_index] sends to another slot than the one the caller occupies
    (it would disturb a sibling that the running loop still holds), a
    reference that leads to no node of the tree, or an [evict] that leaves
    detached nodes in memory, to which the indices of the cache still refer
    (see [leaves_cycle]). Whatever else a function of this file returns is
    what the program does. *)

Inductive result (A : Type) : Type :=
| Ok (a : A)
| Raise (e : exn).
Arguments Ok {A} a.
Arguments Raise {A} e.

Global Instance result_ret : MRet result := fun A a => Ok a.
Global Instance result_bind : MBind result := fun A B f m =>
  match m with
  | Ok a => f a
  | Raise e => Raise e
  end.

Definition is_ok {A : Type} (m : result A) : bool :=
  match m with Ok _ => true | Raise _ => false end.

(** ** Entries and nodes *)

Section Quadtree.

Context {K : Type} `{Countable K} {V : Type}.

Record Entry : Type := mkEntry {
  eid : nat;
  last_used : Z;
  key : K;
  value : V
}.

(** [Entry.__lt__]: the dataclass compares the [compare=True] fields only. *)
Definition entry_lt (a b : Entry) : bool := last_used a <? last_used b.

Inductive Node : Type := mkNode {
  expiry : Z;
  priority : Z;
  quad_one : option Node;
  quad_two : option Node;
  quad_three : option Node;
  quad_four : option Node;
  _data : gmap K Entry;
  _lru_queue : list Entry
}.

(** [Node(expiry, priority, parent)] *)
Definition new_node (e p : Z) : Node :=
  mkNode e p None None None None ∅ [].

(** [self.quadrants.get(q)] *)
Definition quadrants (n : Node) (q : QuadrantIndex) : option Node :=
  match q with
  | ONE => quad_one n
  | TWO => quad_two n
  | THREE => quad_three n
  | FOUR => quad_four n
  end.

(** [self.quadrants[q] = c] when [o = Some c], [self.quadrants.pop(q, None)]
    when [o = None]. *)
Definition set_quadrant (q : QuadrantIndex) (o : option Node) (n : Node) : Node :=
  match q with
  | ONE => mkNode (expiry n) (priority n) o (quad_two n) (quad_three n) (quad_four n) (_data n) (_lru_queue n)
  | TWO => mkNode (expiry n) (priority n) (quad_one n) o (quad_three n) (quad_four n) (_data n) (_lru_queue n)
  | THREE => mkNode (expiry n) (priority n) (quad_one n) (quad_two n) o (quad_four n) (_data n) (_lru_queue n)
  | FOUR => mkNode (expiry n) (priority n) (quad_one n) (quad_two n) (quad_three n) o (_data n) (_lru_queue n)
  end.

Definition set_entries (d : gmap K Entry) (l : list Entry) (n : Node) : Node :=
  mkNode (expiry n) (priority n) (quad_one n) (quad_two n) (quad_three n) (quad_four n) d l.

(** The keys of [self.quadrants], and its values. *)
Definition quadrant_keys (n : Node) : list QuadrantIndex :=
  filter (fun q => is_Some (quadrants n q)) all_quads.

Definition quadrant_values (n : Node) : list Node :=
  omap (quadrants n) all_quads.

(** *** Entry-level operations *)

Definition add_entry (k : K) (v : V) (now : Z) (id : nat) (n : Node) : Node :=
  let entry := mkEntry id now k v in
  set_entries (<[k := entry]> (_data n)) (_lru_queue n ++ [entry]) n.

(** [bisect.bisect_left(a, x)]: the loop
    [while lo < hi: mid = (lo + hi) // 2; if a[mid] < x: lo = mid + 1 else: hi = mid]. *)
Fixpoint bisect_loop (fuel : nat) (a : list Entry) (x : Entry) (lo hi : nat) : nat :=
  match fuel with
  | O => lo
  | S fuel' =>
      if (lo <? hi)%nat then
        let mid := ((lo + hi) / 2)%nat in
        match a !! mid with
        | Some y =>
            if entry_lt y x then bisect_loop fuel' a x (S mid) hi
            else bisect_loop fuel' a x lo mid
        | None => lo
        end
      else lo
  end.

Definition bisect_left (a : list Entry) (x : Entry) : nat :=
  bisect_loop (S (length a)) a x 0%nat (length a).

(** The scan of [delete_entry] from position [idx], over [l = queue[idx:]]:
    [Some i] when the loop breaks at [i], [None] when its [else] branch
    runs. *)
Fixpoint identity_scan (l : list Entry) (entry : Entry) (idx : nat) : option nat :=
  match l with
  | [] => None
  | x :: l' =>
      if last_used x =? last_used entry then
        if (eid x =? eid entry)%nat then Some idx
        else identity_scan l' entry (S idx)
      else None
  end.

(** What [clean] asks of [self.parent]. *)
Inductive ParentCall : Type :=
| NoCall
| CallDelete                 (* self.parent.delete(self) *)
| CallReplace (child : Node) (* self.parent.replace(child) *).

Definition empty (n : Node) : bool :=
  match _lru_queue n with [] => true | _ => false end.

Definition quadrant_items (n : Node) : list (QuadrantIndex * Node) :=
  omap (fun q => pair q <$> quadrants n q) all_quads.

(** [clean]: the node after the call and the call made on the parent. With
    exactly one quadrant, [popitem] takes the child out of the node. *)
Definition clean (n : Node) : Node * ParentCall :=
  if empty n then
    match quadrant_items n with
    | [] => (n, CallDelete)
    | [(q, c)] => (set_quadrant q None n, CallReplace c)
    | _ => (n, NoCall)
    end
  else (n, NoCall).

(** [delete_entry] up to, and without, its final [if clean]. *)
Definition remove_entry (k : K) (n : Node) : result Node :=
  match _data n !! k with
  | None => Raise KeyError
  | Some entry =>
      let idx := bisect_left (_lru_queue n) entry in
      match identity_scan (drop idx (_lru_queue n)) entry idx with
      | Some i => Ok (set_entries (delete k (_data n)) (delete i (_lru_queue n)) n)
      | None => Raise LruMissing
      end
  end.

Definition delete_entry (k : K) (cl : bool) (n : Node) : result (Node * ParentCall) :=
  n' ← remove_entry k n;
  Ok (if cl then clean n' else (n', NoCall)).

(** [pop_lru]: the key, the node after the call, and the parent call of its
    [clean]. *)
Definition pop_lru (n : Node) : result (K * Node * ParentCall) :=
  match _lru_queue n with
  | [] => Raise EmptyNode
  | least_recent :: rest =>
      match _data n !! key least_recent with
      | None => Raise KeyError
      | Some _ =>
          let '(n', call) := clean (set_entries (delete (key least_recent) (_data n)) rest n) in
          Ok (key least_recent, n', call)
      end
  end.

Definition access_entry (k : K) (now : Z) (id : nat) (n : Node) : result (V * Node) :=
  match _data n !! k with
  | None => Raise KeyError
  | Some entry =>
      '(n', _) ← delete_entry k false n;
      Ok (value entry, add_entry k (value entry) now id n')
  end.

Definition clear_entries (n : Node) : Node := set_entries ∅ [] n.

Definition lru_time (n : Node) : result Z :=
  match _lru_queue n with
  | [] => Raise EmptyNode
  | e :: _ => Ok (last_used e)
  end.

Definition expired (n : Node) (now : Z) : bool := expiry n <? now.

(** *** Structural operations *)

(** [self.quadrant_index(node)] *)
Definition quadrant_index (self node : Node) : QuadrantIndex :=
  QuadrantIndex_of (expiry node <=? expiry self, priority node <? priority self).

(** [Node.insert(priority, expiry)]: the node after the call, and the path
    from it to the node that was created (the reference the method
    returns). *)
Fixpoint Node_insert (p e : Z) (n : Node) : Node * list QuadrantIndex :=
  let index := QuadrantIndex_of (e <=? expiry n, p <? priority n) in
  match quadrants n index with
  | Some c =>
      let '(c', path) := Node_insert p e c in
      (set_quadrant index (Some c') n, index :: path)
  | None => (set_quadrant index (Some (new_node e p)) n, [index])
  end.

(** [Node.delete(node)] *)
Definition Node_delete (self node : Node) : result Node :=
  let index := quadrant_index self node in
  match quadrants self index with
  | Some _ => Ok (set_quadrant index None self)
  | None => Raise KeyError
  end.

(** [Node.replace(node)] *)
Definition Node_replace (self node : Node) : Node :=
  set_quadrant (quadrant_index self node) (Some node) self.

(** The parent's side of a call on its child in slot [q]: the child object
    was mutated into [child], then made [call]. *)
Definition settle (q : QuadrantIndex) (child : Node) (call : ParentCall)
    (self : Node) : result Node :=
  let self := set_quadrant q (Some child) self in
  match call with
  | NoCall => Ok self
  | CallDelete =>
      if decide (quadrant_index self child = q) then Node_delete self child
      else Raise OutsideModel
  | CallReplace c =>
      if decide (quadrant_index self c = q) then Ok (Node_replace self c)
      else Raise OutsideModel
  end.

(** The same for the [Quadtree], parent of the root: [Quadtree.delete]
    (whose assertion [node is self._root] holds, the caller being the root)
    and [Quadtree.replace]. *)
Definition settle_root (root : Node) (call : ParentCall) : option Node :=
  match call with
  | NoCall => Some root
  | CallDelete => None
  | CallReplace c => Some c
  end.

Fixpoint deep_empty (n : Node) : bool :=
  empty n
  && match quad_one n with Some c => deep_empty c | None => true end
  && match quad_two n with Some c => deep_empty c | None => true end
  && match quad_three n with Some c => deep_empty c | None => true end
  && match quad_four n with Some c => deep_empty c | None => true end.

(** [Node.prune_expired(now)]: the returned flag, the node after the call and
    the parent call of its final [clean].

    The children are visited in the order THREE, FOUR (the copy
    [list(self.quadrants.values())]) and ONE, TWO (the set
    [OLDER_QUADS & set(self.quadrants)]). A visit changes the child and the
    slot it occupies and nothing else, so the order Python picks gives the
    same node. For an expired node the second loop finds the slots ONE and
    TWO deleted by the first. *)
Fixpoint Node_prune_expired (now : Z) (n : Node) : result (bool * Node * ParentCall) :=
  let visit (q : QuadrantIndex) (acc : bool * Node) : result (bool * Node) :=
    match quadrants n q with
    | None => Ok acc
    | Some c =>
        '(r, c', call) ← Node_prune_expired now c;
        self ← settle q c' call acc.2;
        Ok (acc.1 || r, self)
    end in
  '(result, self) ←
    (if expired n now then
       let result := negb (empty n) in
       let result :=
         result || match quadrants n ONE with Some c => negb (deep_empty c) | None => false end in
       let self := set_quadrant ONE None n in
       let result :=
         result || match quadrants n TWO with Some c => negb (deep_empty c) | None => false end in
       let self := set_quadrant TWO None self in
       '(result, self) ← visit THREE (result, self) ≫= visit FOUR;
       Ok (result, clear_entries self)
     else
       visit ONE (false, n) ≫= visit TWO);
  let '(self, call) := clean self in
  Ok (result, self, call).

(** [not node.quadrants] *)
Definition no_quadrants (n : Node) : bool :=
  match quadrant_items n with [] => true | _ => false end.

(** [leaves_cycle now n]: the call [n.prune_expired(now)] deletes, from the
    quadrants of an expired node that it visits, a node that has children.
    That node and its subtree then stay in memory, off the tree, as a cycle
    of [parent] and [quadrants] references. The recursion is the one of
    [Node_prune_expired]: the older quadrants of an expired node are deleted
    unvisited, its younger ones are visited; of a node that has not expired
    the older quadrants are visited. *)
Fixpoint leaves_cycle (now : Z) (n : Node) : bool :=
  let deleted (o : option Node) :=
    match o with Some c => negb (no_quadrants c) | None => false end in
  let visited (o : option Node) :=
    match o with Some c => leaves_cycle now c | None => false end in
  if expired n now then
    deleted (quad_one n) || deleted (quad_two n)
    || visited (quad_three n) || visited (quad_four n)
  else visited (quad_one n) || visited (quad_two n).

(** *** The Quadtree object: [_root] *)

Definition Quadtree_insert (p e : Z) (root : option Node)
    : option Node * list QuadrantIndex :=
  match root with
  | None => (Some (new_node e p), [])
  | Some r => let '(r', path) := Node_insert p e r in (Some r', path)
  end.

Definition Quadtree_prune_expired (now : Z) (root : option Node)
    : result (bool * option Node) :=
  match root with
  | None => Ok (false, None)
  | Some r =>
      '(result, r', call) ← Node_prune_expired now r;
      Ok (result, settle_root r' call)
  end.

Definition Quadtree_leaves_cycle (now : Z) (root : option Node) : bool :=
  match root with
  | None => false
  | Some r => leaves_cycle now r
  end.

(** A method [f] called on the node at the end of [path]; every node on the
    way settles the call of the one below. *)
Fixpoint at_path {A : Type} (path : list QuadrantIndex)
    (f : Node -> result (A * Node * ParentCall)) (n : Node)
    : result (A * Node * ParentCall) :=
  match path with
  | [] => f n
  | q :: path' =>
      match quadrants n q with
      | None => Raise OutsideModel
      | Some c =>
          '(a, c', call) ← at_path path' f c;
          self ← settle q c' call n;
          Ok (a, self, NoCall)
      end
  end.

Definition Quadtree_at {A : Type} (path : list QuadrantIndex)
    (f : Node -> result (A * Node * ParentCall)) (root : option Node)
    : result (A * option Node) :=
  match root with
  | None => Raise OutsideModel
  | Some r =>
      '(a, r', call) ← at_path path f r;
      Ok (a, settle_root r' call)
  end.

(** The node at the end of a path. *)
Fixpoint node_at (path : list QuadrantIndex) (n : Node) : option Node :=
  match path with
  | [] => Some n
  | q :: path' => quadrants n q ≫= node_at path'
  end.

(** *** [Quadtree.prune_lowest_priority] *)

(** A reference to a node of the tree: the path from the root, with the node
    it leads to. *)
Definition Ref : Type := list QuadrantIndex * Node.

Fixpoint node_size (n : Node) : nat :=
  S (match quad_one n with Some c => node_size c | None => 0 end
     + match quad_two n with Some c => node_size c | None => 0 end
     + match quad_three n with Some c => node_size c | None => 0 end
     + match quad_four n with Some c => node_size c | None => 0 end).

Section Search.

(** The order in which Python iterates over the keys of [node.quadrants]
    (insertion order, which the model does not record) or over a set of
    them (hash order): any arrangement of the keys, chosen per node. *)
Variable iteration : Node -> list QuadrantIndex -> list QuadrantIndex.

Definition child_refs (keys : list QuadrantIndex) (r : Ref) : list Ref :=
  omap (fun q => pair (r.1 ++ [q]) <$> quadrants r.2 q) keys.

(** [node.quadrants.values()] *)
Definition values_refs (r : Ref) : list Ref :=
  child_refs (iteration r.2 (quadrant_keys r.2)) r.

(** [node.lower_priority_nodes] *)
Definition lower_priority_nodes (r : Ref) : list Ref :=
  child_refs (iteration r.2 (filter (fun q => q ∈ WORST_QUADS) (quadrant_keys r.2))) r.

(** [stack.extend(nodes)], the top of the stack being the head of the list. *)
Definition extend (stack nodes : list Ref) : list Ref := reverse nodes ++ stack.

(** Whether the loop replaces [lowest] by the non-empty [node]. *)
Definition lower_than (node lowest : Node) : result bool :=
  if empty lowest then Ok true
  else if priority node >? priority lowest then Ok true
  else if priority node =? priority lowest then
    t ← lru_time node; t' ← lru_time lowest; Ok (t <? t')
  else Ok false.

(** The [while stack:] loop; one unit of fuel per test of the condition. *)
Fixpoint search (fuel : nat) (lowest : Ref) (stack : list Ref) : result Ref :=
  match fuel with
  | O => Raise OutsideModel
  | S fuel' =>
      match stack with
      | [] => Ok lowest
      | node :: stack =>
          if empty node.2 then search fuel' lowest (extend stack (values_refs node))
          else
            b ← lower_than node.2 lowest.2;
            search fuel' (if b : bool then node else lowest)
                   (extend stack (lower_priority_nodes node))
      end
  end.

Definition Quadtree_prune_lowest_priority (root : option Node)
    : result (K * option Node) :=
  match root with
  | None => Raise EmptyTree
  | Some r =>
      let lowest : Ref := ([], r) in
      let stack :=
        if empty r then values_refs lowest else lower_priority_nodes lowest in
      lowest ← search (S (node_size r)) lowest (extend [] stack);
      if empty lowest.2 then Raise EmptyTree
      else Quadtree_at lowest.1 pop_lru root
  end.

End Search.

(** ** The cache *)

(** The two [WeakValueDictionary] indices hold references to nodes. A
    reference is kept as the point [(expiry, priority)] of its node and
    followed by routing from the root, the way [Node.insert] descends. A
    state of the model has the references to the nodes of the tree and no
    other: an entry of an index whose point is on no node of the tree stands
    for a reference that has died.

    [node.parent] and [parent.quadrants] are strong references, so a node
    is reclaimed by reference counting, and the weak references to it die,
    the moment it leaves the tree without a child: this is the case of a
    node that [clean] removes (it has no quadrant, or its only child was
    handed to its parent) and of a childless node that [prune_expired]
    deletes from the quadrants of an expired node. [sweep] drops what the
    indices held on such nodes.

    A node with children that [prune_expired] deletes from the quadrants of
    an expired node is not reclaimed: each child refers to it as [parent],
    and through its own [parent] it keeps the expired node in memory, on or
    off the tree. The indices go on referring to these nodes until cyclic
    garbage is collected. [Cache_evict_full] returns these references
    beside the state of the cache; no state of the model stands for a cache
    that holds them, and [Cache_evict] answers [OutsideModel]. *)

Definition Point : Type := Z * Z.

Record Cache : Type := mkCache {
  default_expiry_duration : Z;
  default_priority : Z;
  _tree : option Node;
  _expiry_priority_nodes : gset Point;
  _key_nodes : gmap K Point;
  _context_expiry_duration : Z;
  _context_priority : Z;
  next_eid : nat      (* identity of the next [Entry] object *)
}.

(** [Cache(clock, default_expiry_duration, default_priority)] *)
Definition new_cache (duration prio : Z) : Cache :=
  mkCache duration prio None ∅ ∅ duration prio 0.

Fixpoint find_path (pt : Point) (n : Node) : option (list QuadrantIndex) :=
  if (expiry n =? pt.1) && (priority n =? pt.2) then Some []
  else
    let index := QuadrantIndex_of (pt.1 <=? expiry n, pt.2 <? priority n) in
    match quadrants n index with
    | Some c => cons index <$> find_path pt c
    | None => None
    end.

(** The path to, and the node behind, a reference. *)
Definition deref (pt : Point) (root : option Node) : option Ref :=
  r ← root; path ← find_path pt r; n ← node_at path r; Some (path, n).

Definition is_live (root : option Node) (pt : Point) : bool :=
  bool_decide (is_Some (deref pt root)).

(** [self._key_nodes[key]] and [self._expiry_priority_nodes[pt]]. *)
Definition key_node (c : Cache) (k : K) : option Ref :=
  pt ← _key_nodes c !! k; deref pt (_tree c).

Definition point_node (c : Cache) (pt : Point) : option Ref :=
  if decide (pt ∈ _expiry_priority_nodes c) then deref pt (_tree c) else None.

Definition set_tree (root : option Node) (c : Cache) : Cache :=
  mkCache (default_expiry_duration c) (default_priority c) root
    (_expiry_priority_nodes c) (_key_nodes c)
    (_context_expiry_duration c) (_context_priority c) (next_eid c).

Definition set_key_nodes (m : gmap K Point) (c : Cache) : Cache :=
  mkCache (default_expiry_duration c) (default_priority c) (_tree c)
    (_expiry_priority_nodes c) m
    (_context_expiry_duration c) (_context_priority c) (next_eid c).

Definition set_points (s : gset Point) (c : Cache) : Cache :=
  mkCache (default_expiry_duration c) (default_priority c) (_tree c)
    s (_key_nodes c)
    (_context_expiry_duration c) (_context_priority c) (next_eid c).

Definition set_context (prio duration : Z) (c : Cache) : Cache :=
  mkCache (default_expiry_duration c) (default_priority c) (_tree c)
    (_expiry_priority_nodes c) (_key_nodes c) duration prio (next_eid c).

Definition bump_eid (c : Cache) : Cache :=
  mkCache (default_expiry_duration c) (default_priority c) (_tree c)
    (_expiry_priority_nodes c) (_key_nodes c)
    (_context_expiry_duration c) (_context_priority c) (S (next_eid c)).

(** The weak references to the nodes that left the tree die: what happens
    when each of these nodes left it without a child. *)
Definition sweep (c : Cache) : Cache :=
  set_points (filter (fun pt => is_live (_tree c) pt) (_expiry_priority_nodes c))
    (set_key_nodes (filter (fun kp => is_live (_tree c) kp.2) (_key_nodes c)) c).

(** [Cache.__delitem__] *)
Definition Cache_delitem (k : K) (c : Cache) : result Cache :=
  match key_node c k with
  | None => Raise KeyError
  | Some (path, _) =>
      let c := set_key_nodes (delete k (_key_nodes c)) c in
      '(_, root) ← Quadtree_at path
        (fun n => '(n', call) ← delete_entry k true n; Ok (tt, n', call)) (_tree c);
      Ok (sweep (set_tree root c))
  end.

(** [Cache.__getitem__], the clock reading [now]. *)
Definition Cache_getitem (k : K) (now : Z) (c : Cache) : result (V * Cache) :=
  match key_node c k with
  | None => Raise KeyDoesNotExist
  | Some (path, node) =>
      if expired node now then Raise KeyExpired
      else
        '(v, root) ← Quadtree_at path
          (fun n => '(v, n') ← access_entry k now (next_eid c) n; Ok (v, n', NoCall))
          (_tree c);
        Ok (v, bump_eid (set_tree root c))
  end.

(** [Cache.__setitem__], the clock reading [now]. *)
Definition Cache_setitem (k : K) (v : V) (now : Z) (c : Cache) : result Cache :=
  let expiry := now + _context_expiry_duration c in
  if negb (expiry >? now) then Raise AssertionError
  else
    let priority := _context_priority c in
    c ← (if bool_decide (is_Some (key_node c k)) then Cache_delitem k c else Ok c);
    let '(root, path) :=
      match point_node c (expiry, priority) with
      | Some (path, _) => (_tree c, path)
      | None => Quadtree_insert priority expiry (_tree c)
      end in
    '(_, root) ← Quadtree_at path
      (fun n => Ok (tt, add_entry k v now (next_eid c) n, NoCall)) root;
    Ok (bump_eid
          (set_points ({[ (expiry, priority) ]} ∪ _expiry_priority_nodes c)
             (set_key_nodes (<[k := (expiry, priority)]> (_key_nodes c))
                (set_tree root c)))).

(** [Cache.context]: what runs before the [yield], and the [finally]
    block. *)
Definition context_enter (prio duration : option Z) (c : Cache) : Cache :=
  set_context (default (default_priority c) prio)
    (default (default_expiry_duration c) duration) c.

Definition context_exit (c : Cache) : Cache :=
  set_context (default_priority c) (default_expiry_duration c) c.

(** ** Node consistency: [_data] and [_lru_queue] *)

(** The queue is sorted ascending by [last_used]. *)
Definition lru_sorted (l : list Entry) : Prop :=
  StronglySorted (fun a b => last_used a <= last_used b) l.

(** Every entry of [_data] is filed under its own key and is present exactly
    once (by identity) in the queue; the queue is sorted. *)
Definition lru_consistent (n : Node) : Prop :=
  map_Forall (fun k e =>
    key e = k /\ e ∈ _lru_queue n /\
    length (filter (fun x => eid x = eid e) (_lru_queue n)) = 1%nat) (_data n)
  /\ lru_sorted (_lru_queue n).

(** ** Trees: what they hold and where *)

Definition opt_nodes (f : Node -> bool) (o : option Node) : bool :=
  match o with Some c => f c | None => true end.

(** [P] holds of every node of the subtree. *)
Fixpoint forall_nodes (P : Node -> bool) (n : Node) : bool :=
  P n
  && match quad_one n with Some c => forall_nodes P c | None => true end
  && match quad_two n with Some c => forall_nodes P c | None => true end
  && match quad_three n with Some c => forall_nodes P c | None => true end
  && match quad_four n with Some c => forall_nodes P c | None => true end.

(** [m], were it a child of [self], would go to slot [q]. *)
Definition in_quadrant (self : Node) (q : QuadrantIndex) (m : Node) : bool :=
  bool_decide (quadrant_index self m = q).

(** The quadrant invariant: every child is in the slot that
    [quadrant_index] gives for it. *)
Definition children_placed (n : Node) : bool :=
  forallb (fun q => opt_nodes (in_quadrant n q) (quadrants n q)) all_quads.

Definition quadrant_invariant (n : Node) : bool := forall_nodes children_placed n.

(** The invariant that insertion by routing gives: every node of the
    subtree in a slot belongs to that slot. *)
Definition subtrees_placed (n : Node) : bool :=
  forallb (fun q => opt_nodes (forall_nodes (in_quadrant n q)) (quadrants n q)) all_quads.

Definition well_placed (n : Node) : bool := forall_nodes subtrees_placed n.

(** The entries of a subtree, node first, then its quadrants in turn. *)
Fixpoint tree_entries (n : Node) : list Entry :=
  _lru_queue n
  ++ match quad_one n with Some c => tree_entries c | None => [] end
  ++ match quad_two n with Some c => tree_entries c | None => [] end
  ++ match quad_three n with Some c => tree_entries c | None => [] end
  ++ match quad_four n with Some c => tree_entries c | None => [] end.

Definition root_entries (root : option Node) : list Entry :=
  match root with Some r => tree_entries r | None => [] end.

(** A node holds no entry at all. *)
Definition holds_nothing (n : Node) : bool :=
  empty n && bool_decide (_data n = ∅).

(** No expired node of the subtree holds an entry. *)
Definition expired_cleared (now : Z) (n : Node) : bool :=
  forall_nodes (fun m => negb (expired m now) || holds_nothing m) n.

(** ** The nodes of a tree, one by one *)

(** A node without its quadrants. *)
Definition strip (n : Node) : Node :=
  mkNode (expiry n) (priority n) None None None None (_data n) (_lru_queue n).

Definition point (n : Node) : Point := (expiry n, priority n).

(** The nodes of a subtree, stripped: the node, then its quadrants in turn. *)
Fixpoint tree_nodes (n : Node) : list Node :=
  strip n
  :: match quad_one n with Some c => tree_nodes c | None => [] end
  ++ match quad_two n with Some c => tree_nodes c | None => [] end
  ++ match quad_three n with Some c => tree_nodes c | None => [] end
  ++ match quad_four n with Some c => tree_nodes c | None => [] end.

Definition root_nodes (root : option Node) : list Node :=
  match root with Some r => tree_nodes r | None => [] end.

(** ** [Cache.evict], and the nodes it leaves in memory off the tree *)

Definition root_points (root : option Node) : list Point :=
  point <$> root_nodes root.

(** The final [clean] of [n.prune_expired(now)] takes [n] off the tree. *)
Definition leaves_tree (now : Z) (n : Node) : bool :=
  match Node_prune_expired now n with
  | Ok (_, _, CallDelete) | Ok (_, _, CallReplace _) => true
  | _ => false
  end.

(** Once [n.prune_expired(now)] has run its loops, a node that is off the
    tree and in memory has [n] as its [parent]: a node with children that
    was deleted from the quadrants of [n], or a child of [n] whose [clean]
    took it off the tree while such a node kept it in memory. *)
Fixpoint kept_by_child (now : Z) (n : Node) : bool :=
  let deleted (o : option Node) :=
    match o with Some c => negb (no_quadrants c) | None => false end in
  let visited (o : option Node) :=
    match o with
    | Some c => leaves_tree now c && kept_by_child now c
    | None => false
    end in
  if expired n now then
    deleted (quad_one n) || deleted (quad_two n)
    || visited (quad_three n) || visited (quad_four n)
  else visited (quad_one n) || visited (quad_two n).

(** The points of the nodes of the subtree [n] that [n.prune_expired(now)]
    leaves off the tree and in memory: [n] itself, if its [clean] took it
    off the tree and a child keeps it; the subtrees of the nodes with
    children deleted from the quadrants of an expired node; what the visits
    of the children leave. *)
Fixpoint detached_points (now : Z) (n : Node) : list Point :=
  let deleted (o : option Node) :=
    match o with
    | Some c => if no_quadrants c then [] else point <$> tree_nodes c
    | None => []
    end in
  let visited (o : option Node) :=
    match o with Some c => detached_points now c | None => [] end in
  (if leaves_tree now n && kept_by_child now n then [point n] else [])
  ++ (if expired n now then
        deleted (quad_one n) ++ deleted (quad_two n)
        ++ visited (quad_three n) ++ visited (quad_four n)
      else visited (quad_one n) ++ visited (quad_two n)).

(** The points of the nodes that [n.prune_expired(now)] visits and that a
    node off the tree keeps in memory. *)
Fixpoint held_points (now : Z) (n : Node) : list Point :=
  let visited (o : option Node) :=
    match o with Some c => held_points now c | None => [] end in
  (if kept_by_child now n then [point n] else [])
  ++ (if expired n now then visited (quad_three n) ++ visited (quad_four n)
      else visited (quad_one n) ++ visited (quad_two n)).

Definition Quadtree_detached_points (now : Z) (root : option Node) : list Point :=
  match root with Some r => detached_points now r | None => [] end.

Definition Quadtree_held_points (now : Z) (root : option Node) : list Point :=
  match root with Some r => held_points now r | None => [] end.

(** What the two indices hold on nodes that are off the tree and in
    memory. *)
Record Detached : Type := mkDetached {
  detached_expiry_priority_nodes : gset Point;
  detached_key_nodes : gmap K Point
}.

(** The references of [c] to the nodes at the points [pts]. *)
Definition detached_refs (pts : list Point) (c : Cache) : Detached :=
  mkDetached (filter (fun pt => pt ∈ pts) (_expiry_priority_nodes c))
    (filter (fun kp : K * Point => kp.2 ∈ pts) (_key_nodes c)).

Definition forget_key (k : K) (d : Detached) : Detached :=
  mkDetached (detached_expiry_priority_nodes d) (delete k (detached_key_nodes d)).

Section Evict.

Variable iteration : Node -> list QuadrantIndex -> list QuadrantIndex.

(** [Cache.evict], the clock reading [now], on a cache whose indices refer
    to nodes of the tree only: the state of the cache as far as the tree
    and the references into it go, and the references that its indices
    keep to nodes off the tree, as long as no cyclic garbage is collected.

    The node that [prune_lowest_priority] empties is removed by [clean], if
    at all; it stays in memory if [prune_expired] left a node that refers to
    it as [parent]. [del self._key_nodes[key]], its [KeyError] swallowed, is
    [delete]. *)
Definition Cache_evict_full (now : Z) (c : Cache) : result (Cache * Detached) :=
  '(any_removed, root) ← Quadtree_prune_expired now (_tree c);
  let gone := Quadtree_detached_points now (_tree c) in
  let c1 := sweep (set_tree root c) in
  if any_removed : bool then Ok (c1, detached_refs gone c)
  else
    match Quadtree_prune_lowest_priority iteration (_tree c1) with
    | Raise EmptyTree => Ok (c1, detached_refs gone c)
    | Raise e => Raise e
    | Ok (k, root') =>
        let c2 := sweep (set_tree root' c1) in
        let held := Quadtree_held_points now (_tree c) in
        let popped :=
          filter (fun pt => pt ∈ held /\ pt ∉ root_points root') (root_points root) in
        Ok (set_key_nodes (delete k (_key_nodes c2)) c2,
            forget_key k (detached_refs (popped ++ gone) c))
    end.

(** [Cache.evict] where it leaves no node in memory off the tree. *)
Definition Cache_evict (now : Z) (c : Cache) : result Cache :=
  '(c', _) ← Cache_evict_full now c;
  if Quadtree_leaves_cycle now (_tree c) then Raise OutsideModel else Ok c'.

End Evict.

(** What [prune_expired(now)] leaves of the entries of a node that stays. *)
Definition cleared (now : Z) (x : Node) : Node :=
  if expired x now then clear_entries x else x.

(** ** Specification vocabulary for [prune_expired] *)

(** One iteration of a loop of [Node.prune_expired] over the child in slot
    [q] of [n], [acc] being the flag and the node so far. *)
Definition visit_child (now : Z) (n : Node) (q : QuadrantIndex) (acc : bool * Node)
    : result (bool * Node) :=
  match quadrants n q with
  | None => Ok acc
  | Some c =>
      '(r, c', call) ← Node_prune_expired now c;
      self ← settle q c' call acc.2;
      Ok (acc.1 || r, self)
  end.

(** What a slot holds once the node in it has run [clean]. *)
Definition clean_outcome (n : Node) : option Node :=
  settle_root (clean n).1 (clean n).2.

(** A predicate on nodes that only looks at the point. *)
Definition on_point (f : Z -> Z -> bool) (m : Node) : bool := f (expiry m) (priority m).

(** A predicate on nodes that survives a change of the quadrants and the
    removal of all entries. *)
Definition robust (X : Node -> bool) : Prop :=
  (forall n q o, X n = true -> X (set_quadrant q o n) = true)
  /\ (forall n, X n = true -> X (clear_entries n) = true).

(** [o] is what is left of the subtree [n] after [prune_expired(now)], which
    returned [r]. *)
Definition pruned (now : Z) (n : Node) (r : bool) (o : option Node) : Prop :=
  (forall X, robust X -> forall_nodes X n = true ->
             opt_nodes (forall_nodes X) o = true)
  /\ opt_nodes well_placed o = true
  /\ opt_nodes (expired_cleared now) o = true
  /\ sublist (root_entries o) (tree_entries n)
  /\ (r = true <-> (length (root_entries o) < length (tree_entries n))%nat)
  /\ sublist (root_nodes o) (cleared now <$> tree_nodes n).

Definition pruned_slot (now : Z) (slot : option Node) (r : bool) (o : option Node) : Prop :=
  match slot with
  | Some c => pruned now c r o
  | None => r = false /\ o = None
  end.

(** [Node.prune_expired(now)] returns on [c], and leaves what [pruned]
    describes. *)
Definition prunes_well (now : Z) (c : Node) : Prop :=
  exists r c' call,
    Node_prune_expired now c = Ok (r, c', call)
    /\ expiry c' = expiry c /\ priority c' = priority c
    /\ pruned now c r (settle_root c' call).

(** ** Specification vocabulary for calls through a path *)

(** The tree [n] with [o] in place of the subtree at the end of [path]. *)
Fixpoint graft (path : list QuadrantIndex) (o : option Node) (n : Node) : option Node :=
  match path with
  | [] => o
  | q :: path' =>
      match quadrants n q with
      | Some c => Some (set_quadrant q (graft path' o c) n)
      | None => Some n
      end
  end.

(** A predicate on nodes that does not look at the quadrants. *)
Definition quadrant_blind (X : Node -> bool) : Prop :=
  forall n q o, X n = true -> X (set_quadrant q o n) = true.

(** [f] leaves the point of the node alone, and what it leaves in the slot
    has no point that the subtree did not have. *)
Definition keeps_points (m m' : Node) (call : ParentCall) : Prop :=
  expiry m' = expiry m /\ priority m' = priority m
  /\ forall g, forall_nodes (on_point g) m = true ->
               opt_nodes (forall_nodes (on_point g)) (settle_root m' call) = true.

(** ** Specification vocabulary for [prune_lowest_priority] *)

(** [last_used] of the head of the queue: what [lru_time] returns on a
    node that has entries. *)
Definition lru_head (n : Node) : Z :=
  match _lru_queue n with e :: _ => last_used e | [] => 0 end.

(** [lowest] has entries and [m] is no better a victim: its priority value
    is smaller, or equal with a queue head that is not older. *)
Definition outranks (lowest m : Node) : Prop :=
  empty lowest = false
  /\ (priority m < priority lowest
      \/ (priority m = priority lowest /\ lru_head lowest <= lru_head m)).

Definition stack_size (stack : list Ref) : nat :=
  sum_list_with (fun r : Ref => node_size r.2) stack.

Definition slot_size (n : Node) (q : QuadrantIndex) : nat :=
  match quadrants n q with Some c => node_size c | None => 0%nat end.

(** The invariant of the loop of [prune_lowest_priority]: the references are
    those of nodes of the tree, and every node with entries is outranked by
    [lowest] or still lies under a node of the stack. *)
Definition search_inv (root : Node) (lowest : Ref) (stack : list Ref) : Prop :=
  node_at lowest.1 root = Some lowest.2
  /\ Forall (fun r : Ref => node_at r.1 root = Some r.2) stack
  /\ forall path m,
       node_at path root = Some m -> empty m = false ->
       outranks lowest.2 m \/ exists r : Ref, r ∈ stack /\ r.1 `prefix_of` path.

(** Every entry of the queue has its key in the data map. *)
Definition queue_indexed (n : Node) : bool :=
  forallb (fun e => bool_decide (is_Some (_data n !! key e))) (_lru_queue n).

(** ** Specification vocabulary for the quadrant invariant *)

(** [f] is a method that only rewrites the entries of the node and may end
    with [clean]. *)
Definition entry_op {A : Type} (f : Node -> result (A * Node * ParentCall)) : Prop :=
  forall m a m' call,
    f m = Ok (a, m', call) ->
    exists d l,
      (m', call) = clean (set_entries d l m)
      \/ (m', call) = (set_entries d l m, NoCall).

(** [f] keeps the point of the node and leaves in its slot a subtree that
    satisfies [X], if the node did. *)
Definition preserves {A : Type} (X : Node -> bool)
    (f : Node -> result (A * Node * ParentCall)) : Prop :=
  forall m a m' call,
    X m = true -> f m = Ok (a, m', call) ->
    expiry m' = expiry m /\ priority m' = priority m
    /\ opt_nodes X (settle_root m' call) = true.

(** ** Reachable trees *)

(** What the cache does to its tree: a method on the entries of a node
    reached through a reference, an insertion, a sweep of the expired
    nodes. *)
Inductive tree_step (root : option Node) : option Node -> Prop :=
| step_at {A : Type} (path : list QuadrantIndex)
    (f : Node -> result (A * Node * ParentCall)) (a : A) (root' : option Node) :
    entry_op f -> Quadtree_at path f root = Ok (a, root') -> tree_step root root'
| step_insert (p e : Z) :
    tree_step root (Quadtree_insert p e root).1
| step_prune_expired (now : Z) (r : bool) (root' : option Node) :
    Quadtree_prune_expired now root = Ok (r, root') -> tree_step root root'.

(** The trees that a cache can hold: those that steps lead to from the
    empty tree of a new cache. *)
Definition reachable_tree (root : option Node) : Prop := rtc tree_step None root.

(** ** The invariant of the cache *)

(** An entry of the queue of [x]: it is the entry of its key in the data
    map, it was created before the entry that [bound] will name, and it was
    last used no later than [now]. *)
Definition entry_ok (bound : nat) (now : Z) (x : Node) (e : Entry) : Prop :=
  _data x !! key e = Some e /\ (eid e < bound)%nat /\ last_used e <= now.

Definition node_ok (bound : nat) (now : Z) (x : Node) : Prop :=
  lru_consistent x /\ Forall (entry_ok bound now x) (_lru_queue x).

(** The nodes of the tree, as a list [L], against the two indices: the
    point index holds the points of the nodes. *)
Definition registered (L : list Node) (pts : gset Point) : Prop :=
  forall pt, pt ∈ pts <-> pt ∈ point <$> L.

(** A reference of the key index leads to a node of the tree, which holds
    the key unless it has expired. *)
Definition keys_point (now : Z) (L : list Node) (kn : gmap K Point) : Prop :=
  forall k pt,
    kn !! k = Some pt ->
    exists x, x ∈ L /\ point x = pt
              /\ (is_Some (_data x !! k) \/ expiry x < now).

(** The key index knows the node of every key that a node holds. *)
Definition entries_indexed (L : list Node) (kn : gmap K Point) : Prop :=
  forall x k, x ∈ L -> is_Some (_data x !! k) -> kn !! k = Some (point x).

(** The invariant of the cache at clock reading [now]. *)
Record cache_inv (now : Z) (c : Cache) : Prop := {
  inv_placed : opt_nodes well_placed (_tree c) = true;
  inv_points : NoDup (point <$> root_nodes (_tree c));
  inv_nodes : Forall (node_ok (next_eid c) now) (root_nodes (_tree c));
  inv_registered : registered (root_nodes (_tree c)) (_expiry_priority_nodes c);
  inv_keys : keys_point now (root_nodes (_tree c)) (_key_nodes c);
  inv_indexed : entries_indexed (root_nodes (_tree c)) (_key_nodes c)
}.

(** What a change of the entries of the node [x], and what its removal, do
    to the list of the nodes of a tree. *)
Definition modified (x x' : Node) (L L' : list Node) : Prop :=
  forall y, y ∈ L' <-> y = x' \/ (y ∈ L /\ point y <> point x).

Definition removed (x : Node) (L L' : list Node) : Prop :=
  forall y, y ∈ L' <-> y ∈ L /\ point y <> point x.

(** ** The runs of the cache *)

Section Run.

Variable iteration : Node -> list QuadrantIndex -> list QuadrantIndex.

(** [cache_run now c]: the program brought a new cache to the state [c],
    the last reading of its clock being [now]. The clock never goes back.
    No [evict] of the run left a cycle of detached nodes in memory
    ([Cache_evict] returned).
    An operation that raises leaves the state as it was, but for a [del]
    (by itself or inside a [set]) of a key whose node lost the entry:
    [self._key_nodes.pop(key)] is done when [node.delete_entry(key)]
    raises. *)
Inductive cache_run : Z -> Cache -> Prop :=
| run_new (duration prio now : Z) :
    cache_run now (new_cache duration prio)
| run_clock (now now' : Z) (c : Cache) :
    cache_run now c -> now <= now' -> cache_run now' c
| run_setitem (k : K) (v : V) (now : Z) (c c' : Cache) :
    cache_run now c -> Cache_setitem k v now c = Ok c' -> cache_run now c'
| run_getitem (k : K) (v : V) (now : Z) (c c' : Cache) :
    cache_run now c -> Cache_getitem k now c = Ok (v, c') -> cache_run now c'
| run_delitem (k : K) (now : Z) (c c' : Cache) :
    cache_run now c -> Cache_delitem k c = Ok c' -> cache_run now c'
| run_delitem_raises (k : K) (now : Z) (c : Cache)
    (path : list QuadrantIndex) (node : Node) :
    cache_run now c -> key_node c k = Some (path, node) -> _data node !! k = None ->
    cache_run now (set_key_nodes (delete k (_key_nodes c)) c)
| run_evict (now : Z) (c c' : Cache) :
    cache_run now c -> Cache_evict iteration now c = Ok c' -> cache_run now c'
| run_context_enter (prio duration : option Z) (now : Z) (c : Cache) :
    cache_run now c -> cache_run now (context_enter prio duration c)
| run_context_exit (now : Z) (c : Cache) :
    cache_run now c -> cache_run now (context_exit c).

End Run.

(** ** [Cache.__iter__] and [Cache.__len__] *)

(** [self._key_nodes.items()]: the keys with a live reference, each with its
    node. Python yields them in the order of the dictionary, which the model
    does not record. *)
Definition Cache_items (c : Cache) : list (K * Node) :=
  omap (fun kp : K * Point => pair kp.1 <$> (snd <$> deref kp.2 (_tree c)))
       (map_to_list (_key_nodes c)).

(** [Cache.__iter__]; the comprehension reads the clock for each item, and
    [clock k] is the reading for the item of [k]. *)
Definition Cache_iter (clock : K -> Z) (c : Cache) : list K :=
  fst <$> filter (fun kn : K * Node =>
                    negb (expired kn.2 (clock kn.1))
                    && bool_decide (is_Some (_data kn.2 !! kn.1)))
                 (Cache_items c).

(** [Cache.__len__]: the length of the list of the same comprehension. *)
Definition Cache_len (clock : K -> Z) (c : Cache) : nat :=
  length (Cache_iter clock c).

(** ** The entries of the cache, key by key *)

(** The entry that the cache has for [k], with the point of its node: what
    [self._key_nodes[k]] leads to and [node._data.get(k)] finds there. *)
Definition stored (c : Cache) (k : K) : option (Point * Entry) :=
  match key_node c k with
  | Some (_, node) => pair (point node) <$> _data node !! k
  | None => None
  end.

(** A node of the list, at the point [pt], holds [en] under [k]. *)
Definition holds (L : list Node) (k : K) (pt : Point) (en : Entry) : Prop :=
  exists x, x ∈ L /\ point x = pt /\ _data x !! k = Some en.

End Quadtree.

Abbreviation NodeOf K V := (@Node K _ _ V) (only parsing).
Abbreviation EntryOf K V := (@Entry K V) (only parsing).
Abbreviation CacheOf K V := (@Cache K _ _ V) (only parsing).
Abbreviation RefOf K V := (@Ref K _ _ V) (only parsing).
Abbreviation ParentCallOf K V := (@ParentCall K _ _ V) (only parsing).
Abbreviation on_point_of K V := (@on_point K _ _ V) (only parsing).
Abbreviation queue_indexed_of K V := (@queue_indexed K _ _ V) (only parsing).
Abbreviation pop_lru_of K V := (@pop_lru K _ _ V) (only parsing).

(** * Concrete caches: keys and values in [Z] *)

Module Examples.

Definition ZNode : Type := @Node Z _ _ Z.
Definition ZCache : Type := @Cache Z _ _ Z.

(** Two entries written at the same time in one node. *)
Definition two_entries : ZNode :=
  add_entry 2 20 5 1%nat (add_entry 1 10 5 0%nat (new_node 100 0)).

(** A root at point (10, 5) holding key 1, with a child in THREE at (20, 3)
    holding key 3 and a child in FOUR at (20, 5) holding key 2. *)
Definition pivot_tree : option ZNode :=
  Some (mkNode 10 5 None None
          (Some (add_entry 3 300 0 2%nat (new_node 20 3)))
          (Some (add_entry 2 200 0 1%nat (new_node 20 5)))
          {[ 1 := mkEntry 0%nat 0 1 100 ]} [mkEntry 0%nat 0 1 100]).

(** The cache around [pivot_tree]: what the three [set] of [three_sets]
    leave at clock reading 0. *)
Definition pivot_cache : ZCache :=
  mkCache 1000000000 0 pivot_tree
    (list_to_set [(10, 5); (20, 5); (20, 3)])
    (list_to_map [(1, (10, 5)); (2, (20, 5)); (3, (20, 3))])
    1000000000 0 3.

(** [with cache.context(priority=p, expiry_duration=d): cache[k] = v] *)
Definition set_in_context (p d : Z) (k v now : Z) (c : ZCache) : result ZCache :=
  c' ← Cache_setitem k v now (context_enter (Some p) (Some d) c);
  Ok (context_exit c').

Definition three_sets : result ZCache :=
  c ← set_in_context 5 10 1 100 0 (new_cache 1000000000 0);
  c ← set_in_context 5 20 2 200 0 c;
  set_in_context 3 20 3 300 0 c.

(** Iteration over the quadrants in the order ONE, TWO, THREE, FOUR. *)
Definition in_order (_ : ZNode) (l : list QuadrantIndex) : list QuadrantIndex := l.

Definition nested_scopes : ZCache :=
  context_exit
    (context_enter (Some 20) (Some 7)
       (context_enter (Some 10) (Some 5) (new_cache 1000 0))).

(** What [prune_expired(11)] leaves of [pivot_tree]: the root has expired and
    lost its entry, and stays as the pivot of its two children. *)
Definition pruned_pivot_tree : option ZNode :=
  Some (mkNode 10 5 None None
          (Some (add_entry 3 300 0 2%nat (new_node 20 3)))
          (Some (add_entry 2 200 0 1%nat (new_node 20 5)))
          ∅ []).

(** Three nodes in a chain of older quadrants: the root at (10, 5) holding
    key 1, its child in TWO at (5, 5) holding key 2, and the child of that
    one in TWO at (3, 5) holding key 3. *)
Definition chain_tree : option ZNode :=
  Some (mkNode 10 5 None
          (Some (mkNode 5 5 None
                   (Some (add_entry 3 300 0 2%nat (new_node 3 5)))
                   None None
                   {[ 2 := mkEntry 1%nat 0 2 200 ]} [mkEntry 1%nat 0 2 200]))
          None None
          {[ 1 := mkEntry 0%nat 0 1 100 ]} [mkEntry 0%nat 0 1 100]).

(** The cache around [chain_tree]: what the three [set] of [chained_sets]
    leave at clock reading 0. *)
Definition chain_cache : ZCache :=
  mkCache 1000000000 0 chain_tree
    (list_to_set [(10, 5); (5, 5); (3, 5)])
    (list_to_map [(1, (10, 5)); (2, (5, 5)); (3, (3, 5))])
    1000000000 0 3.

Definition chained_sets : result ZCache :=
  c ← set_in_context 5 10 1 100 0 (new_cache 1000000000 0);
  c ← set_in_context 5 5 2 200 0 c;
  set_in_context 5 3 3 300 0 c.

(** A cache with one entry, of key 1, in a root at (10, 5). *)
Definition single_cache : ZCache :=
  mkCache 1000000000 0 (Some (add_entry 1 100 0 0%nat (new_node 10 5)))
    {[ (10, 5) ]} {[ 1 := (10, 5) ]} 1000000000 0 1.

(** The cache that a [del] of its only key leaves. *)
Definition emptied_cache : ZCache :=
  mkCache 1000000000 0 None ∅ ∅ 1000000000 0 1.

(** The tree after [insert(5, 10)] and [insert(3, 20)]. *)
Definition two_inserts : option ZNode :=
  (Quadtree_insert 3 20 (Quadtree_insert 5 10 None).1).1.

End Examples.

(** * Properties *)

Section Properties.

Context {K : Type} `{Countable K} {V : Type}.

Local Abbreviation Node := (NodeOf K V) (only parsing).
Local Abbreviation Entry := (EntryOf K V) (only parsing).
Local Abbreviation Cache := (CacheOf K V) (only parsing).
Local Abbreviation Ref := (RefOf K V) (only parsing).
Local Abbreviation ParentCall := (ParentCallOf K V) (only parsing).
Local Abbreviation on_point := (on_point_of K V) (only parsing).
Local Abbreviation queue_indexed := (queue_indexed_of K V) (only parsing).
Local Abbreviation pop_lru := (pop_lru_of K V) (only parsing).

Lemma lru_sorted_lookup (l : list Entry) (i j : nat) (a b : Entry) :
  lru_sorted l -> l !! i = Some a -> l !! j = Some b -> (i <= j)%nat ->
  last_used a <= last_used b.
Proof.
  intros Hs. revert i j. induction Hs as [|x l Hs IH Hx]; intros i j Hi Hj Hij.
  - by rewrite lookup_nil in Hi.
  - destruct i as [|i], j as [|j]; simpl in *; simplify_eq; try lia.
    + rewrite Forall_forall in Hx. apply Hx.
      by eapply list_elem_of_lookup_2.
    + eapply IH; eauto. lia.
Qed.

Lemma bisect_loop_spec (fuel : nat) (a : list Entry) (x : Entry) (lo hi : nat) :
  lru_sorted a ->
  (lo <= hi <= length a)%nat -> (hi - lo < fuel)%nat ->
  (forall j y, (j < lo)%nat -> a !! j = Some y -> last_used y < last_used x) ->
  (forall j y, (hi <= j)%nat -> a !! j = Some y -> last_used x <= last_used y) ->
  let r := bisect_loop fuel a x lo hi in
  (r <= length a)%nat /\
  (forall j y, (j < r)%nat -> a !! j = Some y -> last_used y < last_used x) /\
  (forall j y, (r <= j)%nat -> a !! j = Some y -> last_used x <= last_used y).
Proof.
  intros Hs. revert lo hi.
  induction fuel as [|fuel IH]; intros lo hi Hb Hf Hlo Hhi; [lia|].
  cbn [bisect_loop]. destruct (lo <? hi)%nat eqn:Hlt.
  - apply Nat.ltb_lt in Hlt.
    set (mid := ((lo + hi) / 2)%nat).
    assert (Hmid : (lo <= mid < hi)%nat).
    { subst mid. pose proof (Nat.div_mod_eq (lo + hi) 2).
      pose proof (Nat.mod_upper_bound (lo + hi) 2 ltac:(lia)). lia. }
    clearbody mid.
    destruct (a !! mid) as [y|] eqn:Hy.
    + unfold entry_lt. destruct (last_used y <? last_used x) eqn:Hc.
      * apply Z.ltb_lt in Hc. apply (IH (S mid) hi); [lia | lia | | done].
        intros j z Hj Hz.
        pose proof (lru_sorted_lookup a j mid z y Hs Hz Hy ltac:(lia)). lia.
      * apply Z.ltb_ge in Hc. apply (IH lo mid); [lia | lia | done |].
        intros j z Hj Hz.
        pose proof (lru_sorted_lookup a mid j y z Hs Hy Hz ltac:(lia)). lia.
    + apply lookup_ge_None in Hy. lia.
  - apply Nat.ltb_ge in Hlt. assert (lo = hi) by lia. subst hi.
    split_and!; [lia | done | done].
Qed.

Lemma bisect_left_spec (a : list Entry) (x : Entry) :
  lru_sorted a ->
  (bisect_left a x <= length a)%nat /\
  (forall j y, (j < bisect_left a x)%nat -> a !! j = Some y -> last_used y < last_used x) /\
  (forall j y, (bisect_left a x <= j)%nat -> a !! j = Some y -> last_used x <= last_used y).
Proof.
  intros Hs. unfold bisect_left. apply bisect_loop_spec; [done | lia | lia | |].
  - intros j y Hj. lia.
  - intros j y Hj Hy. apply lookup_lt_Some in Hy. lia.
Qed.

(** The scan reaches the first entry with the wanted identity when every
    entry before it carries the wanted timestamp. *)
Lemma identity_scan_finds (l : list Entry) (entry : Entry) (idx i : nat) (e : Entry) :
  l !! i = Some e -> eid e = eid entry ->
  (forall j y, (j <= i)%nat -> l !! j = Some y -> last_used y = last_used entry) ->
  exists m y, identity_scan l entry idx = Some (idx + m)%nat /\ (m <= i)%nat /\
    l !! m = Some y /\ eid y = eid entry.
Proof.
  revert idx i. induction l as [|x l IH]; intros idx i Hi He Hall.
  - by rewrite lookup_nil in Hi.
  - simpl. rewrite (Hall 0%nat x) by (done || lia). rewrite Z.eqb_refl.
    destruct (eid x =? eid entry)%nat eqn:Hid.
    + apply Nat.eqb_eq in Hid. exists 0%nat, x.
      split_and!; [f_equal; lia | lia | done | done].
    + apply Nat.eqb_neq in Hid. destruct i as [|i]; simpl in Hi.
      { simplify_eq. }
      destruct (IH (S idx) i Hi He) as (m & y & Hm & Hle & Hy & Hey).
      { intros j z Hj Hz. apply (Hall (S j)); [lia | done]. }
      exists (S m), y. split_and!; [rewrite Hm; f_equal; lia | lia | done | done].
Qed.

Lemma filter_eid_unique (l : list Entry) (e : Entry) (i j : nat) (a b : Entry) :
  length (filter (fun x => eid x = eid e) l) = 1%nat ->
  l !! i = Some a -> eid a = eid e -> l !! j = Some b -> eid b = eid e -> i = j.
Proof.
  revert i j. induction l as [|x l IH]; intros i j Hlen Hi Ha Hj Hb.
  - by rewrite lookup_nil in Hi.
  - rewrite filter_cons in Hlen. destruct (decide (eid x = eid e)) as [Hx|Hx].
    + simpl in Hlen.
      assert (Hnil : filter (fun x => eid x = eid e) l = []).
      { destruct (filter _ l); [done | simpl in Hlen; lia]. }
      assert (Hno : forall m y, l !! m = Some y -> eid y <> eid e).
      { intros m y Hy Hey.
        assert (y ∈ filter (fun x => eid x = eid e) l).
        { apply list_elem_of_filter. split; [done|]. by eapply list_elem_of_lookup_2. }
        rewrite Hnil in *. by eapply not_elem_of_nil. }
      destruct i as [|i], j as [|j]; simpl in *; try done.
      * by destruct (Hno _ _ Hj).
      * by destruct (Hno _ _ Hi).
      * by destruct (Hno _ _ Hi).
    + destruct i as [|i], j as [|j]; simpl in *; simplify_eq.
      f_equal. by eapply IH.
Qed.

(** What [remove_entry] does on a consistent node. *)
Lemma remove_entry_consistent (n : Node) (k : K) (e : Entry) :
  lru_consistent n -> _data n !! k = Some e ->
  exists i, _lru_queue n !! i = Some e /\
    remove_entry k n = Ok (set_entries (delete k (_data n)) (delete i (_lru_queue n)) n).
Proof.
  intros [Hd Hs] Hk. destruct (Hd k e Hk) as (_ & Hin & Hone).
  apply list_elem_of_lookup in Hin as [i Hi].
  exists i. split; [done|]. unfold remove_entry. rewrite Hk. simpl.
  destruct (bisect_left_spec (_lru_queue n) e Hs) as (Hlen & Hbelow & Habove).
  generalize dependent (bisect_left (_lru_queue n) e). intros idx Hlen Hbelow Habove.
  assert (Hidx : (idx <= i)%nat).
  { destruct (decide (idx <= i)%nat); [done|].
    pose proof (Hbelow i e ltac:(lia) Hi). lia. }
  destruct (identity_scan_finds (drop idx (_lru_queue n)) e idx (i - idx) e)
    as (m & y & Hm & Hle & Hy & Hey).
  - rewrite lookup_drop. rewrite <- Hi. f_equal. lia.
  - done.
  - intros j z Hj Hz. rewrite lookup_drop in Hz.
    pose proof (Habove (idx + j)%nat z ltac:(lia) Hz).
    pose proof (lru_sorted_lookup _ (idx + j) i z e Hs Hz Hi ltac:(lia)). lia.
  - rewrite Hm. rewrite lookup_drop in Hy.
    assert ((idx + m)%nat = i) as -> by (eapply filter_eid_unique; eauto).
    done.
Qed.

(** ** Nodes and their quadrants *)

Lemma quadrants_set_quadrant (q q' : QuadrantIndex) (o : option Node) (n : Node) :
  quadrants (set_quadrant q o n) q' = if decide (q = q') then o else quadrants n q'.
Proof. by destruct q, q'. Qed.

Lemma quadrants_set_quadrant_eq (q : QuadrantIndex) (o : option Node) (n : Node) :
  quadrants (set_quadrant q o n) q = o.
Proof. by destruct q. Qed.

Lemma quadrants_set_quadrant_ne (q q' : QuadrantIndex) (o : option Node) (n : Node) :
  q <> q' -> quadrants (set_quadrant q o n) q' = quadrants n q'.
Proof. by destruct q, q'. Qed.

Lemma node_size_child (n c : Node) (q : QuadrantIndex) :
  quadrants n q = Some c -> (node_size c < node_size n)%nat.
Proof. destruct n, q; simpl; intros ->; lia. Qed.

(** Induction on the tree. *)
Lemma Node_tree_ind (P : Node -> Prop) :
  (forall n, (forall q c, quadrants n q = Some c -> P c) -> P n) -> forall n, P n.
Proof.
  intros IH n. remember (node_size n) as s eqn:Hs.
  revert n Hs. induction (lt_wf s) as [s _ IHs]. intros n ->.
  apply IH. intros q c Hc. eapply IHs; [|done]. by eapply node_size_child.
Qed.

Lemma forall_nodes_unfold (P : Node -> bool) (n : Node) :
  forall_nodes P n =
  P n && forallb (fun q => opt_nodes (forall_nodes P) (quadrants n q)) all_quads.
Proof. destruct n; simpl. by rewrite andb_true_r, !andb_assoc. Qed.

Lemma forall_nodes_here (P : Node -> bool) (n : Node) :
  forall_nodes P n = true -> P n = true.
Proof. rewrite forall_nodes_unfold. by intros [? _]%andb_true_iff. Qed.

Lemma forall_nodes_child (P : Node -> bool) (n c : Node) (q : QuadrantIndex) :
  forall_nodes P n = true -> quadrants n q = Some c -> forall_nodes P c = true.
Proof.
  rewrite forall_nodes_unfold. intros [_ Hc]%andb_true_iff Hq.
  rewrite forallb_forall in Hc. specialize (Hc q). rewrite Hq in Hc.
  apply Hc. destruct q; simpl; tauto.
Qed.

Lemma forall_nodes_intro (P : Node -> bool) (n : Node) :
  P n = true ->
  (forall q c, quadrants n q = Some c -> forall_nodes P c = true) ->
  forall_nodes P n = true.
Proof.
  intros Hn Hc. rewrite forall_nodes_unfold, Hn, andb_true_l.
  apply forallb_forall. intros q _. destruct (quadrants n q) eqn:Hq; [|done].
  simpl. eauto.
Qed.

Lemma forall_nodes_impl (P Q : Node -> bool) (n : Node) :
  (forall m, P m = true -> Q m = true) ->
  forall_nodes P n = true -> forall_nodes Q n = true.
Proof.
  intros HPQ. induction n as [n IH] using Node_tree_ind. intros Hn.
  apply forall_nodes_intro.
  - apply HPQ. by eapply forall_nodes_here.
  - intros q c Hq. eapply IH; [done|]. by eapply forall_nodes_child.
Qed.

(** ** [clean] *)

Lemma clean_point (n : Node) :
  expiry (clean n).1 = expiry n /\ priority (clean n).1 = priority n.
Proof.
  destruct n as [e p [?|] [?|] [?|] [?|] d [|x l]]; by cbv.
Qed.

Lemma clean_outcome_nodes (X : Node -> bool) (n : Node) :
  forall_nodes X n = true -> opt_nodes (forall_nodes X) (clean_outcome n) = true.
Proof.
  intros Hn.
  assert (Hc := fun q c => forall_nodes_child X n c q Hn).
  destruct n as [e p [c1|] [c2|] [c3|] [c4|] d [|x l]]; try done;
    unfold clean_outcome, clean, quadrant_items; simpl; try done.
  - by apply (Hc ONE).
  - by apply (Hc TWO).
  - by apply (Hc THREE).
  - by apply (Hc FOUR).
Qed.

Lemma clean_outcome_entries (n : Node) :
  root_entries (clean_outcome n) = tree_entries n.
Proof.
  destruct n as [e p [c1|] [c2|] [c3|] [c4|] d [|x l]]; try done;
    unfold clean_outcome, clean, quadrant_items; simpl; by rewrite ?app_nil_r.
Qed.

(** ** [settle]: a call that comes back to the caller's own slot *)

Lemma set_quadrant_set_quadrant (q : QuadrantIndex) (o o' : option Node) (n : Node) :
  set_quadrant q o (set_quadrant q o' n) = set_quadrant q o n.
Proof. by destruct q. Qed.

Lemma set_quadrant_same (q : QuadrantIndex) (n : Node) :
  set_quadrant q (quadrants n q) n = n.
Proof. by destruct n, q. Qed.

Lemma set_quadrant_point (q : QuadrantIndex) (o : option Node) (n : Node) :
  expiry (set_quadrant q o n) = expiry n /\ priority (set_quadrant q o n) = priority n.
Proof. by destruct q. Qed.

Lemma quadrant_index_point (self self' m m' : Node) :
  expiry self' = expiry self -> priority self' = priority self ->
  expiry m' = expiry m -> priority m' = priority m ->
  quadrant_index self' m' = quadrant_index self m.
Proof. unfold quadrant_index. by intros -> -> -> ->. Qed.

Lemma settle_same_slot (q : QuadrantIndex) (c : Node) (call : ParentCall) (self : Node) :
  quadrant_index self c = q ->
  (forall gc, call = CallReplace gc -> quadrant_index self gc = q) ->
  settle q c call self = Ok (set_quadrant q (settle_root c call) self).
Proof.
  intros Hc Hgc. unfold settle.
  destruct (set_quadrant_point q (Some c) self) as [He Hp].
  destruct call as [| |gc]; simpl.
  - done.
  - rewrite (quadrant_index_point self _ c c He Hp eq_refl eq_refl), Hc.
    rewrite decide_True by done. unfold Node_delete.
    rewrite (quadrant_index_point self _ c c He Hp eq_refl eq_refl), Hc.
    by rewrite quadrants_set_quadrant_eq, set_quadrant_set_quadrant.
  - rewrite (quadrant_index_point self _ gc gc He Hp eq_refl eq_refl), (Hgc gc eq_refl).
    rewrite decide_True by done. unfold Node_replace.
    rewrite (quadrant_index_point self _ gc gc He Hp eq_refl eq_refl), (Hgc gc eq_refl).
    by rewrite set_quadrant_set_quadrant.
Qed.

(** ** [Node.prune_expired] *)

Lemma Node_prune_expired_eq (now : Z) (n : Node) :
  Node_prune_expired now n =
  '(result, self) ←
    (if expired n now then
       let result := negb (empty n) in
       let result :=
         result || match quadrants n ONE with Some c => negb (deep_empty c) | None => false end in
       let self := set_quadrant ONE None n in
       let result :=
         result || match quadrants n TWO with Some c => negb (deep_empty c) | None => false end in
       let self := set_quadrant TWO None self in
       '(result, self) ← visit_child now n THREE (result, self) ≫= visit_child now n FOUR;
       Ok (result, clear_entries self)
     else
       visit_child now n ONE (false, n) ≫= visit_child now n TWO);
  let '(self, call) := clean self in
  Ok (result, self, call).
Proof. by destruct n. Qed.

Lemma in_quadrant_on_point (self : Node) (q : QuadrantIndex) :
  in_quadrant self q =
  on_point (fun e p =>
    bool_decide (QuadrantIndex_of (e <=? expiry self, p <? priority self) = q)).
Proof. done. Qed.

Lemma robust_on_point (f : Z -> Z -> bool) : robust (on_point f).
Proof. split; [by intros n [] o | done]. Qed.

Lemma robust_mk (X : Node -> bool) (e p : Z) (q1 q2 q3 q4 o1 o2 o3 o4 : option Node)
    (d : gmap K Entry) (l : list Entry) :
  robust X -> X (mkNode e p q1 q2 q3 q4 d l) = true ->
  X (mkNode e p o1 o2 o3 o4 d l) = true /\ X (mkNode e p o1 o2 o3 o4 ∅ []) = true.
Proof.
  intros [Hq Hc] HX.
  assert (X (mkNode e p o1 o2 o3 o4 d l) = true) as HX'.
  { apply (Hq _ ONE o1), (Hq _ TWO o2), (Hq _ THREE o3), (Hq _ FOUR o4) in HX.
    exact HX. }
  split; [done|]. by apply Hc in HX'.
Qed.

Lemma subtrees_placed_slot (n c : Node) (q : QuadrantIndex) :
  subtrees_placed n = true -> quadrants n q = Some c ->
  forall_nodes (in_quadrant n q) c = true.
Proof.
  unfold subtrees_placed. rewrite forallb_forall. intros Hn Hq.
  specialize (Hn q). rewrite Hq in Hn. apply Hn. destruct q; simpl; tauto.
Qed.

Lemma visit_child_pruned (now : Z) (n : Node) (q : QuadrantIndex) (b : bool) (self : Node) :
  (forall c, quadrants n q = Some c -> prunes_well now c) ->
  subtrees_placed n = true ->
  expiry self = expiry n -> priority self = priority n ->
  quadrants self q = quadrants n q ->
  exists r o,
    visit_child now n q (b, self) = Ok (b || r, set_quadrant q o self)
    /\ pruned_slot now (quadrants n q) r o.
Proof.
  intros IH Hn He Hp Hq. unfold visit_child, pruned_slot.
  destruct (quadrants n q) as [c|] eqn:Hc.
  - destruct (IH c eq_refl) as (r & c' & call & -> & Hce & Hcp & Hpr).
    exists r, (settle_root c' call). split; [|done]. simpl.
    pose proof (subtrees_placed_slot n c q Hn Hc) as Hsub.
    rewrite settle_same_slot; [done | |].
    + rewrite (quadrant_index_point n self c c') by done.
      apply forall_nodes_here in Hsub. unfold in_quadrant in Hsub.
      by apply bool_decide_eq_true in Hsub.
    + intros gc ->. simpl in Hpr. destruct Hpr as (Hpt & _).
      rewrite in_quadrant_on_point in Hsub.
      apply (Hpt _ (robust_on_point _)) in Hsub. simpl in Hsub.
      apply forall_nodes_here in Hsub. unfold on_point in Hsub.
      apply bool_decide_eq_true in Hsub. unfold quadrant_index. by rewrite He, Hp.
  - exists false, None. split; [|done].
    rewrite orb_false_r. rewrite <- Hq at 1. by rewrite set_quadrant_same.
Qed.

Lemma deep_empty_entries (n : Node) :
  deep_empty n = true <-> tree_entries n = [].
Proof.
  induction n as [n IH] using Node_tree_ind.
  assert (Hs : forall q, opt_nodes deep_empty (quadrants n q) = true
                         <-> root_entries (quadrants n q) = []).
  { intros q. destruct (quadrants n q) as [c|] eqn:Hq; simpl; [by eapply IH | done]. }
  pose proof (Hs ONE) as Hq1. pose proof (Hs TWO) as Hq2.
  pose proof (Hs THREE) as Hq3. pose proof (Hs FOUR) as Hq4. clear Hs IH.
  destruct n as [e p q1 q2 q3 q4 d l]. simpl in *.
  change (match q1 with Some c => deep_empty c | None => true end)
    with (opt_nodes deep_empty q1).
  change (match q2 with Some c => deep_empty c | None => true end)
    with (opt_nodes deep_empty q2).
  change (match q3 with Some c => deep_empty c | None => true end)
    with (opt_nodes deep_empty q3).
  change (match q4 with Some c => deep_empty c | None => true end)
    with (opt_nodes deep_empty q4).
  change (match q1 with Some c => tree_entries c | None => [] end)
    with (root_entries q1).
  change (match q2 with Some c => tree_entries c | None => [] end)
    with (root_entries q2).
  change (match q3 with Some c => tree_entries c | None => [] end)
    with (root_entries q3).
  change (match q4 with Some c => tree_entries c | None => [] end)
    with (root_entries q4).
  rewrite !andb_true_iff, Hq1, Hq2, Hq3, Hq4, !app_nil.
  unfold empty; simpl. destruct l; intuition congruence.
Qed.

Lemma pruned_slot_nodes (now : Z) (slot : option Node) (r : bool) (o : option Node)
    (X : Node -> bool) :
  robust X ->
  pruned_slot now slot r o ->
  opt_nodes (forall_nodes X) slot = true ->
  opt_nodes (forall_nodes X) o = true.
Proof.
  intros HX. destruct slot as [c|]; simpl.
  - intros (Hpt & _) Hc. by apply Hpt.
  - by intros [_ ->].
Qed.

Lemma pruned_slot_in_quadrant (now : Z) (slot : option Node) (r : bool) (o : option Node)
    (self self' : Node) (q : QuadrantIndex) :
  expiry self' = expiry self -> priority self' = priority self ->
  pruned_slot now slot r o ->
  opt_nodes (forall_nodes (in_quadrant self q)) slot = true ->
  opt_nodes (forall_nodes (in_quadrant self' q)) o = true.
Proof.
  intros He Hp. rewrite !in_quadrant_on_point, He, Hp.
  apply pruned_slot_nodes, robust_on_point.
Qed.

Lemma pruned_slot_well_placed (now : Z) (slot : option Node) (r : bool) (o : option Node) :
  pruned_slot now slot r o -> opt_nodes well_placed o = true.
Proof.
  destruct slot as [c|]; simpl.
  - by intros (_ & Hw & _).
  - by intros [_ ->].
Qed.

Lemma pruned_slot_cleared (now : Z) (slot : option Node) (r : bool) (o : option Node) :
  pruned_slot now slot r o -> opt_nodes (expired_cleared now) o = true.
Proof.
  destruct slot as [c|]; simpl.
  - by intros (_ & _ & Hc & _).
  - by intros [_ ->].
Qed.

Lemma pruned_slot_entries (now : Z) (slot : option Node) (r : bool) (o : option Node) :
  pruned_slot now slot r o ->
  sublist (root_entries o) (root_entries slot)
  /\ ((r = true /\ (length (root_entries o) < length (root_entries slot))%nat)
      \/ (r = false /\ length (root_entries o) = length (root_entries slot))).
Proof.
  destruct slot as [c|]; simpl.
  - intros (_ & _ & _ & Hsub & Hr & _). split; [done|].
    pose proof (sublist_length _ _ Hsub). destruct r.
    + left. split; [done|]. by apply Hr.
    + right. split; [done|].
      destruct (decide (length (root_entries o) < length (tree_entries c))%nat) as [Hlt|];
        [|lia]. by apply Hr in Hlt.
  - intros [-> ->]. split; [done|]. by right.
Qed.

Lemma forall_nodes_mk (X : Node -> bool) (e p : Z) (q1 q2 q3 q4 : option Node)
    (d : gmap K Entry) (l : list Entry) :
  forall_nodes X (mkNode e p q1 q2 q3 q4 d l) = true <->
  X (mkNode e p q1 q2 q3 q4 d l) = true
  /\ opt_nodes (forall_nodes X) q1 = true /\ opt_nodes (forall_nodes X) q2 = true
  /\ opt_nodes (forall_nodes X) q3 = true /\ opt_nodes (forall_nodes X) q4 = true.
Proof. simpl. rewrite !andb_true_iff. unfold opt_nodes. tauto. Qed.

Lemma subtrees_placed_mk (e p : Z) (q1 q2 q3 q4 : option Node)
    (d : gmap K Entry) (l : list Entry) :
  let n := mkNode e p q1 q2 q3 q4 d l in
  subtrees_placed n = true <->
  opt_nodes (forall_nodes (in_quadrant n ONE)) q1 = true
  /\ opt_nodes (forall_nodes (in_quadrant n TWO)) q2 = true
  /\ opt_nodes (forall_nodes (in_quadrant n THREE)) q3 = true
  /\ opt_nodes (forall_nodes (in_quadrant n FOUR)) q4 = true.
Proof. unfold subtrees_placed. simpl. rewrite !andb_true_iff. tauto. Qed.

Lemma tree_nodes_eq (n : Node) :
  tree_nodes n =
  strip n :: root_nodes (quadrants n ONE) ++ root_nodes (quadrants n TWO)
          ++ root_nodes (quadrants n THREE) ++ root_nodes (quadrants n FOUR).
Proof. by destruct n. Qed.

Lemma clean_outcome_tree_nodes (m : Node) :
  root_nodes (clean_outcome m) = tree_nodes m
  \/ (empty m = true /\ tree_nodes m = strip m :: root_nodes (clean_outcome m)).
Proof.
  destruct m as [e p [c1|] [c2|] [c3|] [c4|] d [|x l]];
    unfold clean_outcome, clean, quadrant_items; simpl;
    try (by left); right; (split; [done|]); by rewrite ?app_nil_r.
Qed.

Lemma clean_outcome_sublist (m : Node) :
  sublist (root_nodes (clean_outcome m)) (tree_nodes m).
Proof.
  destruct (clean_outcome_tree_nodes m) as [->|[_ ->]]; [done|].
  by apply sublist_cons.
Qed.

Lemma pruned_slot_tree_nodes (now : Z) (slot : option Node) (r : bool) (o : option Node) :
  pruned_slot now slot r o ->
  sublist (root_nodes o) (cleared now <$> root_nodes slot).
Proof.
  destruct slot as [c|]; simpl.
  - by intros (_ & _ & _ & _ & _ & ?).
  - by intros [_ ->].
Qed.

(** Subtrees without an expired node are left alone. *)
Lemma cleared_unexpired_tree (now : Z) (c : Node) :
  forall_nodes (fun m => negb (expired m now)) c = true ->
  cleared now <$> tree_nodes c = tree_nodes c.
Proof.
  induction c as [c IH] using Node_tree_ind. intros Hc.
  assert (Hs : forall q, cleared now <$> root_nodes (quadrants c q)
                         = root_nodes (quadrants c q)).
  { intros q. destruct (quadrants c q) as [c'|] eqn:Hq; [|done]. simpl.
    apply (IH q c' Hq). by eapply forall_nodes_child. }
  rewrite tree_nodes_eq, fmap_cons, !fmap_app, !Hs. f_equal.
  apply forall_nodes_here in Hc. apply negb_true_iff in Hc.
  unfold cleared. by replace (expired (strip c) now) with false.
Qed.

Lemma cleared_unexpired (now : Z) (o : option Node) :
  opt_nodes (forall_nodes (fun m => negb (expired m now))) o = true ->
  cleared now <$> root_nodes o = root_nodes o.
Proof. destruct o as [c|]; [apply cleared_unexpired_tree | done]. Qed.

Lemma Node_prune_expired_spec (now : Z) (n : Node) :
  well_placed n = true -> prunes_well now n.
Proof.
  induction n as [n IH] using Node_tree_ind. intros Hwp.
  pose proof (forall_nodes_here _ _ Hwp) as Hsp.
  assert (IHc : forall q c, quadrants n q = Some c -> prunes_well now c).
  { intros q c Hq. eapply IH; [done|]. by eapply forall_nodes_child. }
  clear IH. unfold prunes_well. rewrite Node_prune_expired_eq.
  destruct (expired n now) eqn:Hexp; cbn zeta.
  - (* the node has expired *)
    set (self0 := set_quadrant TWO None (set_quadrant ONE None n)).
    set (res0 := negb (empty n)
                 || match quadrants n ONE with Some c => negb (deep_empty c) | None => false end
                 || match quadrants n TWO with Some c => negb (deep_empty c) | None => false end).
    destruct (visit_child_pruned now n THREE res0 self0 (IHc THREE) Hsp)
      as (r3 & o3 & -> & H3); [by destruct n .. |].
    cbn [mbind result_bind].
    destruct (visit_child_pruned now n FOUR (res0 || r3) (set_quadrant THREE o3 self0)
                (IHc FOUR) Hsp) as (r4 & o4 & -> & H4); [by destruct n .. |].
    cbn [mbind result_bind].
    set (self := clear_entries (set_quadrant FOUR o4 (set_quadrant THREE o3 self0))).
    destruct (clean self) as [n' call] eqn:Hclean.
    exists (res0 || r3 || r4), n', call. split; [done|].
    pose proof (clean_point self) as [He Hp]. rewrite Hclean in He, Hp. simpl in He, Hp.
    assert (Hout : settle_root n' call = clean_outcome self).
    { unfold clean_outcome. by rewrite Hclean. }
    rewrite Hout. clear Hclean Hout.
    assert (Hself : self = mkNode (expiry n) (priority n) None None o3 o4 ∅ [])
      by (subst self self0; by destruct n).
    clearbody self. subst self self0 res0.
    destruct n as [e p q1 q2 q3 q4 d l]. simpl in *.
    split; [done|]. split; [done|].
    apply subtrees_placed_mk in Hsp as (Hs1 & Hs2 & Hs3 & Hs4).
    apply forall_nodes_mk in Hwp as (_ & Hw1 & Hw2 & Hw3 & Hw4).
    destruct (pruned_slot_entries _ _ _ _ H3) as [Hsub3 Hr3].
    destruct (pruned_slot_entries _ _ _ _ H4) as [Hsub4 Hr4].
    split_and!.
    + intros X HX Hf. apply clean_outcome_nodes.
      apply forall_nodes_mk in Hf as (Hf0 & Hf1 & Hf2 & Hf3 & Hf4).
      apply forall_nodes_mk.
      split_and!; [by eapply robust_mk | done | done | |];
        by eapply pruned_slot_nodes.
    + apply clean_outcome_nodes. apply forall_nodes_mk. split_and!; [| done | done | |].
      * apply subtrees_placed_mk. split_and!; [done | done | |].
        -- by eapply (pruned_slot_in_quadrant now q3 r3 o3); [.. | exact Hs3].
        -- by eapply (pruned_slot_in_quadrant now q4 r4 o4); [.. | exact Hs4].
      * by eapply pruned_slot_well_placed.
      * by eapply pruned_slot_well_placed.
    + apply clean_outcome_nodes. apply forall_nodes_mk. split_and!; [| done | done | |].
      * apply orb_true_iff. right. unfold holds_nothing. simpl.
        by rewrite bool_decide_eq_true.
      * by eapply pruned_slot_cleared.
      * by eapply pruned_slot_cleared.
    + rewrite clean_outcome_entries. simpl.
      do 3 apply sublist_inserts_l. by apply sublist_app.
    + rewrite clean_outcome_entries. simpl. rewrite !length_app.
      assert (Hl : (empty (mkNode e p q1 q2 q3 q4 d l) = true /\ length l = 0)%nat
                   \/ (empty (mkNode e p q1 q2 q3 q4 d l) = false /\ 0 < length l)%nat).
      { unfold empty. destruct l; simpl; [left | right]; split; (done || lia). }
      assert (Hd : forall q : option Node,
                 (match q with Some c => negb (deep_empty c) | None => false end = false
                  /\ length (root_entries q) = 0%nat)
                 \/ (match q with Some c => negb (deep_empty c) | None => false end = true
                     /\ (0 < length (root_entries q))%nat)).
      { intros [c|]; simpl; [|by left].
        destruct (deep_empty c) eqn:Hde; simpl.
        - left. apply deep_empty_entries in Hde. by rewrite Hde.
        - right. split; [done|]. destruct (tree_entries c) eqn:Hte; simpl; [|lia].
          apply deep_empty_entries in Hte. congruence. }
      destruct (Hd q1) as [[-> Hd1]|[-> Hd1]], (Hd q2) as [[-> Hd2]|[-> Hd2]],
        Hl as [[-> Hl]|[-> Hl]], Hr3 as [[-> Hr3]|[-> Hr3]], Hr4 as [[-> Hr4]|[-> Hr4]];
        unfold root_entries in *; simpl in *; split; intros; try done; lia.
    + etrans; [apply clean_outcome_sublist|].
      rewrite !tree_nodes_eq. cbn [quadrants quad_one quad_two quad_three quad_four
                                      root_nodes].
      rewrite fmap_cons, !fmap_app.
      assert (Hn : cleared now (strip (mkNode e p q1 q2 q3 q4 d l))
                   = strip (mkNode e p None None o3 o4 ∅ [])).
      { unfold cleared.
        change (expired (strip (mkNode e p q1 q2 q3 q4 d l)) now)
          with (expired (mkNode e p q1 q2 q3 q4 d l) now).
        by rewrite Hexp. }
      rewrite Hn, !app_nil_l. apply sublist_skip. do 2 apply sublist_inserts_l.
      apply sublist_app; by eapply pruned_slot_tree_nodes.
  - (* the node has not expired *)
    destruct (visit_child_pruned now n ONE false n (IHc ONE) Hsp)
      as (r1 & o1 & -> & H1'); [done .. |].
    cbn [mbind result_bind].
    destruct (visit_child_pruned now n TWO (false || r1) (set_quadrant ONE o1 n)
                (IHc TWO) Hsp) as (r2 & o2 & -> & H2'); [by destruct n .. |].
    cbn [mbind result_bind].
    set (self := set_quadrant TWO o2 (set_quadrant ONE o1 n)).
    destruct (clean self) as [n' call] eqn:Hclean.
    exists (false || r1 || r2), n', call. split; [done|].
    pose proof (clean_point self) as [He Hp]. rewrite Hclean in He, Hp. simpl in He, Hp.
    assert (Hout : settle_root n' call = clean_outcome self).
    { unfold clean_outcome. by rewrite Hclean. }
    rewrite Hout. clear Hclean Hout.
    assert (Hself : self = mkNode (expiry n) (priority n) o1 o2 (quad_three n)
                             (quad_four n) (_data n) (_lru_queue n))
      by (subst self; by destruct n).
    clearbody self. subst self.
    destruct n as [e p q1 q2 q3 q4 d l]. simpl in *.
    split; [done|]. split; [done|].
    pose proof Hsp as Hsp'.
    apply subtrees_placed_mk in Hsp as (Hs1 & Hs2 & Hs3 & Hs4).
    apply forall_nodes_mk in Hwp as (_ & Hw1 & Hw2 & Hw3 & Hw4).
    destruct (pruned_slot_entries _ _ _ _ H1') as [Hsub1 Hr1].
    destruct (pruned_slot_entries _ _ _ _ H2') as [Hsub2 Hr2].
    unfold expired in Hexp. simpl in Hexp. apply Z.ltb_ge in Hexp.
    assert (Hyoung : forall q (c : option Node),
               q = THREE \/ q = FOUR ->
               opt_nodes (forall_nodes (in_quadrant (mkNode e p q1 q2 q3 q4 d l) q)) c = true ->
               opt_nodes (forall_nodes (fun m => negb (expired m now))) c = true).
    { intros q [c|] Hq Hc; [|done]. simpl in *.
      eapply forall_nodes_impl; [|exact Hc].
      intros m Hm.
      unfold in_quadrant, quadrant_index in Hm. simpl in Hm.
      apply bool_decide_eq_true in Hm. unfold expired.
      apply negb_true_iff, Z.ltb_ge.
      destruct (expiry m <=? e) eqn:Hle; [by destruct Hq as [->| ->], (priority m <? p)|].
      apply Z.leb_gt in Hle. lia. }
    assert (Hyoung' : forall c : option Node,
               opt_nodes (forall_nodes (fun m => negb (expired m now))) c = true ->
               opt_nodes (expired_cleared now) c = true).
    { intros [c|] Hc; [|done]. simpl in *.
      eapply forall_nodes_impl; [|exact Hc].
      intros m Hm. by rewrite Hm. }
    split_and!.
    + intros X HX Hf. apply clean_outcome_nodes.
      apply forall_nodes_mk in Hf as (Hf0 & Hf1 & Hf2 & Hf3 & Hf4).
      apply forall_nodes_mk.
      split_and!; [by eapply robust_mk | | | done | done];
        by eapply pruned_slot_nodes.
    + apply clean_outcome_nodes. apply forall_nodes_mk. split_and!; [| | | done | done].
      * apply subtrees_placed_mk. split_and!; [| | done | done].
        -- by eapply (pruned_slot_in_quadrant now q1 r1 o1); [.. | exact Hs1].
        -- by eapply (pruned_slot_in_quadrant now q2 r2 o2); [.. | exact Hs2].
      * by eapply pruned_slot_well_placed.
      * by eapply pruned_slot_well_placed.
    + apply clean_outcome_nodes. apply forall_nodes_mk. split_and!.
      * apply orb_true_iff. left. unfold expired. simpl.
        by apply negb_true_iff, Z.ltb_ge.
      * by eapply pruned_slot_cleared.
      * by eapply pruned_slot_cleared.
      * apply Hyoung'. by eapply (Hyoung THREE); [left|].
      * apply Hyoung'. by eapply (Hyoung FOUR); [right|].
    + rewrite clean_outcome_entries. simpl.
      apply sublist_app; [done|]. apply sublist_app; [done|]. by apply sublist_app.
    + rewrite clean_outcome_entries. simpl. rewrite !length_app.
      destruct Hr1 as [[-> Hr1]|[-> Hr1]], Hr2 as [[-> Hr2]|[-> Hr2]];
        unfold root_entries in *; simpl in *; split; intros; try done; lia.
    + etrans; [apply clean_outcome_sublist|].
      rewrite !tree_nodes_eq. cbn [quadrants quad_one quad_two quad_three quad_four
                                      root_nodes].
      rewrite fmap_cons, !fmap_app.
      assert (Hn : cleared now (strip (mkNode e p q1 q2 q3 q4 d l))
                   = strip (mkNode e p o1 o2 q3 q4 d l)).
      { unfold cleared, expired. simpl.
        by rewrite (proj2 (Z.ltb_ge _ _) Hexp). }
      rewrite Hn. apply sublist_skip.
      apply sublist_app; [by eapply pruned_slot_tree_nodes|].
      apply sublist_app; [by eapply pruned_slot_tree_nodes|].
      apply sublist_app.
      * rewrite cleared_unexpired; [done|]. by apply (Hyoung THREE); [left|].
      * rewrite cleared_unexpired; [done|]. by apply (Hyoung FOUR); [right|].
Qed.

Lemma sublist_same_length {A : Type} (l1 l2 : list A) :
  sublist l1 l2 -> (length l2 <= length l1)%nat -> l1 = l2.
Proof.
  induction 1 as [|x l1 l2 Hs IH|x l1 l2 Hs IH]; simpl; intros Hlen.
  - done.
  - f_equal. apply IH. lia.
  - apply sublist_length in Hs. lia.
Qed.

Lemma forall_nodes_node_at (P : Node -> bool) (n m : Node) (path : list QuadrantIndex) :
  forall_nodes P n = true -> node_at path n = Some m -> P m = true.
Proof.
  revert n. induction path as [|q path IH]; intros n Hn Hm; simpl in Hm.
  - simplify_eq. by eapply forall_nodes_here.
  - destruct (quadrants n q) as [c|] eqn:Hq; simpl in Hm; [|done].
    eapply IH; [|done]. by eapply forall_nodes_child.
Qed.

Lemma Quadtree_prune_expired_spec (now : Z) (root : option Node) :
  opt_nodes well_placed root = true ->
  exists r root',
    Quadtree_prune_expired now root = Ok (r, root')
    /\ (forall X, robust X -> opt_nodes (forall_nodes X) root = true ->
                   opt_nodes (forall_nodes X) root' = true)
    /\ opt_nodes well_placed root' = true
    /\ opt_nodes (expired_cleared now) root' = true
    /\ sublist (root_entries root') (root_entries root)
    /\ (r = true <-> (length (root_entries root') < length (root_entries root))%nat)
    /\ sublist (root_nodes root') (cleared now <$> root_nodes root).
Proof.
  destruct root as [n|]; simpl.
  - intros Hwp.
    destruct (Node_prune_expired_spec now n Hwp)
      as (r & n' & call & -> & _ & _ & HX & Hw & Hc & Hsub & Hr & Hnodes).
    exists r, (settle_root n' call). by split_and!.
  - intros _. exists false, None. split_and!; try done. simpl. split; [done | lia].
Qed.

(** C1: on a tree that satisfies the placement invariant of insertion,
    [prune_expired(now)] returns, and no node left in the tree with
    [expiry < now] holds an entry: its queue and its data map are empty. *)
Theorem prune_expired_clears_expired (now : Z) (root : option Node) :
  opt_nodes well_placed root = true ->
  exists r root',
    Quadtree_prune_expired now root = Ok (r, root')
    /\ forall path m,
         root' ≫= node_at path = Some m -> expiry m < now ->
         _lru_queue m = [] /\ _data m = ∅.
Proof.
  intros Hwp.
  destruct (Quadtree_prune_expired_spec now root Hwp)
    as (r & root' & Heq & _ & _ & Hc & _).
  exists r, root'. split; [done|]. intros path m Hm Hexp.
  destruct root' as [n'|]; simpl in *; [|done].
  pose proof (forall_nodes_node_at _ _ _ _ Hc Hm) as Hm'. simpl in Hm'.
  apply orb_true_iff in Hm' as [Hne|Hh].
  - unfold expired in Hne. apply negb_true_iff, Z.ltb_ge in Hne. lia.
  - unfold holds_nothing, empty in Hh. apply andb_true_iff in Hh as [He Hd].
    apply bool_decide_eq_true in Hd. split; [|done]. by destruct (_lru_queue m).
Qed.

(** C3: on such a tree [prune_expired(now)] returns true exactly when the
    tree holds fewer entries after the call; the entries left are, in the
    same order, entries that were there. *)
Theorem prune_expired_flag (now : Z) (root : option Node) :
  opt_nodes well_placed root = true ->
  exists r root',
    Quadtree_prune_expired now root = Ok (r, root')
    /\ sublist (root_entries root') (root_entries root)
    /\ (r = true <-> (length (root_entries root') < length (root_entries root))%nat)
    /\ (r = false <-> root_entries root' = root_entries root).
Proof.
  intros Hwp.
  destruct (Quadtree_prune_expired_spec now root Hwp)
    as (r & root' & Heq & _ & _ & _ & Hsub & Hr & _).
  exists r, root'. split_and!; try done. split.
  - intros ->. apply sublist_same_length; [done|].
    destruct (decide (length (root_entries root') < length (root_entries root))%nat)
      as [Hlt|Hge]; [by apply Hr in Hlt | lia].
  - intros Hre. destruct r; [|done].
    assert (length (root_entries root') < length (root_entries root))%nat by by apply Hr.
    rewrite Hre in *. lia.
Qed.

(** ** Calls through a path *)

Lemma forall_nodes_subtree (X : Node -> bool) (n m : Node) (path : list QuadrantIndex) :
  forall_nodes X n = true -> node_at path n = Some m -> forall_nodes X m = true.
Proof.
  revert n. induction path as [|q path IH]; intros n Hn Hm; simpl in Hm.
  - by simplify_eq.
  - destruct (quadrants n q) as [c|] eqn:Hq; simpl in Hm; [|done].
    eapply IH; [|done]. by eapply forall_nodes_child.
Qed.

Lemma forall_nodes_set_quadrant (X : Node -> bool) (q : QuadrantIndex)
    (o : option Node) (n : Node) :
  quadrant_blind X -> forall_nodes X n = true ->
  opt_nodes (forall_nodes X) o = true ->
  forall_nodes X (set_quadrant q o n) = true.
Proof.
  intros HX Hn Ho. apply forall_nodes_intro.
  - apply HX. by eapply forall_nodes_here.
  - intros q' c. rewrite quadrants_set_quadrant. case_decide.
    + intros ->. done.
    + by apply forall_nodes_child.
Qed.

Lemma quadrant_blind_on_point (f : Z -> Z -> bool) : quadrant_blind (on_point f).
Proof. by intros n [] o. Qed.

Lemma graft_nodes (X : Node -> bool) (path : list QuadrantIndex) (o : option Node)
    (n m : Node) :
  quadrant_blind X -> forall_nodes X n = true -> node_at path n = Some m ->
  opt_nodes (forall_nodes X) o = true ->
  opt_nodes (forall_nodes X) (graft path o n) = true.
Proof.
  intros HX. revert n. induction path as [|q path IH]; intros n Hn Hm Ho; simpl in *.
  - done.
  - destruct (quadrants n q) as [c|] eqn:Hq; simpl in *; [|done].
    apply forall_nodes_set_quadrant; [done | done |].
    apply IH; [|done | done]. by eapply forall_nodes_child.
Qed.

Lemma subtrees_placed_set_quadrant (q : QuadrantIndex) (o : option Node) (n : Node) :
  subtrees_placed n = true ->
  opt_nodes (forall_nodes (in_quadrant n q)) o = true ->
  subtrees_placed (set_quadrant q o n) = true.
Proof.
  intros Hn Ho. destruct n as [e p q1 q2 q3 q4 d l].
  apply subtrees_placed_mk in Hn as (H1' & H2' & H3' & H4').
  destruct q; apply subtrees_placed_mk; by split_and!.
Qed.

Lemma well_placed_set_quadrant (q : QuadrantIndex) (o : option Node) (n : Node) :
  well_placed n = true -> opt_nodes well_placed o = true ->
  opt_nodes (forall_nodes (in_quadrant n q)) o = true ->
  well_placed (set_quadrant q o n) = true.
Proof.
  intros Hn Ho Hq. apply forall_nodes_intro.
  - apply subtrees_placed_set_quadrant; [|done]. by eapply forall_nodes_here.
  - intros q' c. rewrite quadrants_set_quadrant. case_decide.
    + intros ->. done.
    + by apply forall_nodes_child.
Qed.

Lemma graft_well_placed (path : list QuadrantIndex) (o : option Node) (n m : Node) :
  well_placed n = true -> node_at path n = Some m ->
  opt_nodes well_placed o = true ->
  (forall g, forall_nodes (on_point g) m = true ->
             opt_nodes (forall_nodes (on_point g)) o = true) ->
  opt_nodes well_placed (graft path o n) = true.
Proof.
  revert n. induction path as [|q path IH]; intros n Hn Hm Ho Hpt; simpl in *.
  - done.
  - destruct (quadrants n q) as [c|] eqn:Hq; simpl in *; [|done].
    pose proof (forall_nodes_child _ _ _ _ Hn Hq) as Hc.
    pose proof (subtrees_placed_slot n c q (forall_nodes_here _ _ Hn) Hq) as Hsub.
    apply well_placed_set_quadrant; [done | by apply IH |].
    rewrite in_quadrant_on_point in *.
    eapply graft_nodes; [apply quadrant_blind_on_point | done | done |].
    apply Hpt. by eapply forall_nodes_subtree.
Qed.

Lemma tree_entries_set_quadrant (q : QuadrantIndex) (n : Node) :
  exists l1 l2, forall o,
    tree_entries (set_quadrant q o n) = l1 ++ root_entries o ++ l2.
Proof.
  destruct n as [e p q1 q2 q3 q4 d l], q; simpl.
  - exists l, (root_entries q2 ++ root_entries q3 ++ root_entries q4). done.
  - exists (l ++ root_entries q1), (root_entries q3 ++ root_entries q4).
    intros o. by rewrite <- !app_assoc.
  - exists (l ++ root_entries q1 ++ root_entries q2), (root_entries q4).
    intros o. by rewrite <- !app_assoc.
  - exists (l ++ root_entries q1 ++ root_entries q2 ++ root_entries q3), [].
    intros o. by rewrite <- !app_assoc, app_nil_r.
Qed.

Lemma graft_entries (path : list QuadrantIndex) (n m : Node) :
  node_at path n = Some m ->
  exists l1 l2,
    tree_entries n = l1 ++ tree_entries m ++ l2
    /\ forall o, root_entries (graft path o n) = l1 ++ root_entries o ++ l2.
Proof.
  revert n. induction path as [|q path IH]; intros n Hm; simpl in *.
  - simplify_eq. exists [], []. split; [by rewrite app_nil_r|].
    intros o. by rewrite app_nil_r.
  - destruct (quadrants n q) as [c|] eqn:Hq; simpl in *; [|done].
    destruct (IH c Hm) as (l1 & l2 & Hc & Hg).
    destruct (tree_entries_set_quadrant q n) as (a & b & Hab).
    exists (a ++ l1), (l2 ++ b). split.
    + rewrite <- (set_quadrant_same q n), Hq, Hab. simpl. rewrite Hc.
      by rewrite <- !app_assoc.
    + intros o. rewrite Hab. simpl. rewrite Hg. by rewrite <- !app_assoc.
Qed.

Lemma node_at_graft (path : list QuadrantIndex) (n m m' : Node) :
  node_at path n = Some m ->
  graft path (Some m') n ≫= node_at path = Some m'.
Proof.
  revert n. induction path as [|q path IH]; intros n Hm; simpl in *.
  - done.
  - destruct (quadrants n q) as [c|] eqn:Hq; simpl in *; [|done].
    rewrite quadrants_set_quadrant_eq. by apply IH.
Qed.

Lemma graft_point (path : list QuadrantIndex) (n m m' : Node) (call : ParentCall) :
  node_at path n = Some m -> keeps_points m m' call ->
  forall g, forall_nodes (on_point g) n = true ->
            opt_nodes (forall_nodes (on_point g)) (graft path (settle_root m' call) n) = true.
Proof.
  intros Hm (_ & _ & Hpt) g Hg.
  eapply graft_nodes; [apply quadrant_blind_on_point | done | done |].
  apply Hpt. by eapply forall_nodes_subtree.
Qed.

(** A method called through a path returns what it returns on the node, and
    leaves the tree with the outcome grafted where the node was. *)
Lemma at_path_graft {A : Type} (path : list QuadrantIndex)
    (f : Node -> result (A * Node * ParentCall)) (n m m' : Node) (a : A)
    (call : ParentCall) :
  well_placed n = true -> node_at path n = Some m ->
  f m = Ok (a, m', call) -> keeps_points m m' call ->
  exists n' call',
    at_path path f n = Ok (a, n', call')
    /\ settle_root n' call' = graft path (settle_root m' call) n
    /\ expiry n' = expiry n /\ priority n' = priority n.
Proof.
  revert n. induction path as [|q path IH]; intros n Hn Hm Hf Hk; simpl in *.
  - simplify_eq. exists m', call. destruct Hk as (? & ? & _). by split_and!.
  - destruct (quadrants n q) as [c|] eqn:Hq; simpl in *; [|done].
    pose proof (forall_nodes_child _ _ _ _ Hn Hq) as Hc.
    pose proof (subtrees_placed_slot n c q (forall_nodes_here _ _ Hn) Hq) as Hsub.
    destruct (IH c Hc Hm Hf Hk) as (c' & callc & -> & Hout & He & Hp).
    cbn [mbind result_bind].
    rewrite settle_same_slot.
    + cbn [mbind result_bind]. eexists _, NoCall. split; [done|].
      destruct (set_quadrant_point q (settle_root c' callc) n) as [-> ->].
      simpl. by rewrite Hout.
    + rewrite (quadrant_index_point n n c c') by done.
      apply forall_nodes_here in Hsub. unfold in_quadrant in Hsub.
      by apply bool_decide_eq_true in Hsub.
    + intros gc ->. simpl in Hout.
      rewrite in_quadrant_on_point in Hsub.
      pose proof (graft_point path c m m' call Hm Hk _ Hsub) as Hgc.
      rewrite <- Hout in Hgc. simpl in Hgc.
      apply forall_nodes_here in Hgc. unfold on_point in Hgc.
      by apply bool_decide_eq_true in Hgc.
Qed.

Lemma Quadtree_at_graft {A : Type} (path : list QuadrantIndex)
    (f : Node -> result (A * Node * ParentCall)) (n m m' : Node) (a : A)
    (call : ParentCall) :
  well_placed n = true -> node_at path n = Some m ->
  f m = Ok (a, m', call) -> keeps_points m m' call ->
  Quadtree_at path f (Some n) = Ok (a, graft path (settle_root m' call) n).
Proof.
  intros Hn Hm Hf Hk. unfold Quadtree_at.
  destruct (at_path_graft path f n m m' a call Hn Hm Hf Hk)
    as (n' & call' & -> & <- & _).
  done.
Qed.

(** ** The search of [prune_lowest_priority] *)

Lemma node_at_app (p1 p2 : list QuadrantIndex) (n : Node) :
  node_at (p1 ++ p2) n = node_at p1 n ≫= node_at p2.
Proof.
  revert n. induction p1 as [|q p1 IH]; intros n; simpl; [done|].
  destruct (quadrants n q); simpl; [apply IH | done].
Qed.

Lemma child_refs_elem (r : Ref) (keys : list QuadrantIndex) (pn : list QuadrantIndex)
    (n : Node) :
  r ∈ child_refs keys (pn, n) <->
  exists q c, q ∈ keys /\ quadrants n q = Some c /\ r = (pn ++ [q], c).
Proof.
  unfold child_refs. rewrite list_elem_of_omap. simpl. split.
  - intros (q & Hq & Hf). destruct (quadrants n q) as [c|] eqn:Hc; simpl in Hf; [|done].
    exists q, c. by simplify_eq.
  - intros (q & c & Hq & Hc & ->). exists q. by rewrite Hc.
Qed.

Lemma stack_size_child_refs (keys : list QuadrantIndex) (r : Ref) :
  stack_size (child_refs keys r) = sum_list_with (slot_size r.2) keys.
Proof.
  unfold stack_size, child_refs.
  induction keys as [|q keys IH]; [done|].
  cbn [omap list_omap sum_list_with]. unfold slot_size at 1.
  destruct (quadrants r.2 q); cbn [fmap option_fmap option_map sum_list_with snd];
    rewrite IH; done.
Qed.

Lemma sum_list_with_filter_le {A : Type} (P : A -> Prop) `{forall x, Decision (P x)}
    (f : A -> nat) (l : list A) :
  (sum_list_with f (filter P l) <= sum_list_with f l)%nat.
Proof.
  induction l as [|x l IH]; simpl; [done|].
  rewrite filter_cons. case_decide; simpl; lia.
Qed.

Lemma list_filter_all {A : Type} (P : A -> Prop) `{forall x, Decision (P x)}
    (l : list A) :
  (forall x, P x) -> filter P l = l.
Proof.
  intros HP. induction l as [|x l IH]; [done|].
  rewrite filter_cons, decide_True by done. by rewrite IH.
Qed.

Lemma node_size_slots (n : Node) :
  node_size n = S (sum_list_with (slot_size n) all_quads).
Proof. destruct n; simpl. unfold slot_size; simpl. lia. Qed.

Lemma children_size (keys : list QuadrantIndex) (n : Node) (P : QuadrantIndex -> Prop)
    `{forall q, Decision (P q)} :
  keys ≡ₚ filter P (quadrant_keys n) ->
  (sum_list_with (slot_size n) keys < node_size n)%nat.
Proof.
  intros ->. rewrite node_size_slots. unfold quadrant_keys.
  pose proof (sum_list_with_filter_le P (slot_size n)
                (filter (fun q => is_Some (quadrants n q)) all_quads)).
  pose proof (sum_list_with_filter_le (fun q => is_Some (quadrants n q))
                (slot_size n) all_quads).
  lia.
Qed.

Lemma quadrant_keys_elem (n : Node) (q : QuadrantIndex) :
  q ∈ quadrant_keys n <-> is_Some (quadrants n q).
Proof.
  unfold quadrant_keys. rewrite list_elem_of_filter.
  split; [by intros [? _] | intros Hq; split; [done|]].
  destruct q; set_solver.
Qed.

Lemma outranks_below (lowest n m : Node) :
  outranks lowest n -> priority m < priority n -> outranks lowest m.
Proof. intros [Hne Hn] Hm. split; [done|]. left. lia. Qed.

Lemma lru_time_head (n : Node) :
  empty n = false -> lru_time n = Ok (lru_head n).
Proof. unfold empty, lru_time, lru_head. by destruct (_lru_queue n). Qed.

Lemma lower_than_spec (node lowest : Node) :
  empty node = false ->
  exists b, lower_than node lowest = Ok b
    /\ (forall m, outranks lowest m -> outranks (if b then node else lowest) m)
    /\ outranks (if b then node else lowest) node.
Proof.
  intros Hne. unfold lower_than.
  assert (Hself : outranks node node) by (split; [done | right; lia]).
  destruct (empty lowest) eqn:Hlow.
  { exists true. split; [done|]. split; [|done].
    intros m [Hm _]. congruence. }
  destruct (priority node >? priority lowest) eqn:Hgt.
  { exists true. split; [done|]. split; [|done].
    intros m [_ Hm]. split; [done|]. left. lia. }
  destruct (priority node =? priority lowest) eqn:Heq.
  - apply Z.eqb_eq in Heq. rewrite !lru_time_head by done. simpl.
    exists (lru_head node <? lru_head lowest). split; [done|].
    destruct (lru_head node <? lru_head lowest) eqn:Hlt.
    + split; [|done]. intros m [_ Hm]. split; [done|]. lia.
    + split; [done|]. split; [done|]. right. lia.
  - exists false. split; [done|]. split; [done|]. split; [done|]. left. lia.
Qed.

Section SearchProperties.

Variable iteration : Node -> list QuadrantIndex -> list QuadrantIndex.
Hypothesis iteration_perm : forall n l, iteration n l ≡ₚ l.

Lemma search_spec (root : Node) (fuel : nat) (lowest : Ref) (stack : list Ref) :
  well_placed root = true -> search_inv root lowest stack ->
  (stack_size stack < fuel)%nat ->
  exists best,
    search iteration fuel lowest stack = Ok best
    /\ search_inv root best []
    /\ (best = lowest \/ empty best.2 = false).
Proof.
  intros Hwp. revert lowest stack.
  induction fuel as [|fuel IH]; intros lowest stack Hinv Hsize; [lia|].
  destruct stack as [|[pn n] stack]; simpl.
  { exists lowest. split_and!; [done | done | by left]. }
  destruct Hinv as (Hlow & Hst & Hcov).
  apply Forall_cons in Hst as [Hn Hst]. simpl in Hn.
  unfold stack_size in Hsize. simpl in Hsize. fold (stack_size stack) in Hsize.
  assert (Hrefs : forall keys,
             Forall (fun r : Ref => node_at r.1 root = Some r.2)
                    (extend stack (child_refs keys (pn, n)))).
  { intros keys. unfold extend. apply Forall_app. split; [|done].
    apply Forall_reverse, Forall_forall. intros r Hr.
    apply child_refs_elem in Hr as (q & c & _ & Hc & ->). simpl.
    rewrite node_at_app, Hn. simpl. by rewrite Hc. }
  assert (Hsz : forall (P : QuadrantIndex -> Prop) `{forall q, Decision (P q)},
             (stack_size (extend stack
                (child_refs (iteration n (filter P (quadrant_keys n))) (pn, n))) < fuel)%nat).
  { intros P HP. unfold extend, stack_size.
    rewrite sum_list_with_app, sum_list_with_reverse.
    fold (stack_size (child_refs (iteration n (filter P (quadrant_keys n))) (pn, n))).
    rewrite stack_size_child_refs. simpl.
    pose proof (children_size (iteration n (filter P (quadrant_keys n))) n P
                  (iteration_perm _ _)).
    fold (stack_size stack). lia. }
  assert (Hunder : forall path m,
             node_at path root = Some m -> pn `prefix_of` path ->
             m = n \/ exists q c rest, quadrants n q = Some c
                                     /\ node_at rest c = Some m
                                     /\ (pn ++ [q]) `prefix_of` path).
  { intros path m Hm [rest ->]. rewrite node_at_app, Hn in Hm. simpl in Hm.
    destruct rest as [|q rest]; simpl in Hm; [left; by simplify_eq|].
    destruct (quadrants n q) as [c|] eqn:Hc; simpl in Hm; [|done].
    right. exists q, c, rest. split_and!; [done | done |].
    exists rest. by rewrite <- app_assoc. }
  destruct (empty n) eqn:Hempty.
  - (* an empty node: all its children go on the stack *)
    destruct (IH lowest (extend stack (values_refs iteration (pn, n)))) as (best & Hb).
    + split_and!; [done | |].
      * unfold values_refs. apply Hrefs.
      * intros path m Hm Hne.
        destruct (Hcov path m Hm Hne) as [Ho|(r & Hr & Hpre)]; [by left|].
        right. apply elem_of_cons in Hr as [->|Hr].
        -- destruct (Hunder path m Hm Hpre) as [->|(q & c & rest & Hc & _ & Hq)];
             [congruence|].
           exists (pn ++ [q], c). split; [|done].
           unfold extend, values_refs. apply elem_of_app. left.
           apply elem_of_reverse, child_refs_elem. exists q, c. split_and!; [|done..].
           simpl. rewrite iteration_perm. apply quadrant_keys_elem. by rewrite Hc.
        -- exists r. split; [|done]. unfold extend. apply elem_of_app. by right.
    + unfold values_refs. simpl.
      rewrite <- (list_filter_all (fun _ => True) (quadrant_keys n)) at 1 by done.
      apply (Hsz (fun _ => True) _).
    + exists best. done.
  - (* a node with entries *)
    destruct (lower_than_spec n lowest.2 Hempty) as (b & -> & Hup & Hnode).
    cbn [mbind result_bind].
    destruct (IH (if b then (pn, n) else lowest)
                (extend stack (lower_priority_nodes iteration (pn, n)))) as (best & Hb).
    + assert (Hup' : forall m, outranks lowest.2 m ->
                                 outranks (if b then (pn, n) else lowest).2 m)
        by by destruct b.
      assert (Hnode' : outranks (if b then (pn, n) else lowest).2 n)
        by by destruct b.
      clear Hup Hnode.
      split_and!; [by destruct b | |].
      * unfold lower_priority_nodes. apply Hrefs.
      * intros path m Hm Hne.
        destruct (Hcov path m Hm Hne) as [Ho|(r & Hr & Hpre)]; [left; by apply Hup'|].
        apply elem_of_cons in Hr as [->|Hr].
        -- destruct (Hunder path m Hm Hpre) as [->|(q & c & rest & Hc & Hrest & Hq)];
             [by left|].
           destruct (decide (q ∈ WORST_QUADS)) as [Hw|Hw].
           ++ right. exists (pn ++ [q], c). split; [|done].
              unfold extend, lower_priority_nodes. apply elem_of_app. left.
              apply elem_of_reverse, child_refs_elem. exists q, c.
              split_and!; [|done..]. simpl. rewrite iteration_perm.
              apply list_elem_of_filter. split; [done|].
              apply quadrant_keys_elem. by rewrite Hc.
           ++ left. apply (outranks_below _ n); [done|].
              pose proof (forall_nodes_subtree _ _ _ _ Hwp Hn) as Hwn.
              pose proof (subtrees_placed_slot n c q (forall_nodes_here _ _ Hwn) Hc) as Hsub.
              pose proof (forall_nodes_node_at _ _ _ _ Hsub Hrest) as Hin.
              unfold in_quadrant, quadrant_index in Hin.
              apply bool_decide_eq_true in Hin.
              destruct (priority m <? priority n) eqn:Hlt; [by apply Z.ltb_lt|].
              exfalso. apply Hw. subst q. unfold WORST_QUADS.
              destruct (expiry m <=? expiry n); set_solver.
        -- right. exists r. split; [|done]. unfold extend. apply elem_of_app. by right.
    + unfold lower_priority_nodes. simpl. apply (Hsz (fun q => q ∈ WORST_QUADS) _).
    + destruct Hb as (Hs & Hi & Hbest). exists best. split_and!; [done | done |].
      destruct Hbest as [->|?]; [|by right].
      destruct b; [by right | by left].
Qed.

End SearchProperties.

(** ** [Quadtree.prune_lowest_priority] *)

Lemma quadrants_set_entries (d : gmap K Entry) (l : list Entry) (n : Node)
    (q : QuadrantIndex) :
  quadrants (set_entries d l n) q = quadrants n q.
Proof. by destruct q. Qed.

Lemma keeps_points_clean (m m1 : Node) :
  expiry m1 = expiry m -> priority m1 = priority m ->
  (forall q, quadrants m1 q = quadrants m q) ->
  keeps_points m (clean m1).1 (clean m1).2.
Proof.
  intros He Hp Hq. destruct (clean_point m1) as [He1 Hp1].
  split_and!; [congruence | congruence |].
  intros g Hg. apply (clean_outcome_nodes (on_point g) m1).
  apply forall_nodes_intro.
  - apply forall_nodes_here in Hg. unfold on_point in *. by rewrite He, Hp.
  - intros q c. rewrite Hq. by apply forall_nodes_child.
Qed.

Lemma subtree_entries_nil (path : list QuadrantIndex) (n m : Node) :
  node_at path n = Some m -> tree_entries n = [] -> empty m = true.
Proof.
  intros Hm Hn. destruct (graft_entries path n m Hm) as (l1 & l2 & Heq & _).
  rewrite Hn in Heq. symmetry in Heq.
  apply app_nil in Heq as [_ Heq]. apply app_nil in Heq as [Heq _].
  unfold empty. destruct m as [? ? ? ? ? ? ? [|x l]]; [done|]. done.
Qed.

Lemma exists_nonempty (n : Node) :
  tree_entries n <> [] ->
  exists path m, node_at path n = Some m /\ empty m = false.
Proof.
  induction n as [n IH] using Node_tree_ind. intros Hne.
  destruct (empty n) eqn:Hempty; [|by exists [], n].
  assert (exists q c, quadrants n q = Some c /\ tree_entries c <> [])
    as (q & c & Hq & Hc).
  { assert (Hslot : forall q, root_entries (quadrants n q) <> [] ->
                              exists q c, quadrants n q = Some c /\ tree_entries c <> []).
    { intros q Hq. destruct (quadrants n q) as [c|] eqn:Hc; [|done]. by exists q, c. }
    destruct (root_entries (quadrants n ONE)) as [|x1 l1] eqn:H1';
      [|apply (Hslot ONE); by rewrite H1'].
    destruct (root_entries (quadrants n TWO)) as [|x2 l2] eqn:H2';
      [|apply (Hslot TWO); by rewrite H2'].
    destruct (root_entries (quadrants n THREE)) as [|x3 l3] eqn:H3';
      [|apply (Hslot THREE); by rewrite H3'].
    destruct (root_entries (quadrants n FOUR)) as [|x4 l4] eqn:H4';
      [|apply (Hslot FOUR); by rewrite H4'].
    exfalso. apply Hne. clear Hslot IH Hne.
    destruct n as [e p q1 q2 q3 q4 d [|x l]]; [|done]. simpl in *.
    unfold root_entries in *. by rewrite H1', H2', H3', H4'. }
  destruct (IH q c Hq Hc) as (path & m & Hm & Hme).
  exists (q :: path), m. simpl. by rewrite Hq.
Qed.

Lemma pop_lru_indexed (m : Node) (e : Entry) (rest : list Entry) :
  queue_indexed m = true -> _lru_queue m = e :: rest ->
  let m1 := set_entries (delete (key e) (_data m)) rest m in
  pop_lru m = Ok (key e, (clean m1).1, (clean m1).2).
Proof.
  intros Hqi Hq. unfold pop_lru, queue_indexed in *. rewrite Hq in *. simpl in Hqi.
  apply andb_true_iff in Hqi as [[x Hx]%bool_decide_eq_true _]. rewrite Hx.
  simpl. by destruct (clean _).
Qed.

Lemma lru_sorted_head (e : Entry) (rest : list Entry) (e' : Entry) :
  lru_sorted (e :: rest) -> e' ∈ e :: rest -> last_used e <= last_used e'.
Proof.
  intros Hs [->|Hin]%elem_of_cons; [lia|].
  apply StronglySorted_inv in Hs as [_ Hall].
  rewrite Forall_forall in Hall. by apply Hall.
Qed.

Section PruneLowestPriority.

Variable iteration : Node -> list QuadrantIndex -> list QuadrantIndex.
Hypothesis iteration_perm : forall n l, iteration n l ≡ₚ l.

Lemma search_first_step (fuel : nat) (r : Node) :
  search iteration (S fuel) ([], r) [([], r)] =
  search iteration fuel ([], r)
    (extend [] (if empty r then values_refs iteration ([], r)
                else lower_priority_nodes iteration ([], r))).
Proof.
  simpl. destruct (empty r) eqn:Hempty; [done|].
  unfold lower_than. rewrite Hempty.
  rewrite Z.gtb_ltb, Z.ltb_irrefl.
  rewrite Z.eqb_refl, !lru_time_head by done. simpl.
  by rewrite Z.ltb_irrefl.
Qed.

Lemma search_from_root (r : Node) :
  well_placed r = true ->
  exists best,
    search iteration (S (node_size r)) ([], r)
      (extend [] (if empty r then values_refs iteration ([], r)
                  else lower_priority_nodes iteration ([], r))) = Ok best
    /\ node_at best.1 r = Some best.2
    /\ (tree_entries r = [] -> empty best.2 = true)
    /\ (tree_entries r <> [] ->
        empty best.2 = false
        /\ forall path m, node_at path r = Some m -> empty m = false ->
             priority m < priority best.2
             \/ (priority m = priority best.2 /\ lru_head best.2 <= lru_head m)).
Proof.
  intros Hwp. rewrite <- search_first_step.
  destruct (search_spec iteration iteration_perm r (S (S (node_size r))) ([], r) [([], r)])
    as (best & Hs & (Hb & _ & Hcov) & Hor).
  - done.
  - split_and!; [done | by constructor |].
    intros path m Hm _. right. exists ([], r). split; [set_solver|]. by exists path.
  - unfold stack_size. simpl. lia.
  - exists best. split_and!; [done | done | |].
    + intros Hnil. by eapply subtree_entries_nil.
    + intros Hne.
      assert (Hall : forall path m, node_at path r = Some m -> empty m = false ->
                                    outranks best.2 m).
      { intros path m Hm Hme. destruct (Hcov path m Hm Hme) as [?|(x & Hx & _)]; [done|].
        by apply elem_of_nil in Hx. }
      destruct (exists_nonempty r Hne) as (path & m & Hm & Hme).
      split; [by destruct (Hall path m Hm Hme)|].
      intros path' m' Hm' Hme'. by destruct (Hall path' m' Hm' Hme') as [_ ?].
Qed.

(** The node that [prune_lowest_priority] picks, and the tree it leaves. *)
Lemma prune_lowest_priority_picks (root : option Node) :
  opt_nodes well_placed root = true ->
  opt_nodes (forall_nodes queue_indexed) root = true ->
  (root_entries root = [] ->
   Quadtree_prune_lowest_priority iteration root = Raise EmptyTree)
  /\ (root_entries root <> [] ->
      exists r path m e rest,
        root = Some r /\ node_at path r = Some m /\ _lru_queue m = e :: rest
        /\ (forall path' m',
              node_at path' r = Some m' -> empty m' = false ->
              priority m' < priority m
              \/ (priority m' = priority m /\ lru_head m <= lru_head m'))
        /\ Quadtree_prune_lowest_priority iteration root
           = Ok (key e,
                 graft path
                   (clean_outcome (set_entries (delete (key e) (_data m)) rest m)) r)).
Proof.
  intros Hwp Hqi. destruct root as [r|]; simpl in *; [|by split].
  destruct (search_from_root r Hwp) as ([path m] & Hs & Hm & Hnil & Hcons).
  simpl in *. rewrite Hs. cbn [mbind result_bind]. simpl. split.
  - intros Hr. by rewrite (Hnil Hr).
  - intros Hr. destruct (Hcons Hr) as [Hme Hmax]. rewrite Hme.
    destruct (_lru_queue m) as [|e rest] eqn:Hq; [by unfold empty in Hme; rewrite Hq in Hme|].
    pose proof (forall_nodes_node_at _ _ _ _ Hqi Hm) as Hqm.
    pose proof (pop_lru_indexed m e rest Hqm Hq) as Hpop. simpl in Hpop.
    set (m1 := set_entries (delete (key e) (_data m)) rest m) in *.
    assert (Hk : keeps_points m (clean m1).1 (clean m1).2).
    { apply keeps_points_clean; [by destruct m | by destruct m |].
      intros q. apply quadrants_set_entries. }
    exists r, path, m, e, rest.
    split_and!; [done | done | done | done |].
    by apply (Quadtree_at_graft path pop_lru r m _ _ _ Hwp Hm Hpop Hk).
Qed.

(** C2: on a tree that holds an entry, [prune_lowest_priority] picks a node
    [m] that has entries, whose priority value no node with entries exceeds
    and whose [lru_time] is the least among the nodes with entries and that
    priority value; it removes the head [e] of the queue of [m] (its oldest
    entry when the queue is sorted) and no other entry, and returns the key
    of [e]. On a tree that holds no entry (no root, or empty nodes only) it
    raises [EmptyTree]. *)
Theorem prune_lowest_priority_spec (root : option Node) :
  opt_nodes well_placed root = true ->
  opt_nodes (forall_nodes queue_indexed) root = true ->
  (root_entries root = [] ->
   Quadtree_prune_lowest_priority iteration root = Raise EmptyTree)
  /\ (root_entries root <> [] ->
      exists r path m e rest root',
        root = Some r /\ node_at path r = Some m /\ _lru_queue m = e :: rest
        /\ (forall path' m',
              node_at path' r = Some m' -> empty m' = false ->
              priority m' < priority m
              \/ (priority m' = priority m /\ lru_head m <= lru_head m'))
        /\ (lru_sorted (_lru_queue m) ->
            forall e', e' ∈ _lru_queue m -> last_used e <= last_used e')
        /\ Quadtree_prune_lowest_priority iteration root = Ok (key e, root')
        /\ exists l1 l2,
             root_entries root = l1 ++ e :: l2 /\ root_entries root' = l1 ++ l2).
Proof.
  intros Hwp Hqi.
  destruct (prune_lowest_priority_picks root Hwp Hqi) as [Hnil Hcons].
  split; [done|]. intros Hr.
  destruct (Hcons Hr) as (r & path & m & e & rest & -> & Hm & Hq & Hmax & Hpl).
  set (m1 := set_entries (delete (key e) (_data m)) rest m) in *.
  exists r, path, m, e, rest, (graft path (clean_outcome m1) r).
  split_and!; [done | done | done | done | | done |].
  - rewrite Hq. intros Hsorted e' He'. by eapply lru_sorted_head.
  - destruct (graft_entries path r m Hm) as (l1 & l2 & Hr1 & Hg).
    exists l1, (tree_entries m1 ++ l2). split.
    + simpl. rewrite Hr1. f_equal.
      assert (tree_entries m = e :: tree_entries m1) as ->; [|done].
      subst m1. destruct m. simpl in *. by rewrite Hq.
    + by rewrite Hg, clean_outcome_entries.
Qed.

End PruneLowestPriority.

(** ** [Cache.evict] *)

Lemma robust_queue_indexed : robust queue_indexed.
Proof. split; [by intros n [] o | done]. Qed.

Lemma tree_sweep (c : Cache) : _tree (sweep c) = _tree c.
Proof. done. Qed.

Section EvictProperties.

Variable iteration : Node -> list QuadrantIndex -> list QuadrantIndex.
Hypothesis iteration_perm : forall n l, iteration n l ≡ₚ l.

(** The priority step of [evict] on the tree that [prune_expired] left: on a
    tree without entries it raises [EmptyTree]; otherwise it returns the key
    of an entry, and that entry alone leaves the tree. *)
Lemma prune_lowest_priority_removes (root : option Node) :
  opt_nodes well_placed root = true ->
  opt_nodes (forall_nodes queue_indexed) root = true ->
  (root_entries root = [] ->
   Quadtree_prune_lowest_priority iteration root = Raise EmptyTree)
  /\ (root_entries root <> [] ->
      exists e root' l1 l2,
        Quadtree_prune_lowest_priority iteration root = Ok (key e, root')
        /\ root_entries root = l1 ++ e :: l2 /\ root_entries root' = l1 ++ l2).
Proof.
  intros Hwp Hqi.
  destruct (prune_lowest_priority_picks iteration iteration_perm root Hwp Hqi)
    as [Hnil Hcons].
  split; [done|]. intros Hr.
  destruct (Hcons Hr) as (r & path & m & e & rest & -> & Hm & Hq & _ & Hpl).
  set (m1 := set_entries (delete (key e) (_data m)) rest m) in *.
  destruct (graft_entries path r m Hm) as (l1 & l2 & Hr1 & Hg).
  exists e, (graft path (clean_outcome m1) r), l1, (tree_entries m1 ++ l2).
  split_and!; [done | |].
  - simpl. rewrite Hr1. f_equal.
    assert (tree_entries m = e :: tree_entries m1) as ->; [|done].
    subst m1. destruct m. simpl in *. by rewrite Hq.
  - by rewrite Hg, clean_outcome_entries.
Qed.

Lemma set_key_nodes_id (c : Cache) : set_key_nodes (_key_nodes c) c = c.
Proof. by destruct c. Qed.

(** Where [prune_expired] deletes no node with children from an expired
    node, it leaves no node in memory off the tree. *)
Lemma leaves_cycle_kept_by_child (now : Z) (n : Node) :
  leaves_cycle now n = false -> kept_by_child now n = false.
Proof.
  induction n as [n IH] using Node_tree_ind.
  assert (Hv : forall q c,
            quadrants n q = Some c -> leaves_cycle now c = false ->
            leaves_tree now c && kept_by_child now c = false).
  { intros q c Hq Hc. by rewrite (IH q c Hq Hc), andb_false_r. }
  destruct n as [e p q1 q2 q3 q4 d l]. simpl in *.
  destruct (expired _ now).
  - intros [[[H1 H2]%orb_false_iff H3]%orb_false_iff H4]%orb_false_iff.
    rewrite H1, H2. simpl.
    destruct q3 as [c3|], q4 as [c4|]; simpl;
      rewrite ?(Hv THREE _ eq_refl H3), ?(Hv FOUR _ eq_refl H4); done.
  - intros [H1 H2]%orb_false_iff.
    destruct q1 as [c1|], q2 as [c2|]; simpl;
      rewrite ?(Hv ONE _ eq_refl H1), ?(Hv TWO _ eq_refl H2); done.
Qed.

Lemma leaves_cycle_detached_points (now : Z) (n : Node) :
  leaves_cycle now n = false -> detached_points now n = [].
Proof.
  induction n as [n IH] using Node_tree_ind. intros Hn.
  pose proof (leaves_cycle_kept_by_child now n Hn) as Hk.
  destruct n as [e p q1 q2 q3 q4 d l]. simpl in *.
  rewrite Hk, andb_false_r. simpl.
  destruct (expired _ now).
  - apply orb_false_iff in Hn as [[[H1 H2]%orb_false_iff H3]%orb_false_iff H4].
    destruct q1 as [c1|], q2 as [c2|], q3 as [c3|], q4 as [c4|]; simpl in *;
      rewrite ?(proj1 (negb_false_iff _) H1), ?(proj1 (negb_false_iff _) H2),
        ?(IH THREE _ eq_refl H3), ?(IH FOUR _ eq_refl H4); done.
  - apply orb_false_iff in Hn as [H1 H2].
    destruct q1 as [c1|], q2 as [c2|]; simpl;
      rewrite ?(IH ONE _ eq_refl H1), ?(IH TWO _ eq_refl H2); done.
Qed.

Lemma leaves_cycle_held_points (now : Z) (n : Node) :
  leaves_cycle now n = false -> held_points now n = [].
Proof.
  induction n as [n IH] using Node_tree_ind. intros Hn.
  pose proof (leaves_cycle_kept_by_child now n Hn) as Hk.
  destruct n as [e p q1 q2 q3 q4 d l]. simpl in *.
  rewrite Hk. simpl.
  destruct (expired _ now).
  - apply orb_false_iff in Hn as [[_ H3]%orb_false_iff H4].
    destruct q3 as [c3|], q4 as [c4|]; simpl;
      rewrite ?(IH THREE _ eq_refl H3), ?(IH FOUR _ eq_refl H4); done.
  - apply orb_false_iff in Hn as [H1 H2].
    destruct q1 as [c1|], q2 as [c2|]; simpl;
      rewrite ?(IH ONE _ eq_refl H1), ?(IH TWO _ eq_refl H2); done.
Qed.

Lemma detached_refs_nil (c : Cache) : detached_refs [] c = mkDetached ∅ ∅.
Proof.
  unfold detached_refs. f_equal.
  - apply set_eq. intros pt. rewrite elem_of_filter, elem_of_nil, elem_of_empty. tauto.
  - apply map_eq. intros k. rewrite lookup_empty.
    apply map_lookup_filter_None. right. intros pt _ Hin.
    exact (proj1 (elem_of_nil _) Hin).
Qed.

Lemma filter_none {A : Type} (P : A -> Prop) `{forall x, Decision (P x)} (l : list A) :
  (forall x, ~ P x) -> filter P l = [].
Proof.
  intros HP. induction l as [|x l IHl]; [done|].
  rewrite filter_cons_False; [done|]. apply HP.
Qed.

(** [evict] on a cache without a cycle to leave is [Cache_evict]. *)
Lemma Cache_evict_no_cycle (now : Z) (c c' : Cache) (d : Detached) :
  Quadtree_leaves_cycle now (_tree c) = false ->
  Cache_evict_full iteration now c = Ok (c', d) ->
  d = mkDetached ∅ ∅ /\ Cache_evict iteration now c = Ok c'.
Proof.
  intros Hcycle Hfull. split.
  - assert (Hgone : Quadtree_detached_points now (_tree c) = []).
    { destruct (_tree c) as [r|]; [|done]. by apply leaves_cycle_detached_points. }
    assert (Hheld : Quadtree_held_points now (_tree c) = []).
    { destruct (_tree c) as [r|]; [|done]. by apply leaves_cycle_held_points. }
    unfold Cache_evict_full in Hfull. rewrite Hgone, Hheld in Hfull.
    destruct (Quadtree_prune_expired now (_tree c)) as [[r root1]|]; [|done].
    cbn [mbind result_bind] in Hfull. destruct r.
    { injection Hfull as _ <-. apply detached_refs_nil. }
    destruct (Quadtree_prune_lowest_priority _ _) as [[k root2]|[]];
      try discriminate Hfull.
    + injection Hfull as _ <-.
      rewrite filter_none by (intros pt [Hx _]; exact (proj1 (elem_of_nil _) Hx)).
      simpl. rewrite detached_refs_nil. unfold forget_key. simpl.
      by rewrite delete_empty.
    + injection Hfull as _ <-. apply detached_refs_nil.
  - unfold Cache_evict. rewrite Hfull. cbn [mbind result_bind]. by rewrite Hcycle.
Qed.

Lemma Cache_evict_Ok (now : Z) (c c' : Cache) :
  Cache_evict iteration now c = Ok c' ->
  Quadtree_leaves_cycle now (_tree c) = false
  /\ exists d, Cache_evict_full iteration now c = Ok (c', d).
Proof.
  unfold Cache_evict.
  destruct (Cache_evict_full iteration now c) as [[c1 d]|]; [|done].
  cbn [mbind result_bind].
  destruct (Quadtree_leaves_cycle now (_tree c)); [done|].
  intros [= <-]. split; [done|]. by exists d.
Qed.

(** C4: [evict] on a cache whose tree satisfies the placement invariant and
    whose queues are indexed by the data maps. It returns: a state [c'] of
    the cache, as far as the tree and the references into it go, with the
    references [d] that the indices keep to nodes left in memory off the
    tree.

    It first runs [prune_expired] with the clock reading, which returns a
    flag [r] and leaves the tree [root1]. When [r] is true, [c'] has the
    tree [root1], the dead references swept, and no priority step is taken.
    When [r] is false and [root1] holds no entry, [prune_lowest_priority]
    raises [EmptyTree], which is swallowed, and [c'] is again that state.
    When [r] is false and [root1] holds an entry, [prune_lowest_priority]
    returns the key of an entry [e], and [e] alone leaves the tree; [c'] has
    the tree [root2] that this leaves and its key is in neither key index;
    if the reference of the key had died with its node, so that the key is
    absent already, the [KeyError] of the deletion is swallowed and nothing
    more is changed ([d2] stands for the references off the tree before
    the deletion).

    Where [prune_expired] deletes no node with children from an expired
    node, [d] is empty and [c'] is the whole state, which [Cache_evict]
    returns. *)
Theorem Cache_evict_spec (now : Z) (c : Cache) :
  opt_nodes well_placed (_tree c) = true ->
  opt_nodes (forall_nodes queue_indexed) (_tree c) = true ->
  exists r root1 c' d,
    Quadtree_prune_expired now (_tree c) = Ok (r, root1)
    /\ Cache_evict_full iteration now c = Ok (c', d)
    /\ (let gone := Quadtree_detached_points now (_tree c) in
        (r = true -> c' = sweep (set_tree root1 c) /\ d = detached_refs gone c)
        /\ (r = false -> root_entries root1 = [] ->
            Quadtree_prune_lowest_priority iteration root1 = Raise EmptyTree
            /\ c' = sweep (set_tree root1 c) /\ d = detached_refs gone c))
    /\ (r = false -> root_entries root1 <> [] ->
        exists e root2 l1 l2 d2,
          Quadtree_prune_lowest_priority iteration root1 = Ok (key e, root2)
          /\ root_entries root1 = l1 ++ e :: l2 /\ root_entries root2 = l1 ++ l2
          /\ let c2 := sweep (set_tree root2 (sweep (set_tree root1 c))) in
             c' = set_key_nodes (delete (key e) (_key_nodes c2)) c2
             /\ d = forget_key (key e) d2
             /\ _tree c' = root2
             /\ _key_nodes c' !! key e = None
             /\ detached_key_nodes d !! key e = None
             /\ (_key_nodes c2 !! key e = None -> c' = c2)
             /\ (detached_key_nodes d2 !! key e = None -> d = d2))
    /\ (Quadtree_leaves_cycle now (_tree c) = false ->
        d = mkDetached ∅ ∅ /\ Cache_evict iteration now c = Ok c')
    /\ (Quadtree_leaves_cycle now (_tree c) = true ->
        Cache_evict iteration now c = Raise OutsideModel).
Proof.
  intros Hwp Hqi.
  destruct (Quadtree_prune_expired_spec now (_tree c) Hwp)
    as (r & root1 & Hpe & HX & Hwp1 & _).
  pose proof (HX _ robust_queue_indexed Hqi) as Hqi1.
  destruct (prune_lowest_priority_removes root1 Hwp1 Hqi1) as [Hnil Hcons].
  assert (Hfull : exists c' d,
            Cache_evict_full iteration now c = Ok (c', d)
            /\ (let gone := Quadtree_detached_points now (_tree c) in
                (r = true -> c' = sweep (set_tree root1 c) /\ d = detached_refs gone c)
                /\ (r = false -> root_entries root1 = [] ->
                    Quadtree_prune_lowest_priority iteration root1 = Raise EmptyTree
                    /\ c' = sweep (set_tree root1 c) /\ d = detached_refs gone c))
            /\ (r = false -> root_entries root1 <> [] ->
                exists e root2 l1 l2 d2,
                  Quadtree_prune_lowest_priority iteration root1 = Ok (key e, root2)
                  /\ root_entries root1 = l1 ++ e :: l2 /\ root_entries root2 = l1 ++ l2
                  /\ let c2 := sweep (set_tree root2 (sweep (set_tree root1 c))) in
                     c' = set_key_nodes (delete (key e) (_key_nodes c2)) c2
                     /\ d = forget_key (key e) d2
                     /\ _tree c' = root2
                     /\ _key_nodes c' !! key e = None
                     /\ detached_key_nodes d !! key e = None
                     /\ (_key_nodes c2 !! key e = None -> c' = c2)
                     /\ (detached_key_nodes d2 !! key e = None -> d = d2))).
  { unfold Cache_evict_full. rewrite Hpe. cbn [mbind result_bind]. cbn zeta.
    destruct r.
    { eexists _, _. split; [done|]. split; [by split|]. by intros ?. }
    rewrite tree_sweep. simpl _tree.
    destruct (root_entries root1) as [|x l] eqn:Hre.
    - rewrite (Hnil eq_refl). eexists _, _. split; [done|]. split; [by split|].
      by intros _ ?.
    - destruct Hcons as (e & root2 & l1 & l2 & Hpl & Hl1 & Hl2); [done|].
      rewrite Hpl. eexists _, _. split; [done|]. split.
      { split; [done|]. by intros _ ?. }
      intros _ _. eexists e, root2, l1, l2, _.
      split_and!; [done | done | done | done | done | done | | | |].
      + simpl. apply lookup_delete_eq.
      + simpl. apply lookup_delete_eq.
      + intros Hk. rewrite delete_id by done. apply set_key_nodes_id.
      + intros Hk. unfold forget_key. rewrite delete_id by done.
        by destruct (detached_refs _ _). }
  destruct Hfull as (c' & d & Hfull & Hcases & Hprio).
  exists r, root1, c', d. split_and!; [done | done | done | done | |].
  - intros Hcycle. by apply Cache_evict_no_cycle.
  - intros Hcycle. unfold Cache_evict. rewrite Hfull. cbn [mbind result_bind].
    by rewrite Hcycle.
Qed.

End EvictProperties.

(** ** Calls that make no call on the parent *)

Lemma settle_raise (q : QuadrantIndex) (c : Node) (call : ParentCall) (self : Node)
    (e : exn) :
  settle q c call self = Raise e -> e = OutsideModel.
Proof.
  unfold settle. destruct call as [| |gc]; [done | |].
  - case_decide as Hq; [|by intros [= <-]].
    unfold Node_delete. by rewrite Hq, quadrants_set_quadrant_eq.
  - case_decide; [done | by intros [= <-]].
Qed.

Lemma at_path_raise {A : Type} (path : list QuadrantIndex)
    (f : Node -> result (A * Node * ParentCall)) (n : Node) (e : exn) :
  at_path path f n = Raise e ->
  e = OutsideModel \/ exists m, node_at path n = Some m /\ f m = Raise e.
Proof.
  revert n. induction path as [|q path IH]; intros n; simpl.
  - intros Hf. right. by exists n.
  - destruct (quadrants n q) as [c|] eqn:Hq; simpl; [|intros [= <-]; by left].
    destruct (at_path path f c) as [[[a c'] call]|e'] eqn:Hc; simpl.
    + destruct (settle q c' call n) eqn:Hs; simpl; [done|].
      intros [= <-]. left. by eapply settle_raise.
    + intros [= <-]. by apply IH.
Qed.

Lemma at_path_nocall {A : Type} (path : list QuadrantIndex)
    (f : Node -> result (A * Node * ParentCall)) (n m m' : Node) (a : A) :
  node_at path n = Some m -> f m = Ok (a, m', NoCall) ->
  exists n',
    at_path path f n = Ok (a, n', NoCall)
    /\ graft path (Some m') n = Some n'.
Proof.
  revert n. induction path as [|q path IH]; intros n Hm Hf; simpl in *.
  - simplify_eq. by exists m'.
  - destruct (quadrants n q) as [c|] eqn:Hq; simpl in *; [|done].
    destruct (IH c Hm Hf) as (c' & -> & ->).
    cbn [mbind result_bind]. simpl. by eexists.
Qed.

Lemma Quadtree_at_nocall {A : Type} (path : list QuadrantIndex)
    (f : Node -> result (A * Node * ParentCall)) (n m m' : Node) (a : A) :
  node_at path n = Some m -> f m = Ok (a, m', NoCall) ->
  Quadtree_at path f (Some n) = Ok (a, graft path (Some m') n).
Proof.
  intros Hm Hf. unfold Quadtree_at.
  destruct (at_path_nocall path f n m m' a Hm Hf) as (n' & -> & ->). done.
Qed.

(** ** [Cache.__getitem__] *)

Lemma find_path_eq (pt : Point) (n : Node) :
  find_path pt n =
  if (expiry n =? pt.1) && (priority n =? pt.2) then Some []
  else
    let index := QuadrantIndex_of (pt.1 <=? expiry n, pt.2 <? priority n) in
    match quadrants n index with
    | Some c => cons index <$> find_path pt c
    | None => None
    end.
Proof. by destruct n. Qed.

(** Rewriting the entries of the node at the end of a path moves no node. *)
Lemma find_path_graft_entries (pt : Point) (path : list QuadrantIndex) (n m : Node)
    (d : gmap K Entry) (l : list Entry) :
  node_at path n = Some m ->
  exists n',
    graft path (Some (set_entries d l m)) n = Some n'
    /\ expiry n' = expiry n /\ priority n' = priority n
    /\ find_path pt n' = find_path pt n.
Proof.
  revert n. induction path as [|q path IH]; intros n Hm; simpl in *.
  - simplify_eq. exists (set_entries d l m). split_and!; try done.
    rewrite !(find_path_eq pt). simpl.
    by destruct m.
  - destruct (quadrants n q) as [c|] eqn:Hq; simpl in *; [|done].
    destruct (IH c Hm) as (c' & -> & He & Hp & Hf).
    eexists. split; [done|].
    destruct (set_quadrant_point q (Some c') n) as [He' Hp'].
    split_and!; [done | done |].
    rewrite (find_path_eq pt (set_quadrant _ _ _)), (find_path_eq pt n), He', Hp'.
    destruct (_ && _); [done|]. cbn zeta.
    rewrite quadrants_set_quadrant. case_decide as Hi; [|done].
    subst q. by rewrite Hq, Hf.
Qed.

Lemma add_entry_set_entries (k : K) (v : V) (now : Z) (id : nat)
    (d : gmap K Entry) (l : list Entry) (m : Node) :
  add_entry k v now id (set_entries d l m) =
  set_entries (<[k := mkEntry id now k v]> d) (l ++ [mkEntry id now k v]) m.
Proof. done. Qed.

Lemma remove_entry_raise (k : K) (n : Node) (e : exn) :
  remove_entry k n = Raise e -> e = KeyError \/ e = LruMissing.
Proof.
  unfold remove_entry. destruct (_data n !! k); [|intros [= <-]; by left].
  destruct (identity_scan _ _ _); [done | intros [= <-]; by right].
Qed.

Lemma access_entry_raise (k : K) (now : Z) (id : nat) (n : Node) (e : exn) :
  access_entry k now id n = Raise e -> e = KeyError \/ e = LruMissing.
Proof.
  unfold access_entry, delete_entry. destruct (_data n !! k); [|intros [= <-]; by left].
  destruct (remove_entry k n) eqn:Hr; simpl; [done|].
  intros [= <-]. by eapply remove_entry_raise.
Qed.

Lemma key_node_inv (c : Cache) (k : K) (path : list QuadrantIndex) (node : Node) :
  key_node c k = Some (path, node) ->
  exists pt r,
    _key_nodes c !! k = Some pt /\ _tree c = Some r
    /\ find_path pt r = Some path /\ node_at path r = Some node.
Proof.
  unfold key_node, deref. intros Hk.
  destruct (_key_nodes c !! k) as [pt|]; simpl in Hk; [|done].
  destruct (_tree c) as [r|]; simpl in Hk; [|done].
  destruct (find_path pt r) as [path'|] eqn:Hf; simpl in Hk; [|done].
  destruct (node_at path' r) as [n'|] eqn:Hn; simpl in Hk; [|done].
  simplify_eq. by exists pt, r.
Qed.

Lemma Cache_getitem_raise (k : K) (now : Z) (c : Cache) (e : exn) :
  Cache_getitem k now c = Raise e ->
  (e = KeyDoesNotExist /\ key_node c k = None)
  \/ (e = KeyExpired /\ exists path node,
        key_node c k = Some (path, node) /\ expiry node < now)
  \/ e = OutsideModel \/ e = KeyError \/ e = LruMissing.
Proof.
  unfold Cache_getitem.
  destruct (key_node c k) as [[path node]|] eqn:Hk; [|intros [= <-]; by left].
  destruct (expired node now) eqn:Hexp.
  { intros [= <-]. right. left. split; [done|]. exists path, node.
    split; [done|]. by apply Z.ltb_lt. }
  destruct (key_node_inv c k path node Hk) as (pt & r & _ & -> & _ & _).
  unfold Quadtree_at.
  destruct (at_path path _ r) as [[[v r'] call]|e'] eqn:Hat; simpl; [done|].
  intros [= <-]. right. right.
  apply at_path_raise in Hat as [->|(m & _ & Hf)]; [by left|]. right.
  destruct (access_entry k now (next_eid c) m) as [[v n']|e''] eqn:Ha; simpl in Hf; [done|].
  simplify_eq. by eapply access_entry_raise.
Qed.

(** C8: [get] fails with [KeyDoesNotExist] exactly when the key index has no
    live reference for the key, and with [KeyExpired] exactly when it has
    one to a node whose expiry is before the clock reading. Otherwise, the
    node being consistent and holding the entry [e] of the key, [get]
    returns the value of [e]; in the node, [e] is gone from its position [i]
    of the queue and a new entry with the clock reading as [last_used] is at
    the tail. *)
Theorem Cache_getitem_spec (k : K) (now : Z) (c : Cache) :
  (Cache_getitem k now c = Raise KeyDoesNotExist <-> key_node c k = None)
  /\ (Cache_getitem k now c = Raise KeyExpired <->
      exists path node, key_node c k = Some (path, node) /\ expiry node < now)
  /\ (forall path node e,
        key_node c k = Some (path, node) -> ~ expiry node < now ->
        lru_consistent node -> _data node !! k = Some e ->
        exists i c',
          _lru_queue node !! i = Some e
          /\ Cache_getitem k now c = Ok (value e, c')
          /\ let entry := mkEntry (next_eid c) now k (value e) in
             key_node c' k =
             Some (path,
                   set_entries (<[k := entry]> (delete k (_data node)))
                     (delete i (_lru_queue node) ++ [entry]) node)).
Proof.
  split_and!.
  - split.
    + intros Hr. apply Cache_getitem_raise in Hr as [[_ ?]|[[? _]|[?|[?|?]]]]; done.
    + intros Hk. unfold Cache_getitem. by rewrite Hk.
  - split.
    + intros Hr. apply Cache_getitem_raise in Hr as [[? _]|[[_ ?]|[?|[?|?]]]]; done.
    + intros (path & node & Hk & Hexp). unfold Cache_getitem. rewrite Hk.
      unfold expired. by rewrite (proj2 (Z.ltb_lt _ _) Hexp).
  - intros path node e Hk Hexp Hcons He.
    destruct (remove_entry_consistent node k e Hcons He) as (i & Hi & Hrem).
    destruct (key_node_inv c k path node Hk) as (pt & r & Hpt & Hr & Hfind & Hnode).
    set (entry := mkEntry (next_eid c) now k (value e)).
    set (node' := set_entries (<[k := entry]> (delete k (_data node)))
                    (delete i (_lru_queue node) ++ [entry]) node).
    assert (Hacc : access_entry k now (next_eid c) node = Ok (value e, node')).
    { unfold access_entry, delete_entry. rewrite He, Hrem. simpl.
      by rewrite add_entry_set_entries. }
    exists i, (bump_eid (set_tree (graft path (Some node') r) c)).
    split; [done|]. split.
    + unfold Cache_getitem. rewrite Hk.
      assert (expired node now = false) as -> by (by apply Z.ltb_ge; lia).
      rewrite Hr.
      rewrite (Quadtree_at_nocall path _ r node node' (value e) Hnode); [done|].
      by rewrite Hacc.
    + cbn zeta. unfold key_node. simpl. rewrite Hpt. simpl.
      destruct (find_path_graft_entries pt path r node
                  (<[k := entry]> (delete k (_data node)))
                  (delete i (_lru_queue node) ++ [entry]) Hnode)
        as (r' & Hg & _ & _ & Hf).
      fold node' in Hg. unfold deref. rewrite Hg. simpl. rewrite Hf, Hfind. simpl.
      pose proof (node_at_graft path r node node' Hnode) as Hn'.
      rewrite Hg in Hn'. simpl in Hn'. by rewrite Hn'.
Qed.

(** ** The quadrant invariant *)

Lemma children_placed_mk (e p : Z) (q1 q2 q3 q4 : option Node)
    (d : gmap K Entry) (l : list Entry) :
  let n := mkNode e p q1 q2 q3 q4 d l in
  children_placed n = true <->
  opt_nodes (in_quadrant n ONE) q1 = true
  /\ opt_nodes (in_quadrant n TWO) q2 = true
  /\ opt_nodes (in_quadrant n THREE) q3 = true
  /\ opt_nodes (in_quadrant n FOUR) q4 = true.
Proof.
  unfold children_placed.
  cbn [forallb all_quads quadrants quad_one quad_two quad_three quad_four].
  rewrite !andb_true_iff. tauto.
Qed.

Lemma well_placed_quadrant_invariant (n : Node) :
  well_placed n = true -> quadrant_invariant n = true.
Proof.
  apply forall_nodes_impl. intros m Hm.
  destruct m as [e p q1 q2 q3 q4 d l].
  apply subtrees_placed_mk in Hm as (H1' & H2' & H3' & H4').
  apply children_placed_mk.
  split_and!; [destruct q1 | destruct q2 | destruct q3 | destruct q4]; try done;
    by eapply forall_nodes_here.
Qed.

Lemma children_placed_set_quadrant (q : QuadrantIndex) (o : option Node) (n : Node) :
  children_placed n = true -> opt_nodes (in_quadrant n q) o = true ->
  children_placed (set_quadrant q o n) = true.
Proof.
  destruct n as [e p q1 q2 q3 q4 d l].
  intros (H1' & H2' & H3' & H4')%children_placed_mk Ho.
  destruct q; apply children_placed_mk; by split_and!.
Qed.

Lemma quadrant_invariant_set_quadrant (q : QuadrantIndex) (o : option Node) (n : Node) :
  quadrant_invariant n = true -> opt_nodes quadrant_invariant o = true ->
  opt_nodes (in_quadrant n q) o = true ->
  quadrant_invariant (set_quadrant q o n) = true.
Proof.
  intros Hn Ho Hq. apply forall_nodes_intro.
  - apply children_placed_set_quadrant; [|done]. by eapply forall_nodes_here.
  - intros q' c. rewrite quadrants_set_quadrant. case_decide.
    + intros ->. done.
    + by apply forall_nodes_child.
Qed.

Lemma children_placed_slot (n c : Node) (q : QuadrantIndex) :
  children_placed n = true -> quadrants n q = Some c -> quadrant_index n c = q.
Proof.
  unfold children_placed. rewrite forallb_forall. intros Hn Hq.
  specialize (Hn q). rewrite Hq in Hn. simpl in Hn.
  unfold in_quadrant in Hn. eapply bool_decide_eq_true_1.
  apply Hn. destruct q; tauto.
Qed.

Lemma settle_ok_inv (q : QuadrantIndex) (c : Node) (call : ParentCall) (self self' : Node) :
  settle q c call self = Ok self' -> quadrant_index self c = q ->
  self' = set_quadrant q (settle_root c call) self
  /\ opt_nodes (in_quadrant self q) (settle_root c call) = true.
Proof.
  intros Hs Hc.
  assert (Hgc : forall gc, call = CallReplace gc -> quadrant_index self gc = q).
  { intros gc ->. unfold settle in Hs. case_decide as Hq; [|done].
    destruct (set_quadrant_point q (Some c) self) as [He Hp].
    by rewrite (quadrant_index_point self _ gc gc He Hp eq_refl eq_refl) in Hq. }
  rewrite settle_same_slot in Hs by done. simplify_eq. split; [done|].
  destruct call as [| |gc]; simpl; [| done |].
  - by apply bool_decide_eq_true.
  - apply bool_decide_eq_true. by apply Hgc.
Qed.

Lemma at_path_preserves_quadrant_invariant {A : Type} (path : list QuadrantIndex)
    (f : Node -> result (A * Node * ParentCall)) :
  preserves quadrant_invariant f -> preserves quadrant_invariant (at_path path f).
Proof.
  intros Hf. induction path as [|q path IH]; intros n a n' call Hn Hat; simpl in Hat.
  - by eapply Hf.
  - destruct (quadrants n q) as [c|] eqn:Hq; simpl in Hat; [|done].
    destruct (at_path path f c) as [[[a' c'] callc]|] eqn:Hc; simpl in Hat; [|done].
    destruct (settle q c' callc n) as [self|] eqn:Hs; simpl in Hat; [|done].
    simplify_eq.
    destruct (IH c a c' callc (forall_nodes_child _ _ _ _ Hn Hq) Hc) as (He & Hp & Ho).
    apply settle_ok_inv in Hs as [-> Hin].
    + destruct (set_quadrant_point q (settle_root c' callc) n) as [-> ->].
      split_and!; [done | done |]. simpl.
      by apply quadrant_invariant_set_quadrant.
    + rewrite (quadrant_index_point n n c c') by done.
      eapply children_placed_slot; [|done]. by eapply forall_nodes_here.
Qed.

Lemma set_entries_point (d : gmap K Entry) (l : list Entry) (m : Node) :
  expiry (set_entries d l m) = expiry m /\ priority (set_entries d l m) = priority m.
Proof. done. Qed.

Lemma quadrant_invariant_set_entries (d : gmap K Entry) (l : list Entry) (m : Node) :
  quadrant_invariant (set_entries d l m) = quadrant_invariant m.
Proof. by destruct m. Qed.

Lemma well_placed_set_entries (d : gmap K Entry) (l : list Entry) (m : Node) :
  well_placed (set_entries d l m) = well_placed m.
Proof. by destruct m. Qed.

Lemma entry_op_preserves_quadrant_invariant {A : Type}
    (f : Node -> result (A * Node * ParentCall)) :
  entry_op f -> preserves quadrant_invariant f.
Proof.
  intros Hf m a m' call Hm Hfm.
  destruct (Hf m a m' call Hfm) as (d & l & [Heq|Heq]).
  - assert (m' = (clean (set_entries d l m)).1) as -> by by rewrite <- Heq.
    assert (call = (clean (set_entries d l m)).2) as -> by by rewrite <- Heq.
    destruct (clean_point (set_entries d l m)) as [-> ->].
    split_and!; [done | done |].
    apply (clean_outcome_nodes children_placed).
    fold (quadrant_invariant (set_entries d l m)).
    by rewrite quadrant_invariant_set_entries.
  - simplify_eq. split_and!; [done | done |]. simpl.
    by rewrite quadrant_invariant_set_entries.
Qed.

Lemma remove_entry_ok (k : K) (n n' : Node) :
  remove_entry k n = Ok n' -> exists d l, n' = set_entries d l n.
Proof.
  unfold remove_entry. destruct (_data n !! k); [|done].
  destruct (identity_scan _ _ _); [|done]. intros [= <-]. by eexists _, _.
Qed.

Lemma entry_op_delete_entry (k : K) :
  entry_op (fun n : Node => '(n', call) ← delete_entry k true n; Ok (tt, n', call)).
Proof.
  intros m a m' call. unfold delete_entry.
  destruct (remove_entry k m) as [m1|] eqn:Hr; simpl; [|done].
  apply remove_entry_ok in Hr as (d & l & ->).
  destruct (clean _) as [m2 call2] eqn:Hc. intros [= <- <- <-].
  exists d, l. left. by rewrite Hc.
Qed.

Lemma entry_op_pop_lru : entry_op pop_lru.
Proof.
  intros m a m' call. unfold pop_lru.
  destruct (_lru_queue m) as [|e rest]; [done|].
  destruct (_data m !! key e); [|done].
  destruct (clean _) as [m2 call2] eqn:Hc. intros [= <- <- <-].
  eexists _, _. left. by rewrite Hc.
Qed.

Lemma entry_op_access_entry (k : K) (now : Z) (id : nat) :
  entry_op (fun n : Node => '(v, n') ← access_entry k now id n; Ok (v, n', NoCall)).
Proof.
  intros m a m' call. unfold access_entry, delete_entry.
  destruct (_data m !! k); [|done].
  destruct (remove_entry k m) as [m1|] eqn:Hr; simpl; [|done].
  apply remove_entry_ok in Hr as (d & l & ->). intros [= <- <- <-].
  eexists _, _. right. by rewrite add_entry_set_entries.
Qed.

Lemma entry_op_add_entry (k : K) (v : V) (now : Z) (id : nat) :
  entry_op (fun n => Ok (tt, add_entry k v now id n, NoCall)).
Proof.
  intros m a m' call [= <- <- <-]. eexists _, _. right. done.
Qed.

Lemma Quadtree_at_quadrant_invariant {A : Type} (path : list QuadrantIndex)
    (f : Node -> result (A * Node * ParentCall)) (root root' : option Node) (a : A) :
  entry_op f -> opt_nodes quadrant_invariant root = true ->
  Quadtree_at path f root = Ok (a, root') ->
  opt_nodes quadrant_invariant root' = true.
Proof.
  intros Hf Hroot. unfold Quadtree_at. destruct root as [r|]; [|done].
  destruct (at_path path f r) as [[[a' r'] call]|] eqn:Hat; simpl; [|done].
  intros [= <- <-].
  by eapply (at_path_preserves_quadrant_invariant path f
               (entry_op_preserves_quadrant_invariant f Hf) r).
Qed.

Lemma Node_insert_eq (p e : Z) (n : Node) :
  Node_insert p e n =
  let index := QuadrantIndex_of (e <=? expiry n, p <? priority n) in
  match quadrants n index with
  | Some c =>
      let '(c', path) := Node_insert p e c in
      (set_quadrant index (Some c') n, index :: path)
  | None => (set_quadrant index (Some (new_node e p)) n, [index])
  end.
Proof. by destruct n. Qed.

Lemma Node_insert_point (p e : Z) (n : Node) :
  expiry (Node_insert p e n).1 = expiry n /\ priority (Node_insert p e n).1 = priority n.
Proof.
  rewrite Node_insert_eq. cbn zeta.
  destruct (quadrants n _) as [c|]; [destruct (Node_insert p e c)|];
    apply set_quadrant_point.
Qed.

Lemma Node_insert_quadrant_invariant (p e : Z) (n : Node) :
  quadrant_invariant n = true -> quadrant_invariant (Node_insert p e n).1 = true.
Proof.
  induction n as [n IH] using Node_tree_ind. intros Hn.
  rewrite Node_insert_eq. cbn zeta.
  destruct (quadrants n _) as [c|] eqn:Hq.
  - pose proof (IH _ c Hq (forall_nodes_child _ _ _ _ Hn Hq)) as Hc.
    destruct (Node_insert_point p e c) as [He Hp].
    destruct (Node_insert p e c) as [c' path]. simpl in *.
    apply quadrant_invariant_set_quadrant; [done | done |]. simpl.
    apply bool_decide_eq_true.
    rewrite (quadrant_index_point n n c c') by done.
    eapply children_placed_slot; [|done]. by eapply forall_nodes_here.
  - simpl. apply quadrant_invariant_set_quadrant; [done | done |]. simpl.
    by apply bool_decide_eq_true.
Qed.

Lemma visit_child_quadrant_invariant (now : Z) (n : Node) (q : QuadrantIndex)
    (b b' : bool) (self self' : Node) :
  (forall c, quadrants n q = Some c ->
     forall r c' call, Node_prune_expired now c = Ok (r, c', call) ->
       expiry c' = expiry c /\ priority c' = priority c
       /\ opt_nodes quadrant_invariant (settle_root c' call) = true) ->
  children_placed n = true ->
  expiry self = expiry n -> priority self = priority n ->
  quadrant_invariant self = true ->
  visit_child now n q (b, self) = Ok (b', self') ->
  quadrant_invariant self' = true
  /\ expiry self' = expiry n /\ priority self' = priority n.
Proof.
  intros IH Hn He Hp Hself. unfold visit_child.
  destruct (quadrants n q) as [c|] eqn:Hq; [|by intros [= <- <-]].
  destruct (Node_prune_expired now c) as [[[r c'] call]|] eqn:Hc; simpl; [|done].
  destruct (settle q c' call self) as [s|] eqn:Hs; simpl; [|done].
  intros [= <- <-].
  destruct (IH c eq_refl r c' call Hc) as (Hce & Hcp & Ho).
  apply settle_ok_inv in Hs as [-> Hin].
  - destruct (set_quadrant_point q (settle_root c' call) self) as [-> ->].
    split_and!; [|done | done]. by apply quadrant_invariant_set_quadrant.
  - rewrite (quadrant_index_point n self c c') by done.
    by eapply children_placed_slot.
Qed.

Lemma Node_prune_expired_quadrant_invariant (now : Z) (n : Node) (r : bool)
    (n' : Node) (call : ParentCall) :
  quadrant_invariant n = true ->
  Node_prune_expired now n = Ok (r, n', call) ->
  expiry n' = expiry n /\ priority n' = priority n
  /\ opt_nodes quadrant_invariant (settle_root n' call) = true.
Proof.
  revert r n' call. induction n as [n IH] using Node_tree_ind.
  intros r n' call Hn. rewrite Node_prune_expired_eq.
  pose proof (forall_nodes_here _ _ Hn) as Hcp.
  assert (IHc : forall q c, quadrants n q = Some c ->
            forall r c' call, Node_prune_expired now c = Ok (r, c', call) ->
              expiry c' = expiry c /\ priority c' = priority c
              /\ opt_nodes quadrant_invariant (settle_root c' call) = true).
  { intros q c Hq r0 c' call0. apply (IH q c Hq).
    by eapply forall_nodes_child. }
  clear IH.
  assert (Hfinish : forall b self,
            quadrant_invariant self = true ->
            expiry self = expiry n -> priority self = priority n ->
            (let '(self, call) := clean self in Ok (b, self, call))
            = (Ok (r, n', call) : result (bool * Node * ParentCall)) ->
            expiry n' = expiry n /\ priority n' = priority n
            /\ opt_nodes quadrant_invariant (settle_root n' call) = true).
  { intros b self Hs He Hp Hc.
    pose proof (clean_point self) as [He' Hp'].
    pose proof (clean_outcome_nodes children_placed self Hs) as Ho.
    unfold clean_outcome in Ho.
    destruct (clean self) as [s0 c0]. simpl in *. simplify_eq.
    split_and!; [congruence | congruence | done]. }
  destruct (expired n now); cbn zeta.
  - set (self0 := set_quadrant TWO None (set_quadrant ONE None n)).
    assert (Hs0 : quadrant_invariant self0 = true
                  /\ expiry self0 = expiry n /\ priority self0 = priority n).
    { subst self0. split; [|by destruct n].
      by repeat apply quadrant_invariant_set_quadrant. }
    destruct Hs0 as (Hs0 & He0 & Hp0).
    destruct (visit_child now n THREE (_, self0)) as [[b3 s3]|] eqn:H3; simpl; [|done].
    destruct (visit_child_quadrant_invariant now n THREE _ _ _ _ (IHc THREE)
                Hcp He0 Hp0 Hs0 H3) as (Hs3 & He3 & Hp3).
    destruct (visit_child now n FOUR (b3, s3)) as [[b4 s4]|] eqn:H4; simpl; [|done].
    destruct (visit_child_quadrant_invariant now n FOUR _ _ _ _ (IHc FOUR)
                Hcp He3 Hp3 Hs3 H4) as (Hs4 & He4 & Hp4).
    apply Hfinish; [|done | done].
    unfold clear_entries. by rewrite quadrant_invariant_set_entries.
  - destruct (visit_child now n ONE (false, n)) as [[b1 s1]|] eqn:H1'; simpl; [|done].
    destruct (visit_child_quadrant_invariant now n ONE _ _ _ _ (IHc ONE)
                Hcp eq_refl eq_refl Hn H1') as (Hs1 & He1 & Hp1).
    destruct (visit_child now n TWO (b1, s1)) as [[b2 s2]|] eqn:H2'; simpl; [|done].
    destruct (visit_child_quadrant_invariant now n TWO _ _ _ _ (IHc TWO)
                Hcp He1 Hp1 Hs1 H2') as (Hs2 & He2 & Hp2).
    by apply Hfinish.
Qed.

(** ** Steps of the tree keep the invariants *)

Lemma Quadtree_prune_lowest_priority_step
    (iteration : Node -> list QuadrantIndex -> list QuadrantIndex)
    (root root' : option Node) (k : K) :
  Quadtree_prune_lowest_priority iteration root = Ok (k, root') ->
  tree_step root root'.
Proof.
  unfold Quadtree_prune_lowest_priority. destruct root as [r|]; [|done].
  destruct (search _ _ _ _) as [lowest|]; simpl; [|done].
  destruct (empty lowest.2); [done|].
  intros Hat. eapply step_at; [apply entry_op_pop_lru | exact Hat].
Qed.

Lemma tree_step_quadrant_invariant (root root' : option Node) :
  tree_step root root' ->
  opt_nodes quadrant_invariant root = true ->
  opt_nodes quadrant_invariant root' = true.
Proof.
  intros [A path f a root1 Hf Hat | p e | now r root1 Hpe] Hroot.
  - by eapply Quadtree_at_quadrant_invariant.
  - destruct root as [n|]; simpl; [|done].
    pose proof (Node_insert_quadrant_invariant p e n Hroot).
    by destruct (Node_insert p e n).
  - destruct root as [n|]; simpl in Hpe; [|by simplify_eq].
    destruct (Node_prune_expired now n) as [[[r0 n'] call]|] eqn:Hn; simpl in Hpe; [|done].
    simplify_eq.
    by destruct (Node_prune_expired_quadrant_invariant now n _ _ _ Hroot Hn) as (_ & _ & ?).
Qed.

Lemma at_path_ok_inv {A : Type} (path : list QuadrantIndex)
    (f : Node -> result (A * Node * ParentCall)) (n n' : Node) (a : A)
    (call : ParentCall) :
  at_path path f n = Ok (a, n', call) ->
  exists m m' call0, node_at path n = Some m /\ f m = Ok (a, m', call0).
Proof.
  revert n n' call. induction path as [|q path IH]; intros n n' call; simpl.
  - intros Hf. by exists n, n', call.
  - destruct (quadrants n q) as [c|]; simpl; [|done].
    destruct (at_path path f c) as [[[a' c'] callc]|] eqn:Hc; simpl; [|done].
    destruct (settle q c' callc n); simpl; [|done].
    intros [= <- <- <-]. by eapply IH.
Qed.

Lemma entry_op_keeps_points {A : Type} (f : Node -> result (A * Node * ParentCall))
    (m m' : Node) (a : A) (call : ParentCall) :
  entry_op f -> f m = Ok (a, m', call) ->
  keeps_points m m' call
  /\ (well_placed m = true -> opt_nodes well_placed (settle_root m' call) = true).
Proof.
  intros Hf Hfm. destruct (Hf m a m' call Hfm) as (d & l & [Heq|Heq]).
  - assert (m' = (clean (set_entries d l m)).1) as -> by by rewrite <- Heq.
    assert (call = (clean (set_entries d l m)).2) as -> by by rewrite <- Heq.
    split.
    + apply keeps_points_clean; [done | done |]. intros q. apply quadrants_set_entries.
    + intros Hm. apply (clean_outcome_nodes subtrees_placed).
      fold (well_placed (set_entries d l m)). by rewrite well_placed_set_entries.
  - simplify_eq. split.
    + split_and!; [done | done |]. intros g Hg.
      change (forall_nodes (on_point g) (set_entries d l m) = true).
      apply forall_nodes_intro.
      * by apply forall_nodes_here in Hg.
      * intros q c. rewrite quadrants_set_entries. by apply forall_nodes_child.
    + intros Hm. change (well_placed (set_entries d l m) = true).
      by rewrite well_placed_set_entries.
Qed.

Lemma Quadtree_at_well_placed {A : Type} (path : list QuadrantIndex)
    (f : Node -> result (A * Node * ParentCall)) (root root' : option Node) (a : A) :
  entry_op f -> opt_nodes well_placed root = true ->
  Quadtree_at path f root = Ok (a, root') ->
  opt_nodes well_placed root' = true.
Proof.
  intros Hf Hroot. unfold Quadtree_at. destruct root as [r|]; [|done]. simpl in Hroot.
  destruct (at_path path f r) as [[[a' r'] call]|] eqn:Hat; simpl; [|done].
  intros [= <- <-].
  destruct (at_path_ok_inv path f r r' a' call Hat) as (m & m' & call0 & Hm & Hfm).
  destruct (entry_op_keeps_points f m m' a' call0 Hf Hfm) as [Hk Hw].
  destruct (at_path_graft path f r m m' a' call0 Hroot Hm Hfm Hk)
    as (n'' & call'' & Hat' & Hg & _).
  rewrite Hat in Hat'. simplify_eq. rewrite Hg.
  eapply graft_well_placed; [done | done | |].
  - apply Hw. by eapply forall_nodes_subtree.
  - by destruct Hk as (_ & _ & ?).
Qed.

Lemma forall_nodes_new_node (X : Node -> bool) (p e : Z) :
  X (new_node e p) = true ->
  opt_nodes (forall_nodes X) (Some (new_node e p)) = true.
Proof. intros HX. cbn [opt_nodes]. by rewrite forall_nodes_unfold, HX. Qed.

Lemma Node_insert_nodes (X : Node -> bool) (p e : Z) (n : Node) :
  quadrant_blind X -> forall_nodes X n = true -> X (new_node e p) = true ->
  forall_nodes X (Node_insert p e n).1 = true.
Proof.
  intros HX. induction n as [n IH] using Node_tree_ind. intros Hn Hnew.
  rewrite Node_insert_eq. cbn zeta.
  destruct (quadrants n _) as [c|] eqn:Hq.
  - pose proof (IH _ c Hq (forall_nodes_child _ _ _ _ Hn Hq) Hnew) as Hc.
    destruct (Node_insert p e c) as [c' path]. simpl in *.
    by apply forall_nodes_set_quadrant.
  - simpl. apply forall_nodes_set_quadrant; [done | done |].
    by apply forall_nodes_new_node.
Qed.

Lemma Node_insert_well_placed (p e : Z) (n : Node) :
  well_placed n = true -> well_placed (Node_insert p e n).1 = true.
Proof.
  induction n as [n IH] using Node_tree_ind. intros Hn.
  pose proof (forall_nodes_here _ _ Hn) as Hsp.
  assert (Hnew : in_quadrant n (QuadrantIndex_of (e <=? expiry n, p <? priority n))
                   (new_node e p) = true) by by apply bool_decide_eq_true.
  rewrite Node_insert_eq. cbn zeta.
  destruct (quadrants n _) as [c|] eqn:Hq.
  - pose proof (IH _ c Hq (forall_nodes_child _ _ _ _ Hn Hq)) as Hc.
    assert (Hblind : quadrant_blind
              (in_quadrant n (QuadrantIndex_of (e <=? expiry n, p <? priority n))))
      by (rewrite in_quadrant_on_point; apply quadrant_blind_on_point).
    pose proof (Node_insert_nodes _ p e c Hblind
                  (subtrees_placed_slot n c _ Hsp Hq) Hnew) as Hin.
    destruct (Node_insert p e c) as [c' path]. simpl in *.
    by apply well_placed_set_quadrant.
  - simpl. apply well_placed_set_quadrant; [done | done |].
    by apply forall_nodes_new_node.
Qed.

Lemma tree_step_well_placed (root root' : option Node) :
  tree_step root root' ->
  opt_nodes well_placed root = true ->
  opt_nodes well_placed root' = true.
Proof.
  intros [A path f a root1 Hf Hat | p e | now r root1 Hpe] Hroot.
  - by eapply Quadtree_at_well_placed.
  - destruct root as [n|]; simpl; [|done].
    pose proof (Node_insert_well_placed p e n Hroot).
    by destruct (Node_insert p e n).
  - destruct (Quadtree_prune_expired_spec now root Hroot)
      as (r0 & root0 & Heq & _ & Hw & _).
    rewrite Hpe in Heq. by simplify_eq.
Qed.

(** Every tree that a cache can hold satisfies the placement invariant. *)
Lemma reachable_tree_well_placed (root : option Node) :
  reachable_tree root -> opt_nodes well_placed root = true.
Proof.
  unfold reachable_tree. intros Hr.
  assert (Hrtc : forall o, rtc tree_step o root ->
                           opt_nodes well_placed o = true ->
                           opt_nodes well_placed root = true).
  { clear Hr. intros o Hr. induction Hr as [|x y z Hxy _ IH]; [done|].
    intros Hx. apply IH. by eapply tree_step_well_placed. }
  by apply (Hrtc None).
Qed.

(** ** The operations of the cache are steps of its tree *)

Lemma Cache_delitem_step (k : K) (c c' : Cache) :
  Cache_delitem k c = Ok c' -> tree_step (_tree c) (_tree c').
Proof.
  unfold Cache_delitem. destruct (key_node c k) as [[path node]|]; [|done].
  simpl _tree.
  destruct (Quadtree_at path _ (_tree c)) as [[[] root]|] eqn:Hat; simpl; [|done].
  intros [= <-]. simpl.
  eapply step_at; [apply (entry_op_delete_entry k) | exact Hat].
Qed.

Lemma Cache_getitem_step (k : K) (now : Z) (v : V) (c c' : Cache) :
  Cache_getitem k now c = Ok (v, c') -> tree_step (_tree c) (_tree c').
Proof.
  unfold Cache_getitem. destruct (key_node c k) as [[path node]|]; [|done].
  destruct (expired node now); [done|].
  destruct (Quadtree_at path _ (_tree c)) as [[v' root]|] eqn:Hat; simpl; [|done].
  intros [= <- <-]. simpl.
  eapply step_at; [apply (entry_op_access_entry k now (next_eid c)) | exact Hat].
Qed.

Lemma Cache_setitem_steps (k : K) (v : V) (now : Z) (c c' : Cache) :
  Cache_setitem k v now c = Ok c' -> rtc tree_step (_tree c) (_tree c').
Proof.
  unfold Cache_setitem. destruct (negb _); [done|].
  destruct (if bool_decide (is_Some (key_node c k)) then Cache_delitem k c else Ok c)
    as [c1|] eqn:Hdel; simpl; [|done].
  assert (Hstep1 : rtc tree_step (_tree c) (_tree c1)).
  { destruct (bool_decide _); [|by simplify_eq].
    apply rtc_once. by eapply Cache_delitem_step. }
  destruct (match point_node c1 (now + _context_expiry_duration c, _context_priority c) with
            | Some (path, _) => (_tree c1, path)
            | None => Quadtree_insert (_context_priority c)
                        (now + _context_expiry_duration c) (_tree c1)
            end) as [root path] eqn:Hins.
  assert (Hstep2 : rtc tree_step (_tree c1) root).
  { destruct (point_node c1 _) as [[path' node']|]; [by simplify_eq|].
    apply rtc_once.
    replace root with (Quadtree_insert (_context_priority c)
                         (now + _context_expiry_duration c) (_tree c1)).1
      by by rewrite Hins.
    apply step_insert. }
  destruct (Quadtree_at path _ root) as [[[] root']|] eqn:Hat; simpl; [|done].
  intros [= <-]. simpl.
  etrans; [exact Hstep1|]. etrans; [exact Hstep2|].
  apply rtc_once.
  eapply step_at; [apply (entry_op_add_entry k v now (next_eid c1)) | exact Hat].
Qed.

Lemma Cache_evict_steps
    (iteration : Node -> list QuadrantIndex -> list QuadrantIndex)
    (now : Z) (c c' : Cache) :
  Cache_evict iteration now c = Ok c' -> rtc tree_step (_tree c) (_tree c').
Proof.
  intros (_ & d & Hfull)%Cache_evict_Ok. revert Hfull.
  unfold Cache_evict_full.
  destruct (Quadtree_prune_expired now (_tree c)) as [[r root1]|] eqn:Hpe; simpl; [|done].
  assert (Hstep1 : tree_step (_tree c) root1) by by eapply step_prune_expired.
  destruct r.
  { intros [= <- _]. simpl. by apply rtc_once. }
  destruct (Quadtree_prune_lowest_priority iteration root1) as [[k root2]|e] eqn:Hpl.
  - intros [= <- _]. simpl.
    eapply rtc_l; [exact Hstep1|]. apply rtc_once.
    by eapply Quadtree_prune_lowest_priority_step.
  - destruct e; try done. intros [= <- _]. simpl. by apply rtc_once.
Qed.

Lemma tree_steps_quadrant_invariant (root root' : option Node) :
  rtc tree_step root root' ->
  opt_nodes quadrant_invariant root = true ->
  opt_nodes quadrant_invariant root' = true.
Proof.
  induction 1 as [|x y z Hxy _ IH]; [done|].
  intros Hx. apply IH. by eapply tree_step_quadrant_invariant.
Qed.

Lemma tree_steps_well_placed (root root' : option Node) :
  rtc tree_step root root' ->
  opt_nodes well_placed root = true ->
  opt_nodes well_placed root' = true.
Proof.
  induction 1 as [|x y z Hxy _ IH]; [done|].
  intros Hx. apply IH. by eapply tree_step_well_placed.
Qed.

Lemma Node_replace_quadrant_invariant (self node : Node) :
  quadrant_invariant self = true -> quadrant_invariant node = true ->
  quadrant_invariant (Node_replace self node) = true.
Proof.
  intros Hs Hn. unfold Node_replace.
  apply quadrant_invariant_set_quadrant; [done | done |].
  simpl. by apply bool_decide_eq_true.
Qed.

(** C5: every operation of the cache, and every operation of the tree that
    they call, leaves a tree in which each child is in the quadrant that
    [quadrant_index] gives for it, if the tree was so before. *)
Theorem quadrant_invariant_preserved
    (iteration : Node -> list QuadrantIndex -> list QuadrantIndex) (c : Cache) :
  opt_nodes quadrant_invariant (_tree c) = true ->
  (forall k v now c',
     Cache_setitem k v now c = Ok c' ->
     opt_nodes quadrant_invariant (_tree c') = true)
  /\ (forall k now v c',
        Cache_getitem k now c = Ok (v, c') ->
        opt_nodes quadrant_invariant (_tree c') = true)
  /\ (forall k c',
        Cache_delitem k c = Ok c' ->
        opt_nodes quadrant_invariant (_tree c') = true)
  /\ (forall now c',
        Cache_evict iteration now c = Ok c' ->
        opt_nodes quadrant_invariant (_tree c') = true)
  /\ (forall p e,
        opt_nodes quadrant_invariant (Quadtree_insert p e (_tree c)).1 = true)
  /\ (forall now r root',
        Quadtree_prune_expired now (_tree c) = Ok (r, root') ->
        opt_nodes quadrant_invariant root' = true)
  /\ (forall k root',
        Quadtree_prune_lowest_priority iteration (_tree c) = Ok (k, root') ->
        opt_nodes quadrant_invariant root' = true)
  /\ (forall self node,
        _tree c = Some self -> quadrant_invariant node = true ->
        quadrant_invariant (Node_replace self node) = true).
Proof.
  intros Hc. split_and!.
  - intros k v now c' Hop.
    eapply tree_steps_quadrant_invariant; [|done]. by eapply Cache_setitem_steps.
  - intros k now v c' Hop.
    eapply tree_step_quadrant_invariant; [|done]. by eapply Cache_getitem_step.
  - intros k c' Hop.
    eapply tree_step_quadrant_invariant; [|done]. by eapply Cache_delitem_step.
  - intros now c' Hop.
    eapply tree_steps_quadrant_invariant; [|done]. by eapply Cache_evict_steps.
  - intros p e. eapply tree_step_quadrant_invariant; [|done]. apply step_insert.
  - intros now r root' Hop.
    eapply tree_step_quadrant_invariant; [|done]. by eapply step_prune_expired.
  - intros k root' Hop.
    eapply tree_step_quadrant_invariant; [|done].
    by eapply Quadtree_prune_lowest_priority_step.
  - intros self node Hself Hnode. rewrite Hself in Hc.
    by apply Node_replace_quadrant_invariant.
Qed.

(** ** The list of the nodes of a tree *)

Lemma strip_set_quadrant (q : QuadrantIndex) (o : option Node) (n : Node) :
  strip (set_quadrant q o n) = strip n.
Proof. by destruct q. Qed.

Lemma tree_nodes_set_quadrant (q : QuadrantIndex) (n : Node) :
  exists l1 l2, forall o,
    tree_nodes (set_quadrant q o n) = l1 ++ root_nodes o ++ l2.
Proof.
  set (x := strip n).
  assert (Hx : forall o, strip (set_quadrant q o n) = x)
    by (intros o; apply strip_set_quadrant).
  destruct n as [e p q1 q2 q3 q4 d l], q.
  - exists [x], (root_nodes q2 ++ root_nodes q3 ++ root_nodes q4).
    intros o. by rewrite tree_nodes_eq, Hx.
  - exists (x :: root_nodes q1), (root_nodes q3 ++ root_nodes q4).
    intros o. rewrite tree_nodes_eq, Hx. simpl. by rewrite <- ?app_assoc.
  - exists (x :: root_nodes q1 ++ root_nodes q2), (root_nodes q4).
    intros o. rewrite tree_nodes_eq, Hx. simpl. by rewrite <- ?app_assoc.
  - exists (x :: root_nodes q1 ++ root_nodes q2 ++ root_nodes q3), [].
    intros o. rewrite tree_nodes_eq, Hx. simpl. by rewrite <- ?app_assoc, ?app_nil_r.
Qed.

Lemma graft_tree_nodes (path : list QuadrantIndex) (n m : Node) :
  node_at path n = Some m ->
  exists l1 l2,
    tree_nodes n = l1 ++ tree_nodes m ++ l2
    /\ forall o, root_nodes (graft path o n) = l1 ++ root_nodes o ++ l2.
Proof.
  revert n. induction path as [|q path IH]; intros n Hm; simpl in *.
  - simplify_eq. exists [], []. split; [by rewrite app_nil_r|].
    intros o. by rewrite app_nil_r.
  - destruct (quadrants n q) as [c|] eqn:Hq; simpl in *; [|done].
    destruct (IH c Hm) as (l1 & l2 & Hc & Hg).
    destruct (tree_nodes_set_quadrant q n) as (a & b & Hab).
    exists (a ++ l1), (l2 ++ b). split.
    + rewrite <- (set_quadrant_same q n), Hq, Hab. simpl. rewrite Hc.
      by rewrite <- !app_assoc.
    + intros o. rewrite Hab. simpl. rewrite Hg. by rewrite <- !app_assoc.
Qed.

Lemma tree_nodes_node_at (n x : Node) :
  x ∈ tree_nodes n <-> exists path m, node_at path n = Some m /\ x = strip m.
Proof.
  split.
  - revert x. induction n as [n IH] using Node_tree_ind. intros x.
    rewrite tree_nodes_eq. rewrite elem_of_cons, !elem_of_app.
    assert (Hslot : forall q, x ∈ root_nodes (quadrants n q) ->
              exists path m, node_at path n = Some m /\ x = strip m).
    { intros q Hx. destruct (quadrants n q) as [c|] eqn:Hq; simpl in Hx.
      - destruct (IH q c Hq x Hx) as (path & m & Hm & ->).
        exists (q :: path), m. simpl. by rewrite Hq.
      - by apply elem_of_nil in Hx. }
    intros [->|[?|[?|[?|?]]]]; [by exists [], n | by eapply Hslot ..].
  - intros (path & m & Hm & ->).
    destruct (graft_tree_nodes path n m Hm) as (l1 & l2 & -> & _).
    rewrite (tree_nodes_eq m). set_solver.
Qed.

Lemma forall_nodes_Forall (X : Node -> bool) (n : Node) :
  (forall m, X (strip m) = X m) ->
  forall_nodes X n = true <-> Forall (fun x => X x = true) (tree_nodes n).
Proof.
  intros HX. rewrite Forall_forall. split.
  - intros Hn x (path & m & Hm & ->)%tree_nodes_node_at. rewrite HX.
    by eapply forall_nodes_node_at.
  - induction n as [n IH] using Node_tree_ind. intros Hall.
    apply forall_nodes_intro.
    + rewrite <- HX. apply Hall. rewrite tree_nodes_eq. set_solver.
    + intros q c Hq. apply (IH q c Hq). intros x Hx. apply Hall.
      apply tree_nodes_node_at in Hx as (path & m & Hm & ->).
      apply tree_nodes_node_at. exists (q :: path), m. simpl. by rewrite Hq.
Qed.

Lemma tree_nodes_set_entries (d : gmap K Entry) (l : list Entry) (m : Node) :
  exists rest,
    tree_nodes m = strip m :: rest
    /\ tree_nodes (set_entries d l m) = strip (set_entries d l m) :: rest.
Proof. destruct m. simpl. by eexists. Qed.


(** ** References: from a point to its node *)

Lemma node_at_cons (q : QuadrantIndex) (path : list QuadrantIndex) (n : Node) :
  node_at (q :: path) n = quadrants n q ≫= node_at path.
Proof. done. Qed.

Lemma find_path_sound (pt : Point) (n : Node) (path : list QuadrantIndex) :
  find_path pt n = Some path ->
  exists m, node_at path n = Some m /\ point m = pt.
Proof.
  revert path. induction n as [n IH] using Node_tree_ind. intros path.
  rewrite find_path_eq.
  destruct (_ && _) eqn:Hpt.
  - intros [= <-]. exists n. split; [done|].
    apply andb_true_iff in Hpt as [He%Z.eqb_eq Hp%Z.eqb_eq].
    unfold point. destruct pt. simpl in *. by subst.
  - cbn zeta. destruct (quadrants n _) as [c|] eqn:Hq; [|done].
    destruct (find_path pt c) as [path'|] eqn:Hc; [|done].
    intros [= <-]. destruct (IH _ c Hq path' Hc) as (m & Hm & Hpm).
    exists m. split; [|done].
    change (quadrants n (QuadrantIndex_of (pt.1 <=? expiry n, pt.2 <? priority n))
              ≫= node_at path' = Some m).
    by rewrite Hq.
Qed.

Lemma point_strip (m : Node) : point (strip m) = point m.
Proof. done. Qed.

Lemma in_quadrant_route (n m : Node) (q : QuadrantIndex) :
  in_quadrant n q m = true ->
  QuadrantIndex_of ((point m).1 <=? expiry n, (point m).2 <? priority n) = q.
Proof. unfold in_quadrant, quadrant_index. by intros ?%bool_decide_eq_true. Qed.

Lemma find_path_None (pt : Point) (n : Node) :
  well_placed n = true -> find_path pt n = None ->
  pt ∉ point <$> tree_nodes n.
Proof.
  induction n as [n IH] using Node_tree_ind. intros Hwp.
  rewrite find_path_eq.
  destruct (_ && _) eqn:Hpt; [done|]. cbn zeta. intros Hroute Hin.
  apply list_elem_of_fmap in Hin as (x & -> & Hx).
  apply tree_nodes_node_at in Hx as (path & m & Hm & ->).
  rewrite point_strip in *.
  destruct path as [|q path]; simpl in Hm.
  - simplify_eq. unfold point in Hpt. simpl in Hpt.
    by rewrite !Z.eqb_refl in Hpt.
  - destruct (quadrants n q) as [c|] eqn:Hq; simpl in Hm; [|done].
    pose proof (subtrees_placed_slot n c q (forall_nodes_here _ _ Hwp) Hq) as Hsub.
    pose proof (forall_nodes_node_at _ _ _ _ Hsub Hm) as Hin.
    apply in_quadrant_route in Hin. rewrite Hin, Hq in Hroute.
    destruct (find_path (point m) c) eqn:Hc; [done|].
    apply (IH q c Hq (forall_nodes_child _ _ _ _ Hwp Hq) Hc).
    apply list_elem_of_fmap. exists (strip m). split; [done|].
    apply tree_nodes_node_at. by exists path, m.
Qed.

Lemma find_path_live (pt : Point) (n : Node) :
  well_placed n = true ->
  is_Some (find_path pt n) <-> pt ∈ point <$> tree_nodes n.
Proof.
  intros Hwp. split.
  - intros [path Hp]. destruct (find_path_sound pt n path Hp) as (m & Hm & <-).
    apply list_elem_of_fmap. exists (strip m). split; [done|].
    apply tree_nodes_node_at. by exists path, m.
  - intros Hin. destruct (find_path pt n) eqn:Hp; [done|].
    by destruct (find_path_None pt n Hwp Hp).
Qed.

Lemma NoDup_points_child (n c : Node) (q : QuadrantIndex) :
  NoDup (point <$> tree_nodes n) -> quadrants n q = Some c ->
  NoDup (point <$> tree_nodes c) /\ point n ∉ point <$> tree_nodes c.
Proof.
  intros Hnd Hq. rewrite tree_nodes_eq, fmap_cons in Hnd.
  apply NoDup_cons in Hnd as [Hn Hnd]. rewrite point_strip in Hn.
  rewrite !fmap_app in *.
  rewrite !NoDup_app in Hnd. rewrite !elem_of_app in Hn.
  destruct q; rewrite Hq in *; simpl in *; split; tauto.
Qed.

Lemma find_path_complete (path : list QuadrantIndex) (n m : Node) :
  well_placed n = true -> NoDup (point <$> tree_nodes n) ->
  node_at path n = Some m -> find_path (point m) n = Some path.
Proof.
  revert n. induction path as [|q path IH]; intros n Hwp Hnd Hm.
  - simpl in Hm. simplify_eq. rewrite find_path_eq. unfold point. simpl.
    by rewrite !Z.eqb_refl.
  - rewrite node_at_cons in Hm.
    destruct (quadrants n q) as [c|] eqn:Hq; simpl in Hm; [|done].
    destruct (NoDup_points_child n c q Hnd Hq) as [Hndc Hn].
    pose proof (subtrees_placed_slot n c q (forall_nodes_here _ _ Hwp) Hq) as Hsub.
    pose proof (forall_nodes_node_at _ _ _ _ Hsub Hm) as Hin.
    apply in_quadrant_route in Hin.
    rewrite find_path_eq.
    destruct (_ && _) eqn:Hpt.
    + exfalso. apply Hn. apply list_elem_of_fmap. exists (strip m). split.
      * apply andb_true_iff in Hpt as [He%Z.eqb_eq Hp%Z.eqb_eq].
        unfold point in *. simpl in *. by rewrite He, Hp.
      * apply tree_nodes_node_at. by exists path, m.
    + cbn zeta. rewrite Hin, Hq.
      by rewrite (IH c (forall_nodes_child _ _ _ _ Hwp Hq) Hndc Hm).
Qed.

Lemma deref_Some (pt : Point) (root : option Node) (path : list QuadrantIndex)
    (m : Node) :
  deref pt root = Some (path, m) <->
  exists r, root = Some r /\ find_path pt r = Some path /\ node_at path r = Some m.
Proof.
  unfold deref. split.
  - destruct root as [r|]; simpl; [|done].
    destruct (find_path pt r) as [path'|] eqn:Hf; simpl; [|done].
    destruct (node_at path' r) as [m'|] eqn:Hn; simpl; [|done].
    intros [= <- <-]. by exists r.
  - intros (r & -> & Hf & Hn). simpl. rewrite Hf. simpl. by rewrite Hn.
Qed.

Lemma deref_sound (pt : Point) (root : option Node) (path : list QuadrantIndex)
    (m : Node) :
  deref pt root = Some (path, m) ->
  root ≫= node_at path = Some m /\ point m = pt /\ strip m ∈ root_nodes root.
Proof.
  intros (r & -> & Hf & Hn)%deref_Some. simpl.
  destruct (find_path_sound pt r path Hf) as (m' & Hm' & Hpt).
  rewrite Hn in Hm'. simplify_eq. split_and!; [done | done |].
  apply tree_nodes_node_at. by exists path, m'.
Qed.

Lemma deref_node (root : option Node) (path : list QuadrantIndex) (m : Node) :
  opt_nodes well_placed root = true -> NoDup (point <$> root_nodes root) ->
  root ≫= node_at path = Some m -> deref (point m) root = Some (path, m).
Proof.
  intros Hwp Hnd Hm. destruct root as [r|]; [|done].
  apply deref_Some. exists r. split_and!; [done | | done].
  by apply find_path_complete.
Qed.

Lemma is_live_points (root : option Node) (pt : Point) :
  opt_nodes well_placed root = true ->
  is_live root pt = true <-> pt ∈ point <$> root_nodes root.
Proof.
  intros Hwp. unfold is_live. rewrite bool_decide_eq_true.
  destruct root as [r|]; simpl in *.
  - rewrite <- (find_path_live pt r Hwp). unfold deref. simpl. split.
    + intros [[path m] Hd]. destruct (find_path pt r); [done|]. done.
    + intros [path Hf]. rewrite Hf. simpl.
      destruct (find_path_sound pt r path Hf) as (m & -> & _). done.
  - split; [by intros [? ?] | by intros ?%elem_of_nil].
Qed.

Lemma root_nodes_node_at (root : option Node) (x : Node) :
  x ∈ root_nodes root <->
  exists path m, root ≫= node_at path = Some m /\ x = strip m.
Proof.
  destruct root as [r|]; simpl.
  - apply tree_nodes_node_at.
  - split; [by intros ?%elem_of_nil | by intros (? & ? & ? & _)].
Qed.

(** ** Consistent nodes under the entry-level operations *)

Lemma node_ok_queue_indexed (bound : nat) (now : Z) (x : Node) :
  node_ok bound now x -> queue_indexed x = true.
Proof.
  intros [_ Hq]. unfold queue_indexed. apply forallb_forall.
  intros e He. apply bool_decide_eq_true.
  rewrite Forall_forall in Hq. destruct (Hq e) as [-> _]; [|done].
  by apply list_elem_of_In.
Qed.

Lemma node_ok_mono (bound bound' : nat) (now now' : Z) (x : Node) :
  (bound <= bound')%nat -> now <= now' ->
  node_ok bound now x -> node_ok bound' now' x.
Proof.
  intros Hb Hn [Hc Hq]. split; [done|].
  eapply Forall_impl; [done|]. intros e (? & ? & ?). split_and!; [done | lia | lia].
Qed.

Lemma node_ok_strip (bound : nat) (now : Z) (m : Node) :
  node_ok bound now (strip m) <-> node_ok bound now m.
Proof. done. Qed.

Lemma node_ok_clear (bound : nat) (now : Z) (x : Node) :
  node_ok bound now (clear_entries x).
Proof.
  split; [|by constructor]. split; [|by constructor].
  intros k e. simpl. by rewrite lookup_empty.
Qed.

Lemma node_ok_new (bound : nat) (now e p : Z) :
  node_ok bound now (new_node e p : Node).
Proof. apply (node_ok_clear bound now (new_node e p)). Qed.

Lemma lookup_split {A : Type} (l : list A) (i : nat) (x : A) :
  l !! i = Some x ->
  exists l1 l2, l = l1 ++ x :: l2 /\ delete i l = l1 ++ l2.
Proof.
  intros Hi. exists (take i l), (drop (S i) l). split.
  - by rewrite take_drop_middle.
  - apply delete_take_drop.
Qed.

Lemma node_ok_remove (bound : nat) (now : Z) (x : Node) (k : K) (e : Entry) (i : nat) :
  node_ok bound now x -> _data x !! k = Some e -> _lru_queue x !! i = Some e ->
  node_ok bound now (set_entries (delete k (_data x)) (delete i (_lru_queue x)) x).
Proof.
  intros [[Hd Hs] Hq] Hk Hi.
  destruct (lookup_split _ i e Hi) as (t & dr & Hl & Hdel).
  rewrite Hdel. rewrite Hl in Hd, Hs, Hq. clear Hl Hdel Hi.
  destruct (Hd k e Hk) as (Hkey & _ & Hone).
  rewrite filter_app, filter_cons, decide_True, length_app in Hone by done.
  simpl in Hone.
  assert (Hfresh : forall e', e' ∈ t ++ dr -> eid e' <> eid e).
  { intros e' He' Heid.
    assert (e' ∈ filter (fun y => eid y = eid e) t
            \/ e' ∈ filter (fun y => eid y = eid e) dr) as [Hin|Hin].
    { apply elem_of_app in He' as [?|?]; [left | right];
        by apply list_elem_of_filter. }
    - destruct (filter _ t); [by apply elem_of_nil in Hin | simpl in Hone; lia].
    - destruct (filter _ dr); [by apply elem_of_nil in Hin | simpl in Hone; lia]. }
  split; [split|]; simpl.
  - intros k' e' [Hne Hk']%lookup_delete_Some.
    destruct (Hd k' e' Hk') as (Hkey' & Hin & Hcount).
    assert (e' <> e) by (intros ->; congruence).
    assert (Hin' : e' ∈ t ++ dr).
    { apply elem_of_app in Hin as [?|[?|?]%elem_of_cons];
        [apply elem_of_app; by left | done | apply elem_of_app; by right]. }
    split_and!; [done | done |].
    rewrite filter_app, filter_cons, length_app in Hcount.
    rewrite filter_app, length_app.
    destruct (decide (eid e = eid e')) as [Heq|Hneq]; simpl in Hcount; [|lia].
    by destruct (Hfresh e' Hin').
  - unfold lru_sorted in *. apply StronglySorted_app in Hs as (Hle & Ht & Hdr).
    apply StronglySorted_cons in Hdr as [_ Hdr].
    apply StronglySorted_app. split_and!; [|done | done].
    intros x1 x2 H1' H2'. apply Hle; [done|]. by right.
  - apply Forall_forall. intros e' He'.
    rewrite Forall_forall in Hq. destruct (Hq e') as (Hde & Hb & Hn).
    { apply elem_of_app in He' as [?|?]; apply elem_of_app;
        [by left | right; by right]. }
    unfold entry_ok. simpl. split_and!; [|done | done].
    rewrite lookup_delete_ne; [done|]. intros Heq.
    rewrite <- Heq, Hk in Hde. injection Hde as Hde.
    by destruct (Hfresh e' He'); rewrite Hde.
Qed.

Lemma node_ok_add (bound : nat) (now : Z) (x : Node) (k : K) (v : V) :
  node_ok bound now x -> _data x !! k = None ->
  node_ok (S bound) now (add_entry k v now bound x).
Proof.
  intros [[Hd Hs] Hq] Hk. rewrite Forall_forall in Hq.
  assert (Hnone : filter (fun y : Entry => eid y = bound) (_lru_queue x) = []).
  { destruct (filter _ _) as [|y l] eqn:Hf; [done|].
    assert (y ∈ filter (fun y : Entry => eid y = bound) (_lru_queue x))
      as [Hy Hin]%list_elem_of_filter by (rewrite Hf; left).
    destruct (Hq y Hin) as (_ & ? & _). lia. }
  split; [split|]; simpl.
  - intros k' e' [[<- <-]|[Hne Hk']]%lookup_insert_Some; simpl.
    + split_and!; [done | apply elem_of_app; right; by left |].
      by rewrite filter_app, Hnone, filter_cons, decide_True.
    + destruct (Hd k' e' Hk') as (Hkey' & Hin & Hcount).
      split_and!; [done | apply elem_of_app; by left |].
      rewrite filter_app, length_app, Hcount, filter_cons, decide_False; [done|].
      simpl. destruct (Hq e' Hin) as (_ & ? & _). lia.
  - unfold lru_sorted in *. apply StronglySorted_app. split_and!; [|done | by repeat constructor].
    intros x1 x2 H1' ->%list_elem_of_singleton. simpl.
    by destruct (Hq x1 H1') as (_ & _ & ?).
  - apply Forall_app. split.
    + apply Forall_forall. intros e' He'. destruct (Hq e' He') as (Hde & Hb & Hn).
      unfold entry_ok. simpl. split_and!; [|lia | done].
      rewrite lookup_insert_ne; [done|]. intros Heq. congruence.
    + constructor; [|done]. unfold entry_ok. simpl.
      split_and!; [by rewrite lookup_insert_eq | lia | lia].
Qed.

Lemma node_ok_pop (bound : nat) (now : Z) (x : Node) (e : Entry) (rest : list Entry) :
  node_ok bound now x -> _lru_queue x = e :: rest ->
  node_ok bound now (set_entries (delete (key e) (_data x)) rest x).
Proof.
  intros Hx Hl. assert (He : _data x !! key e = Some e).
  { destruct Hx as [_ Hq]. rewrite Hl in Hq. by apply Forall_cons in Hq as [[? _] _]. }
  pose proof (node_ok_remove bound now x (key e) e 0 Hx He) as Hr.
  rewrite Hl in Hr. by apply Hr.
Qed.

(** ** One node of the list changes *)

Lemma NoDup_points_middle (l1 l2 : list Node) (x y : Node) :
  NoDup (point <$> l1 ++ x :: l2) -> y ∈ l1 ++ l2 -> point y <> point x.
Proof.
  rewrite fmap_app, fmap_cons. intros Hnd Hy Heq.
  apply NoDup_app in Hnd as (_ & H1 & [H2 _]%NoDup_cons).
  apply elem_of_app in Hy as [Hy|Hy].
  - apply (H1 (point y)); [by apply list_elem_of_fmap_2 | rewrite Heq; left].
  - apply H2. rewrite <- Heq. by apply list_elem_of_fmap_2.
Qed.

Lemma middle_modified (l1 l2 : list Node) (x x' : Node) :
  NoDup (point <$> l1 ++ x :: l2) ->
  modified x x' (l1 ++ x :: l2) (l1 ++ x' :: l2).
Proof.
  intros Hnd y. rewrite !elem_of_app, !elem_of_cons. split.
  - intros [Hy|[->|Hy]]; [right | by left | right].
    + split; [by left|]. eapply NoDup_points_middle; [done|]. apply elem_of_app. by left.
    + split; [by right; right|]. eapply NoDup_points_middle; [done|].
      apply elem_of_app. by right.
  - intros [->|[[Hy|[->|Hy]] Hne]]; tauto.
Qed.

Lemma middle_removed (l1 l2 : list Node) (x : Node) :
  NoDup (point <$> l1 ++ x :: l2) ->
  removed x (l1 ++ x :: l2) (l1 ++ l2).
Proof.
  intros Hnd y. split.
  - intros Hy. split; [|by eapply NoDup_points_middle].
    apply elem_of_app in Hy as [?|?]; apply elem_of_app; [by left | right; by right].
  - rewrite !elem_of_app, elem_of_cons. intros [[Hy|[->|Hy]] Hne]; tauto.
Qed.

Lemma middle_NoDup (l1 l2 : list Node) (x x' : Node) :
  NoDup (point <$> l1 ++ x :: l2) -> point x' = point x ->
  NoDup (point <$> l1 ++ x' :: l2).
Proof. intros Hnd Hpt. by rewrite fmap_app, fmap_cons, Hpt, <- fmap_cons, <- fmap_app. Qed.

Lemma middle_NoDup_removed (l1 l2 : list Node) (x : Node) :
  NoDup (point <$> l1 ++ x :: l2) -> NoDup (point <$> l1 ++ l2).
Proof.
  intros Hnd. eapply sublist_NoDup; [done|].
  apply fmap_sublist, sublist_app; [done | by apply sublist_cons].
Qed.

(** The nodes of the tree after a method that rewrites the entries of the
    node at the end of [path]. *)
Lemma graft_set_entries_nodes (path : list QuadrantIndex) (r m : Node)
    (d : gmap K Entry) (l : list Entry) :
  NoDup (point <$> tree_nodes r) -> node_at path r = Some m ->
  let m1 := set_entries d l m in
  strip m ∈ tree_nodes r
  /\ NoDup (point <$> root_nodes (graft path (Some m1) r))
  /\ modified (strip m) (strip m1) (tree_nodes r) (root_nodes (graft path (Some m1) r)).
Proof.
  intros Hnd Hm m1.
  destruct (graft_tree_nodes path r m Hm) as (l1 & l2 & Hr & Hg).
  destruct (tree_nodes_set_entries d l m) as (rest & Hm0 & Hm1).
  fold m1 in Hm1. rewrite Hg. cbn [root_nodes]. rewrite Hm1.
  rewrite Hr, Hm0 in *. clear Hr Hm0 Hm1 Hg.
  rewrite <- !app_comm_cons in *.
  split_and!.
  - apply elem_of_app. right. left.
  - by apply (middle_NoDup l1 (rest ++ l2) (strip m)).
  - by apply middle_modified.
Qed.

(** The same when the method ends with [clean]. *)
Lemma graft_clean_nodes (path : list QuadrantIndex) (r m : Node)
    (d : gmap K Entry) (l : list Entry) :
  NoDup (point <$> tree_nodes r) -> node_at path r = Some m ->
  let m1 := set_entries d l m in
  let root' := graft path (clean_outcome m1) r in
  strip m ∈ tree_nodes r
  /\ NoDup (point <$> root_nodes root')
  /\ (modified (strip m) (strip m1) (tree_nodes r) (root_nodes root')
      \/ (l = [] /\ removed (strip m) (tree_nodes r) (root_nodes root'))).
Proof.
  intros Hnd Hm m1 root'. subst root'.
  destruct (graft_tree_nodes path r m Hm) as (l1 & l2 & Hr & Hg).
  destruct (tree_nodes_set_entries d l m) as (rest & Hm0 & Hm1).
  fold m1 in Hm1. rewrite Hg.
  rewrite Hr, Hm0 in *. clear Hr Hm0 Hg.
  rewrite <- !app_comm_cons in *.
  split; [apply elem_of_app; right; left|].
  destruct (clean_outcome_tree_nodes m1) as [->|[Hempty Htn]].
  - rewrite Hm1, <- app_comm_cons. split.
    + by apply (middle_NoDup l1 (rest ++ l2) (strip m)).
    + left. by apply middle_modified.
  - rewrite Hm1 in Htn. injection Htn as <-. split.
    + by apply (middle_NoDup_removed l1 (rest ++ l2) (strip m)).
    + right. split; [|by apply middle_removed].
      unfold empty in Hempty. subst m1. destruct m. simpl in *. by destruct l.
Qed.

(** ** The nodes of the tree after an insertion *)

Lemma Node_insert_tree_nodes (p e : Z) (n : Node) :
  tree_nodes (Node_insert p e n).1 ≡ₚ new_node e p :: tree_nodes n
  /\ node_at (Node_insert p e n).2 (Node_insert p e n).1 = Some (new_node e p).
Proof.
  induction n as [n IH] using Node_tree_ind.
  rewrite Node_insert_eq. cbn zeta.
  set (index := QuadrantIndex_of (e <=? expiry n, p <? priority n)).
  destruct (tree_nodes_set_quadrant index n) as (a & b & Hab).
  assert (Hn : tree_nodes n = a ++ root_nodes (quadrants n index) ++ b)
    by by rewrite <- Hab, set_quadrant_same.
  destruct (quadrants n index) as [c|] eqn:Hq.
  - destruct (IH index c Hq) as [Hperm Hat].
    destruct (Node_insert p e c) as [c' path]. simpl in *.
    rewrite quadrants_set_quadrant_eq. split; [|done].
    rewrite Hab, Hn. simpl. rewrite Hperm. by rewrite Permutation_middle.
  - simpl. rewrite quadrants_set_quadrant_eq. split; [|done].
    rewrite Hab, Hn. simpl. by rewrite Permutation_middle.
Qed.

Lemma Quadtree_insert_nodes (p e : Z) (root : option Node) :
  root_nodes (Quadtree_insert p e root).1 ≡ₚ new_node e p :: root_nodes root
  /\ (Quadtree_insert p e root).1 ≫= node_at (Quadtree_insert p e root).2
     = Some (new_node e p).
Proof.
  destruct root as [r|]; simpl; [|done].
  pose proof (Node_insert_tree_nodes p e r) as Hr.
  by destruct (Node_insert p e r).
Qed.

(** ** The indices against the list of the nodes *)

Lemma NoDup_points_eq (L : list Node) (x y : Node) :
  NoDup (point <$> L) -> x ∈ L -> y ∈ L -> point x = point y -> x = y.
Proof.
  intros Hnd Hx Hy Heq.
  apply list_elem_of_lookup in Hx as [i Hi]. apply list_elem_of_lookup in Hy as [j Hj].
  assert (i = j) as ->; [|congruence].
  eapply NoDup_lookup; [done | |].
  - by rewrite list_lookup_fmap, Hi.
  - by rewrite list_lookup_fmap, Hj, Heq.
Qed.

Lemma modified_points (x x' : Node) (L L' : list Node) :
  x ∈ L -> point x' = point x -> modified x x' L L' ->
  forall pt, pt ∈ point <$> L' <-> pt ∈ point <$> L.
Proof.
  intros Hx Hpt Hmod pt. rewrite !list_elem_of_fmap. split.
  - intros (y & -> & [->|[Hy _]]%Hmod); [exists x | exists y]; by rewrite ?Hpt.
  - intros (y & -> & Hy). destruct (decide (point y = point x)) as [Heq|Hne].
    + exists x'. split; [congruence|]. apply Hmod. by left.
    + exists y. split; [done|]. apply Hmod. by right.
Qed.

Lemma removed_points (x : Node) (L L' : list Node) :
  removed x L L' -> forall pt, pt ∈ point <$> L' -> pt ∈ point <$> L.
Proof.
  intros Hrem pt. rewrite !list_elem_of_fmap.
  intros (y & -> & [Hy _]%Hrem). by exists y.
Qed.

Lemma modified_keys_point (now : Z) (x x' : Node) (L L' : list Node)
    (kn kn' : gmap K Point) :
  NoDup (point <$> L) -> x ∈ L -> point x' = point x -> modified x x' L L' ->
  keys_point now L kn ->
  (forall k pt,
     kn' !! k = Some pt ->
     (pt = point x /\ is_Some (_data x' !! k))
     \/ (kn !! k = Some pt
         /\ (is_Some (_data x !! k) -> is_Some (_data x' !! k)))) ->
  keys_point now L' kn'.
Proof.
  intros Hnd Hx Hpt Hmod Hkeys Hkn k pt Hk.
  destruct (Hkn k pt Hk) as [[-> Hin]|[Hold Hkeep]].
  - exists x'. split_and!; [apply Hmod; by left | done | by left].
  - destruct (Hkeys k pt Hold) as (y & Hy & <- & Hor).
    destruct (decide (point y = point x)) as [Heq|Hne].
    + assert (y = x) as -> by by eapply NoDup_points_eq.
      exists x'. split_and!; [apply Hmod; by left | done |].
      destruct Hor as [?|?]; [left; auto | right].
      unfold point in Hpt. by injection Hpt as -> _.
    + exists y. split_and!; [apply Hmod; by right | done | done].
Qed.

Lemma modified_entries_indexed (x x' : Node) (L L' : list Node)
    (kn kn' : gmap K Point) :
  point x' = point x -> modified x x' L L' ->
  entries_indexed L kn ->
  (forall k, is_Some (_data x' !! k) -> kn' !! k = Some (point x)) ->
  (forall y k, y ∈ L -> point y <> point x -> is_Some (_data y !! k) ->
               kn' !! k = kn !! k) ->
  entries_indexed L' kn'.
Proof.
  intros Hpt Hmod Hidx Hx' Hother y k [->|[Hy Hne]]%Hmod Hk.
  - rewrite Hpt. by apply Hx'.
  - rewrite (Hother y k Hy Hne Hk). by apply Hidx.
Qed.

Lemma removed_keys_point (now : Z) (x : Node) (L L' : list Node)
    (kn kn' : gmap K Point) :
  removed x L L' -> keys_point now L kn ->
  (forall k pt, kn' !! k = Some pt -> kn !! k = Some pt /\ pt <> point x) ->
  keys_point now L' kn'.
Proof.
  intros Hrem Hkeys Hkn k pt Hk. destruct (Hkn k pt Hk) as [Hold Hne].
  destruct (Hkeys k pt Hold) as (y & Hy & <- & Hor).
  exists y. split_and!; [by apply Hrem | done | done].
Qed.

Lemma removed_entries_indexed (x : Node) (L L' : list Node)
    (kn kn' : gmap K Point) :
  removed x L L' -> entries_indexed L kn ->
  (forall y k, y ∈ L -> point y <> point x -> is_Some (_data y !! k) ->
               kn' !! k = kn !! k) ->
  entries_indexed L' kn'.
Proof.
  intros Hrem Hidx Hother y k [Hy Hne]%Hrem Hk.
  rewrite (Hother y k Hy Hne Hk). by apply Hidx.
Qed.

(** [holds] after the change, and after the removal, of one node. *)
Lemma holds_at (L : list Node) (x : Node) (k : K) (en : Entry) :
  NoDup (point <$> L) -> x ∈ L ->
  holds L k (point x) en <-> _data x !! k = Some en.
Proof.
  intros Hnd Hx. split.
  - intros (y & Hy & Hpt & He). by rewrite <- (NoDup_points_eq L y x Hnd Hy Hx Hpt).
  - intros He. by exists x.
Qed.

Lemma modified_holds (x x' : Node) (L L' : list Node) (k : K) (pt : Point) (en : Entry) :
  point x' = point x -> modified x x' L L' ->
  holds L' k pt en <->
  (pt = point x /\ _data x' !! k = Some en) \/ (pt <> point x /\ holds L k pt en).
Proof.
  intros Hpt Hmod. split.
  - intros (y & [->|[Hy Hne]]%Hmod & <- & He); [by left | right].
    split; [done|]. by exists y.
  - intros [[-> He]|[Hne (y & Hy & <- & He)]].
    + exists x'. split_and!; [apply Hmod; by left | done | done].
    + exists y. split_and!; [apply Hmod; by right | done | done].
Qed.

Lemma removed_holds (x : Node) (L L' : list Node) (k : K) (pt : Point) (en : Entry) :
  removed x L L' ->
  holds L' k pt en <-> pt <> point x /\ holds L k pt en.
Proof.
  intros Hrem. split.
  - intros (y & [Hy Hne]%Hrem & <- & He). split; [done|]. by exists y.
  - intros [Hne (y & Hy & <- & He)]. exists y. split_and!; [by apply Hrem | done | done].
Qed.

Lemma holds_split (L : list Node) (x : Node) (k : K) (pt : Point) (en : Entry) :
  NoDup (point <$> L) -> x ∈ L ->
  holds L k pt en <->
  (pt = point x /\ _data x !! k = Some en) \/ (pt <> point x /\ holds L k pt en).
Proof.
  intros Hnd Hx. split.
  - intros Hh. destruct (decide (pt = point x)) as [->|Hne]; [left | by right].
    split; [done|]. by apply (holds_at L x).
  - intros [[-> He]|[_ Hh]]; [by apply (holds_at L x) | done].
Qed.

(** The point index after a sweep. *)
Lemma registered_sweep (root' : option Node) (L : list Node) (pts : gset Point) :
  opt_nodes well_placed root' = true -> registered L pts ->
  (forall pt, pt ∈ point <$> root_nodes root' -> pt ∈ point <$> L) ->
  registered (root_nodes root') (filter (fun pt => is_live root' pt) pts).
Proof.
  intros Hwp Hreg Hsub pt. rewrite elem_of_filter, Is_true_true, is_live_points by done.
  rewrite (Hreg pt). split; [tauto | auto].
Qed.

(** The key index after a sweep. *)
Lemma lookup_sweep (root' : option Node) (kn : gmap K Point) (k : K) (pt : Point) :
  opt_nodes well_placed root' = true ->
  filter (fun kp : K * Point => is_live root' kp.2) kn !! k = Some pt
  <-> kn !! k = Some pt /\ pt ∈ point <$> root_nodes root'.
Proof.
  intros Hwp. rewrite map_lookup_filter_Some. simpl.
  by rewrite Is_true_true, is_live_points.
Qed.

(** ** [prune_expired] keeps the nodes that have not expired *)

Lemma clean_outcome_keeps (m x : Node) :
  x ∈ tree_nodes m -> empty x = false -> x ∈ root_nodes (clean_outcome m).
Proof.
  intros Hx Hne. destruct (clean_outcome_tree_nodes m) as [->|[Hempty Htn]]; [done|].
  rewrite Htn in Hx. apply elem_of_cons in Hx as [->|Hx]; [|done].
  change (empty (strip m)) with (empty m) in Hne. congruence.
Qed.

Lemma in_quadrant_strip (n : Node) (q : QuadrantIndex) (m : Node) :
  in_quadrant n q (strip m) = in_quadrant n q m.
Proof. done. Qed.

(** The nodes of the quadrants ONE and TWO of an expired node have
    expired. *)
Lemma older_quadrant_expired (now : Z) (n c x : Node) (q : QuadrantIndex) :
  subtrees_placed n = true -> quadrants n q = Some c -> q = ONE \/ q = TWO ->
  expired n now = true -> x ∈ tree_nodes c -> expired x now = true.
Proof.
  intros Hsp Hq Hold Hexp Hx.
  pose proof (subtrees_placed_slot n c q Hsp Hq) as Hin.
  apply (forall_nodes_Forall _ c (in_quadrant_strip n q)) in Hin.
  rewrite Forall_forall in Hin. specialize (Hin x Hx).
  unfold in_quadrant, quadrant_index in Hin. apply bool_decide_eq_true in Hin.
  unfold expired in *. apply Z.ltb_lt in Hexp. apply Z.ltb_lt.
  destruct (expiry x <=? expiry n) eqn:Hle.
  - apply Z.leb_le in Hle. lia.
  - by destruct Hold as [->| ->], (priority x <? priority n).
Qed.

Lemma visit_child_keeps (now : Z) (n : Node) (q : QuadrantIndex) (b : bool) (self : Node) :
  (forall c, quadrants n q = Some c ->
     prunes_well now c
     /\ forall r c' call,
          Node_prune_expired now c = Ok (r, c', call) ->
          forall x, x ∈ tree_nodes c -> expired x now = false -> empty x = false ->
                    x ∈ root_nodes (settle_root c' call)) ->
  subtrees_placed n = true ->
  expiry self = expiry n -> priority self = priority n ->
  quadrants self q = quadrants n q ->
  exists r o,
    visit_child now n q (b, self) = Ok (b || r, set_quadrant q o self)
    /\ forall x, x ∈ root_nodes (quadrants n q) ->
                 expired x now = false -> empty x = false -> x ∈ root_nodes o.
Proof.
  intros IH Hn He Hp Hq.
  destruct (visit_child_pruned now n q b self) as (r & o & Hv & Hpr);
    [intros c Hc; by apply IH | done ..|].
  exists r, o. split; [done|].
  destruct (quadrants n q) as [c|] eqn:Hc; [|by intros x ?%elem_of_nil].
  destruct (IH c eq_refl) as [(r' & c' & call & Hrun & Hce & Hcp & Hpr') Hkeep].
  assert (Ho : o = settle_root c' call).
  { unfold visit_child in Hv. rewrite Hc, Hrun in Hv. cbn [mbind result_bind snd] in Hv.
    pose proof (subtrees_placed_slot n c q Hn Hc) as Hsub.
    rewrite settle_same_slot in Hv.
    - cbn [mbind result_bind] in Hv. injection Hv as _ Hv.
      apply (f_equal (fun m => quadrants m q)) in Hv.
      by rewrite !quadrants_set_quadrant_eq in Hv.
    - rewrite (quadrant_index_point n self c c') by done.
      apply forall_nodes_here in Hsub. unfold in_quadrant in Hsub.
      by apply bool_decide_eq_true in Hsub.
    - intros gc ->. simpl in Hpr'. destruct Hpr' as (Hpt & _).
      rewrite in_quadrant_on_point in Hsub.
      apply (Hpt _ (robust_on_point _)) in Hsub. simpl in Hsub.
      apply forall_nodes_here in Hsub. unfold on_point in Hsub.
      apply bool_decide_eq_true in Hsub. unfold quadrant_index. by rewrite He, Hp. }
  subst o. simpl. intros x. by apply (Hkeep r').
Qed.

Lemma Node_prune_expired_keeps (now : Z) (n : Node) :
  well_placed n = true ->
  forall r n' call,
    Node_prune_expired now n = Ok (r, n', call) ->
    forall x, x ∈ tree_nodes n -> expired x now = false -> empty x = false ->
              x ∈ root_nodes (settle_root n' call).
Proof.
  induction n as [n IH] using Node_tree_ind. intros Hwp r n' call Hrun x Hx Hexp Hne.
  pose proof (forall_nodes_here _ _ Hwp) as Hsp.
  assert (IHc : forall q c, quadrants n q = Some c ->
            prunes_well now c
            /\ forall r c' call,
                 Node_prune_expired now c = Ok (r, c', call) ->
                 forall x, x ∈ tree_nodes c -> expired x now = false -> empty x = false ->
                           x ∈ root_nodes (settle_root c' call)).
  { intros q c Hq. pose proof (forall_nodes_child _ _ _ _ Hwp Hq) as Hc.
    split; [by apply Node_prune_expired_spec | by apply (IH q c Hq)]. }
  clear IH. rewrite Node_prune_expired_eq in Hrun.
  rewrite tree_nodes_eq in Hx.
  destruct (expired n now) eqn:Hnexp; cbn zeta in Hrun.
  - set (self0 := set_quadrant TWO None (set_quadrant ONE None n)) in *.
    destruct (visit_child_keeps now n THREE
                (negb (empty n)
                 || match quadrants n ONE with Some c => negb (deep_empty c) | None => false end
                 || match quadrants n TWO with Some c => negb (deep_empty c) | None => false end)
                self0 (IHc THREE) Hsp)
      as (r3 & o3 & Hv3 & H3); [by destruct n .. |].
    rewrite Hv3 in Hrun. cbn [mbind result_bind] in Hrun.
    destruct (visit_child_keeps now n FOUR
                (negb (empty n)
                 || match quadrants n ONE with Some c => negb (deep_empty c) | None => false end
                 || match quadrants n TWO with Some c => negb (deep_empty c) | None => false end
                 || r3)
                (set_quadrant THREE o3 self0) (IHc FOUR) Hsp)
      as (r4 & o4 & Hv4 & H4); [by destruct n .. |].
    rewrite Hv4 in Hrun. cbn [mbind result_bind] in Hrun.
    set (self := clear_entries (set_quadrant FOUR o4 (set_quadrant THREE o3 self0))) in *.
    destruct (clean self) as [n1 call1] eqn:Hclean. injection Hrun as _ <- <-.
    assert (Hout : settle_root n1 call1 = clean_outcome self).
    { unfold clean_outcome. by rewrite Hclean. }
    rewrite Hout. apply clean_outcome_keeps; [|done].
    assert (Hself : tree_nodes self = strip self :: root_nodes o3 ++ root_nodes o4).
    { subst self self0. rewrite tree_nodes_eq. by destruct n. }
    rewrite Hself.
    apply elem_of_cons in Hx as [->|Hx].
    { change (expired (strip n) now) with (expired n now) in Hexp. congruence. }
    rewrite !elem_of_app in Hx. right. rewrite elem_of_app.
    destruct Hx as [Hx|[Hx|[Hx|Hx]]].
    + destruct (quadrants n ONE) as [c|] eqn:Hq; [|by apply elem_of_nil in Hx].
      rewrite (older_quadrant_expired now n c x ONE) in Hexp; by eauto.
    + destruct (quadrants n TWO) as [c|] eqn:Hq; [|by apply elem_of_nil in Hx].
      rewrite (older_quadrant_expired now n c x TWO) in Hexp; by eauto.
    + left. by apply H3.
    + right. by apply H4.
  - destruct (visit_child_keeps now n ONE false n (IHc ONE) Hsp)
      as (r1 & o1 & Hv1 & H1'); [done .. |].
    rewrite Hv1 in Hrun. cbn [mbind result_bind] in Hrun.
    destruct (visit_child_keeps now n TWO (false || r1) (set_quadrant ONE o1 n)
                (IHc TWO) Hsp) as (r2 & o2 & Hv2 & H2'); [by destruct n .. |].
    rewrite Hv2 in Hrun. cbn [mbind result_bind] in Hrun.
    set (self := set_quadrant TWO o2 (set_quadrant ONE o1 n)) in *.
    destruct (clean self) as [n1 call1] eqn:Hclean. injection Hrun as _ <- <-.
    assert (Hout : settle_root n1 call1 = clean_outcome self).
    { unfold clean_outcome. by rewrite Hclean. }
    rewrite Hout. apply clean_outcome_keeps; [|done].
    assert (Hself : tree_nodes self
                    = strip n :: root_nodes o1 ++ root_nodes o2
                              ++ root_nodes (quadrants n THREE)
                              ++ root_nodes (quadrants n FOUR)).
    { subst self. rewrite tree_nodes_eq. by destruct n. }
    rewrite Hself.
    apply elem_of_cons in Hx as [->|Hx]; [by left|]. right.
    rewrite !elem_of_app in *.
    destruct Hx as [Hx|[Hx|[Hx|Hx]]]; [left; by apply H1' | right; left; by apply H2' | tauto ..].
Qed.

Lemma Quadtree_prune_expired_keeps (now : Z) (root root' : option Node) (r : bool) :
  opt_nodes well_placed root = true ->
  Quadtree_prune_expired now root = Ok (r, root') ->
  forall x, x ∈ root_nodes root -> expired x now = false -> empty x = false ->
            x ∈ root_nodes root'.
Proof.
  destruct root as [n|]; simpl; [|by intros _ _ x ?%elem_of_nil].
  intros Hwp Hrun x Hx Hexp Hne.
  destruct (Node_prune_expired now n) as [[[r' n'] call]|] eqn:Hn; simpl in Hrun; [|done].
  injection Hrun as _ <-. by eapply Node_prune_expired_keeps.
Qed.

(** ** The invariant of the cache *)

Lemma cache_inv_new (now duration prio : Z) :
  cache_inv now (new_cache duration prio : Cache).
Proof.
  split; simpl; [done | constructor | constructor | | |].
  - intros pt. simpl. split; [by intros ?%elem_of_empty | by intros ?%elem_of_nil].
  - intros k pt. by rewrite lookup_empty.
  - intros x k ?%elem_of_nil. done.
Qed.

Lemma cache_inv_mono (now now' : Z) (c : Cache) :
  now <= now' -> cache_inv now c -> cache_inv now' c.
Proof.
  intros Hle [Hwp Hnd Hok Hreg Hkeys Hidx]. split; try done.
  - eapply Forall_impl; [done|]. intros x. by apply node_ok_mono.
  - intros k pt Hk. destruct (Hkeys k pt Hk) as (x & Hx & Hpt & Hor).
    exists x. split_and!; [done | done |]. destruct Hor; [by left | right; lia].
Qed.

(** What the invariant says of the node behind a live reference of the key
    index. *)
Lemma key_node_holds (now : Z) (c : Cache) (k : K) (path : list QuadrantIndex)
    (node : Node) :
  cache_inv now c -> key_node c k = Some (path, node) ->
  exists r,
    _tree c = Some r /\ node_at path r = Some node
    /\ strip node ∈ tree_nodes r
    /\ _key_nodes c !! k = Some (point node)
    /\ node_ok (next_eid c) now node
    /\ (is_Some (_data node !! k) \/ expiry node < now).
Proof.
  intros [Hwp Hnd Hok Hreg Hkeys Hidx] Hk.
  destruct (key_node_inv c k path node Hk) as (pt & r & Hpt & Hr & Hfind & Hnode).
  rewrite Hr in *. simpl in *.
  destruct (find_path_sound pt r path Hfind) as (m & Hm & Hpm).
  rewrite Hnode in Hm. injection Hm as <-.
  assert (Hin : strip node ∈ tree_nodes r)
    by (apply tree_nodes_node_at; by exists path, node).
  exists r. split_and!; [done | done | done | by rewrite Hpt, <- Hpm | |].
  - rewrite Forall_forall in Hok. exact (Hok _ Hin).
  - destruct (Hkeys k pt Hpt) as (x & Hx & Hxp & Hor).
    assert (x = strip node) as ->; [|done].
    eapply NoDup_points_eq; [done | done | done |]. by rewrite point_strip, Hxp.
Qed.

(** A dead or missing reference: no node holds the key. *)
Lemma key_node_None (now : Z) (c : Cache) (k : K) :
  cache_inv now c -> key_node c k = None ->
  _key_nodes c !! k = None
  /\ forall x, x ∈ root_nodes (_tree c) -> _data x !! k = None.
Proof.
  intros [Hwp Hnd Hok Hreg Hkeys Hidx] Hk.
  assert (Hnone : _key_nodes c !! k = None).
  { destruct (_key_nodes c !! k) as [pt|] eqn:Hpt; [|done]. exfalso.
    destruct (Hkeys k pt Hpt) as (x & Hx & Hxp & _).
    assert (Hlive : is_live (_tree c) pt = true).
    { apply is_live_points; [done|]. apply list_elem_of_fmap. by exists x. }
    unfold is_live in Hlive. apply bool_decide_eq_true in Hlive as [ref Href].
    unfold key_node in Hk. rewrite Hpt in Hk. simpl in Hk. congruence. }
  split; [done|]. intros x Hx.
  destruct (_data x !! k) as [e|] eqn:He; [|done].
  rewrite (Hidx x k Hx) in Hnone; [done|]. by rewrite He.
Qed.

(** The entry of a key, read off the list of the nodes. *)
Lemma stored_holds (now : Z) (c : Cache) (k : K) (pt : Point) (en : Entry) :
  cache_inv now c ->
  stored c k = Some (pt, en) <-> holds (root_nodes (_tree c)) k pt en.
Proof.
  intros Hinv. unfold stored. split.
  - destruct (key_node c k) as [[path node]|] eqn:Hk; [|done].
    destruct (key_node_holds now c k path node Hinv Hk) as (r & Hr & _ & Hin & _).
    destruct (_data node !! k) as [e|] eqn:He; [|done]. intros [= <- <-].
    exists (strip node). rewrite Hr. by split_and!.
  - intros (x & Hx & <- & He).
    pose proof (inv_indexed _ _ Hinv x k Hx) as Hpt. rewrite He in Hpt.
    specialize (Hpt (mk_is_Some _ _ eq_refl)).
    apply root_nodes_node_at in Hx as (path & m & Hm & ->).
    pose proof (deref_node _ path m (inv_placed _ _ Hinv) (inv_points _ _ Hinv) Hm) as Hd.
    unfold key_node. rewrite Hpt. simpl. rewrite point_strip, Hd.
    simpl in He. by rewrite He.
Qed.

Lemma stored_eq (now now' : Z) (c c' : Cache) (k : K) :
  cache_inv now c -> cache_inv now' c' ->
  (forall pt en, holds (root_nodes (_tree c')) k pt en
                 <-> holds (root_nodes (_tree c)) k pt en) ->
  stored c' k = stored c k.
Proof.
  intros Hinv Hinv' Hiff.
  destruct (stored c k) as [[pt en]|] eqn:Hs.
  - apply (stored_holds now' c' k pt en Hinv'), Hiff.
    by apply (stored_holds now c k pt en Hinv).
  - destruct (stored c' k) as [[pt en]|] eqn:Hs'; [|done].
    apply (stored_holds now' c' k pt en Hinv'), Hiff in Hs'.
    apply (stored_holds now c k pt en Hinv) in Hs'. congruence.
Qed.


Lemma forall_nodes_set_entries (X : Node -> bool) (d : gmap K Entry) (l : list Entry)
    (m : Node) :
  (forall n, X (set_entries d l n) = X n) ->
  forall_nodes X (set_entries d l m) = forall_nodes X m.
Proof. intros HX. rewrite !forall_nodes_unfold, HX. by destruct m. Qed.

(** The state after a method that rewrote the entries of the node at the
    end of [path] into [d] and [l]. *)
Lemma cache_inv_set_entries (now : Z) (c : Cache) (bound : nat)
    (path : list QuadrantIndex) (r m : Node) (d : gmap K Entry) (l : list Entry)
    (pts : gset Point) (kn : gmap K Point) :
  cache_inv now c -> _tree c = Some r -> node_at path r = Some m ->
  let m1 := set_entries d l m in
  let root' := graft path (Some m1) r in
  node_ok bound now m1 -> (next_eid c <= bound)%nat ->
  (forall pt, pt ∈ pts <-> pt ∈ _expiry_priority_nodes c) ->
  (forall k pt,
     kn !! k = Some pt ->
     (pt = point m /\ is_Some (d !! k))
     \/ (_key_nodes c !! k = Some pt
         /\ (is_Some (_data m !! k) -> is_Some (d !! k)))) ->
  (forall k, is_Some (d !! k) -> kn !! k = Some (point m)) ->
  (forall y k, y ∈ tree_nodes r -> point y <> point m -> is_Some (_data y !! k) ->
               kn !! k = _key_nodes c !! k) ->
  cache_inv now
    (mkCache (default_expiry_duration c) (default_priority c) root' pts kn
       (_context_expiry_duration c) (_context_priority c) bound)
  /\ forall k pt en,
       holds (root_nodes root') k pt en <->
       (pt = point m /\ d !! k = Some en)
       \/ (pt <> point m /\ holds (tree_nodes r) k pt en).
Proof.
  intros [Hwp Hnd Hok Hreg Hkeys Hidx] Hr Hm m1 root' Hm1 Hb Hpts Hkn Hd Hother.
  rewrite Hr in *. simpl in Hwp, Hnd, Hok, Hreg, Hkeys, Hidx.
  destruct (graft_set_entries_nodes path r m d l Hnd Hm) as (Hin & Hnd' & Hmod).
  fold m1 root' in Hnd', Hmod.
  assert (Hpt : point (strip m1) = point (strip m)) by by destruct m.
  split; [|intros k pt en; by apply (modified_holds (strip m) (strip m1))].
  split; simpl.
  - subst root'. eapply graft_well_placed; [done | done | |].
    + cbn [opt_nodes]. subst m1. rewrite well_placed_set_entries.
      by eapply forall_nodes_subtree.
    + intros g Hg. cbn [opt_nodes]. subst m1. by rewrite forall_nodes_set_entries.
  - done.
  - apply Forall_forall. intros y [->|[Hy _]]%Hmod.
    + by apply node_ok_strip.
    + rewrite Forall_forall in Hok. eapply node_ok_mono; [done | reflexivity |].
      by apply Hok.
  - intros pt. rewrite Hpts, (Hreg pt). symmetry.
    by apply (modified_points (strip m) (strip m1)).
  - apply (modified_keys_point now (strip m) (strip m1) (tree_nodes r) _ (_key_nodes c));
      [done | done | done | done | done |].
    intros k pt Hk. rewrite point_strip. by apply Hkn.
  - apply (modified_entries_indexed (strip m) (strip m1) (tree_nodes r) _ (_key_nodes c));
      [done | done | done | |].
    + intros k. rewrite point_strip. apply Hd.
    + intros y k. rewrite point_strip. apply Hother.
Qed.

(** The state after a method that took the entry of [k] out of the node at
    the end of [path] and ran [clean], once the dead references are swept
    and [k] is out of the key index. *)
Lemma cache_inv_removal (now : Z) (c : Cache) (path : list QuadrantIndex)
    (r m : Node) (k : K) (l : list Entry) (kn : gmap K Point) :
  cache_inv now c -> _tree c = Some r -> node_at path r = Some m ->
  is_Some (_data m !! k) ->
  let m1 := set_entries (delete k (_data m)) l m in
  let root' := graft path (clean_outcome m1) r in
  opt_nodes well_placed root' = true ->
  node_ok (next_eid c) now m1 ->
  (forall k' pt,
     kn !! k' = Some pt <->
     k' <> k /\ _key_nodes c !! k' = Some pt /\ pt ∈ point <$> root_nodes root') ->
  cache_inv now
    (mkCache (default_expiry_duration c) (default_priority c) root'
       (filter (fun pt => is_live root' pt) (_expiry_priority_nodes c)) kn
       (_context_expiry_duration c) (_context_priority c) (next_eid c))
  /\ forall k' pt en,
       holds (root_nodes root') k' pt en <-> k' <> k /\ holds (tree_nodes r) k' pt en.
Proof.
  intros [Hwp Hnd Hok Hreg Hkeys Hidx] Hr Hm Hk m1 root' Hwp' Hm1 Hkn.
  rewrite Hr in *. simpl in Hwp, Hnd, Hok, Hreg, Hkeys, Hidx.
  destruct (graft_clean_nodes path r m (delete k (_data m)) l Hnd Hm)
    as (Hin & Hnd' & Hcases).
  fold m1 root' in Hnd', Hcases.
  assert (Hpt : point (strip m1) = point (strip m)) by by destruct m.
  rewrite Forall_forall in Hok.
  assert (Hkeep : forall y, y ∈ tree_nodes r -> point y <> point (strip m) ->
                            y ∈ root_nodes root').
  { intros y Hy Hne. destruct Hcases as [Hmod|[_ Hrem]];
      [apply Hmod; by right | by apply Hrem]. }
  assert (Hother : forall y k', y ∈ tree_nodes r -> point y <> point (strip m) ->
                     is_Some (_data y !! k') -> kn !! k' = _key_nodes c !! k').
  { intros y k' Hy Hne Hk'. rewrite (Hidx y k' Hy Hk'). apply Hkn. split_and!.
    - intros ->. apply Hne.
      pose proof (Hidx y k Hy Hk') as H1.
      pose proof (Hidx (strip m) k Hin Hk) as H2. congruence.
    - by apply Hidx.
    - apply list_elem_of_fmap_2. by apply Hkeep. }
  split; [split; simpl|].
  - done.
  - done.
  - apply Forall_forall. intros y Hy.
    destruct Hcases as [Hmod|[_ Hrem]].
    + apply Hmod in Hy as [->|[Hy _]]; [done | by apply Hok].
    + apply Hrem in Hy as [Hy _]. by apply Hok.
  - apply (registered_sweep root' (tree_nodes r)); [done | done |].
    destruct Hcases as [Hmod|[_ Hrem]].
    + intros pt ?.
      by apply (modified_points (strip m) (strip m1) (tree_nodes r) (root_nodes root')
                  Hin Hpt Hmod pt).
    + by apply (removed_points (strip m)).
  - destruct Hcases as [Hmod|[_ Hrem]].
    + apply (modified_keys_point now (strip m) (strip m1) (tree_nodes r) _ (_key_nodes c));
        [done | done | done | done | done |].
      intros k' pt (Hne & Hold & _)%Hkn. right. split; [done|].
      simpl. by rewrite lookup_delete_ne.
    + apply (removed_keys_point now (strip m) (tree_nodes r) _ (_key_nodes c));
        [done | done |].
      intros k' pt (Hne & Hold & Hlive)%Hkn. split; [done|].
      apply list_elem_of_fmap in Hlive as (y & -> & Hy). by apply Hrem in Hy as [_ ?].
  - destruct Hcases as [Hmod|[_ Hrem]].
    + apply (modified_entries_indexed (strip m) (strip m1) (tree_nodes r) _ (_key_nodes c));
        [done | done | done | | done].
      intros k' Hk'. simpl in Hk'. apply Hkn.
      assert (k' <> k) by (intros ->; by rewrite lookup_delete_eq in Hk'; destruct Hk').
      rewrite lookup_delete_ne in Hk' by done.
      split_and!; [done | by apply (Hidx (strip m)) |].
      rewrite <- Hpt. apply list_elem_of_fmap_2. apply Hmod. by left.
    + by apply (removed_entries_indexed (strip m) (tree_nodes r) _ (_key_nodes c)).
  - intros k' pt en.
    assert (Hk_at : forall pt' en', holds (tree_nodes r) k pt' en' -> pt' = point (strip m)).
    { intros pt' en' (y & Hy & <- & He).
      pose proof (Hidx y k Hy) as H1. rewrite He in H1.
      pose proof (Hidx (strip m) k Hin Hk) as H2.
      specialize (H1 (mk_is_Some _ _ eq_refl)). congruence. }
    destruct Hcases as [Hmod|[-> Hrem]].
    + rewrite (modified_holds (strip m) (strip m1) _ _ k' pt en Hpt Hmod). simpl.
      rewrite lookup_delete_Some. split.
      * intros [(-> & Hne & He)|[Hne Hh]].
        -- split; [done|]. by apply (holds_at _ (strip m)).
        -- split; [|done]. intros ->. by apply Hne, (Hk_at pt en).
      * intros [Hne Hh]. destruct (decide (pt = point (strip m))) as [->|Hpm].
        -- left. split_and!; [done | done |]. by apply (holds_at _ (strip m)) in Hh.
        -- by right.
    + rewrite (removed_holds (strip m) _ _ k' pt en Hrem). split.
      * intros [Hne Hh]. split; [|done]. intros ->. by apply Hne, (Hk_at pt en).
      * intros [Hne Hh]. split; [|done]. intros ->.
        apply (holds_at _ (strip m)) in Hh; [|done | done].
        destruct Hm1 as [[Hd _] _]. simpl in Hd.
        destruct (Hd k' en) as (_ & Hnil & _); [by rewrite lookup_delete_ne|].
        by apply elem_of_nil in Hnil.
Qed.

(** ** The operations of the cache under the invariant *)

Lemma at_path_raises {A : Type} (path : list QuadrantIndex)
    (f : Node -> result (A * Node * ParentCall)) (n m : Node) (e : exn) :
  node_at path n = Some m -> f m = Raise e -> at_path path f n = Raise e.
Proof.
  revert n. induction path as [|q path IH]; intros n Hm Hf; simpl in *.
  - by simplify_eq.
  - destruct (quadrants n q) as [c|]; simpl in *; [|done].
    by rewrite (IH c Hm Hf).
Qed.

Lemma cache_inv_context (now prio duration : Z) (c : Cache) :
  cache_inv now c -> cache_inv now (set_context prio duration c).
Proof. by intros []. Qed.

(** Forgetting the reference of a key that no node holds. *)
Lemma cache_inv_forget (now : Z) (c : Cache) (k : K) :
  cache_inv now c ->
  (forall x, x ∈ root_nodes (_tree c) -> _data x !! k = None) ->
  cache_inv now (set_key_nodes (delete k (_key_nodes c)) c).
Proof.
  intros [Hwp Hnd Hok Hreg Hkeys Hidx] Hk. split; simpl; try done.
  - intros k' pt [_ Hk']%lookup_delete_Some. by apply Hkeys.
  - intros x k' Hx Hk'. rewrite lookup_delete_ne; [by apply Hidx|].
    intros ->. rewrite (Hk x Hx) in Hk'. by destruct Hk'.
Qed.

(** [get] on a key whose node has not expired. *)
Lemma Cache_getitem_returns (k : K) (now : Z) (c : Cache)
    (path : list QuadrantIndex) (node : Node) :
  cache_inv now c -> key_node c k = Some (path, node) -> ~ expiry node < now ->
  exists e c',
    _data node !! k = Some e
    /\ Cache_getitem k now c = Ok (value e, c')
    /\ cache_inv now c'
    /\ stored c' k = Some (point node, mkEntry (next_eid c) now k (value e))
    /\ forall k', k' <> k -> stored c' k' = stored c k'.
Proof.
  intros Hinv Hk Hexp.
  destruct (key_node_holds now c k path node Hinv Hk)
    as (r & Hr & Hnode & Hin & Hkn & Hok & [[e He]|?]); [|done].
  destruct (remove_entry_consistent node k e (proj1 Hok) He) as (i & Hi & Hrem).
  set (entry := mkEntry (next_eid c) now k (value e)).
  set (d := <[k := entry]> (delete k (_data node))).
  set (l := delete i (_lru_queue node) ++ [entry]).
  assert (Hacc : access_entry k now (next_eid c) node
                 = Ok (value e, set_entries d l node)).
  { unfold access_entry, delete_entry. rewrite He, Hrem. simpl.
    by rewrite add_entry_set_entries. }
  set (c' := bump_eid (set_tree (graft path (Some (set_entries d l node)) r) c)).
  destruct (cache_inv_set_entries now c (S (next_eid c)) path r node d l
              (_expiry_priority_nodes c) (_key_nodes c) Hinv Hr Hnode)
    as [Hinv' Hholds].
  { subst d l entry. rewrite <- add_entry_set_entries.
    apply node_ok_add; [by apply (node_ok_remove _ _ _ _ e) | simpl; apply lookup_delete_eq]. }
  { lia. }
  { done. }
  { intros k' pt Hk'. right. split; [done|]. intros Hin'. subst d.
    destruct (decide (k' = k)) as [->|Hne]; [by rewrite lookup_insert_eq|].
    by rewrite lookup_insert_ne, lookup_delete_ne. }
  { intros k' Hk'. subst d. destruct (decide (k' = k)) as [->|Hne]; [done|].
    rewrite lookup_insert_ne, lookup_delete_ne in Hk' by done.
    pose proof (inv_indexed _ _ Hinv) as Hidx. rewrite Hr in Hidx.
    by apply (Hidx (strip node) k' Hin). }
  { done. }
  change (cache_inv now c') in Hinv'.
  exists e, c'. split_and!; [done | | done | |].
  - unfold Cache_getitem. rewrite Hk.
    assert (expired node now = false) as -> by (by apply Z.ltb_ge; lia).
    rewrite Hr.
    rewrite (Quadtree_at_nocall path _ r node (set_entries d l node) (value e) Hnode);
      [done|]. by rewrite Hacc.
  - apply (stored_holds now c' k _ _ Hinv'). apply Hholds. left. split; [done|].
    subst d. by rewrite lookup_insert_eq.
  - intros k' Hne. apply (stored_eq now now c c' k' Hinv Hinv'). intros pt en.
    rewrite Hr. simpl. rewrite Hholds. subst d.
    rewrite lookup_insert_ne, lookup_delete_ne by done.
    symmetry. apply (holds_split (tree_nodes r) (strip node)); [|done].
    pose proof (inv_points _ _ Hinv) as Hnd. by rewrite Hr in Hnd.
Qed.

(** [del] on a key that its node holds. *)
Lemma Cache_delitem_returns (k : K) (now : Z) (c : Cache)
    (path : list QuadrantIndex) (node : Node) :
  cache_inv now c -> key_node c k = Some (path, node) ->
  is_Some (_data node !! k) ->
  exists c',
    Cache_delitem k c = Ok c'
    /\ cache_inv now c'
    /\ key_node c' k = None
    /\ (forall k', k' <> k -> stored c' k' = stored c k')
    /\ next_eid c' = next_eid c
    /\ _context_expiry_duration c' = _context_expiry_duration c
    /\ _context_priority c' = _context_priority c
    /\ default_expiry_duration c' = default_expiry_duration c
    /\ default_priority c' = default_priority c.
Proof.
  intros Hinv Hk [e He].
  destruct (key_node_holds now c k path node Hinv Hk)
    as (r & Hr & Hnode & Hin & Hkn & Hok & _).
  destruct (remove_entry_consistent node k e (proj1 Hok) He) as (i & Hi & Hrem).
  set (m1 := set_entries (delete k (_data node)) (delete i (_lru_queue node)) node).
  set (f := fun n : Node => '(n', call) ← delete_entry k true n; Ok (tt, n', call)).
  assert (Hf : f node = Ok (tt, (clean m1).1, (clean m1).2)).
  { unfold f, delete_entry. rewrite Hrem. simpl. by destruct (clean _). }
  assert (Hkp : keeps_points node (clean m1).1 (clean m1).2).
  { apply keeps_points_clean; [by destruct node | by destruct node |].
    intros q. apply quadrants_set_entries. }
  pose proof (inv_placed _ _ Hinv) as Hwp. rewrite Hr in Hwp. simpl in Hwp.
  pose proof (Quadtree_at_graft path f r node _ _ _ Hwp Hnode Hf Hkp) as Hat.
  fold (clean_outcome m1) in Hat.
  set (root' := graft path (clean_outcome m1) r) in *.
  assert (Hwp' : opt_nodes well_placed root' = true).
  { eapply (Quadtree_at_well_placed path f (Some r)); [|done | done].
    apply entry_op_delete_entry. }
  set (c' := sweep (set_tree root' (set_key_nodes (delete k (_key_nodes c)) c))).
  assert (Hdel : Cache_delitem k c = Ok c').
  { unfold Cache_delitem. rewrite Hk. simpl _tree. rewrite Hr.
    fold f. by rewrite Hat. }
  destruct (cache_inv_removal now c path r node k (delete i (_lru_queue node))
              (_key_nodes c') Hinv Hr Hnode) as [Hinv' Hholds];
    [done | done | by apply (node_ok_remove _ _ _ _ e) | |].
  { intros k' pt. subst c'. simpl. rewrite lookup_sweep by done.
    rewrite lookup_delete_Some. intuition congruence. }
  change (cache_inv now c') in Hinv'.
  exists c'. split_and!; try done.
  - unfold key_node. subst c'. simpl.
    rewrite map_lookup_filter, lookup_delete_eq. done.
  - intros k' Hne. apply (stored_eq now now c c' k' Hinv Hinv'). intros pt en.
    rewrite Hr. change (_tree c') with root'. cbn [root_nodes].
    subst root' m1. rewrite Hholds. tauto.
Qed.

(** [del] on a key whose node has lost it: the reference is popped, then
    [delete_entry] raises. *)
Lemma Cache_delitem_stale (k : K) (now : Z) (c : Cache)
    (path : list QuadrantIndex) (node : Node) :
  cache_inv now c -> key_node c k = Some (path, node) ->
  _data node !! k = None ->
  Cache_delitem k c = Raise KeyError
  /\ expiry node < now
  /\ cache_inv now (set_key_nodes (delete k (_key_nodes c)) c).
Proof.
  intros Hinv Hk He.
  destruct (key_node_holds now c k path node Hinv Hk)
    as (r & Hr & Hnode & Hin & Hkn & Hok & Hor).
  split_and!.
  - unfold Cache_delitem. rewrite Hk. simpl _tree. rewrite Hr. unfold Quadtree_at.
    rewrite (at_path_raises path _ r node KeyError Hnode); [done|].
    unfold delete_entry, remove_entry. by rewrite He.
  - destruct Hor as [[? ?]|?]; [congruence | done].
  - apply cache_inv_forget; [done|]. intros x Hx.
    destruct (_data x !! k) as [e|] eqn:Hxk; [|done]. exfalso.
    pose proof (inv_indexed _ _ Hinv x k Hx) as Hpt. rewrite Hxk in Hpt.
    specialize (Hpt (mk_is_Some _ _ eq_refl)).
    rewrite Hr in Hx. simpl in Hx.
    assert (x = strip node) as ->.
    { eapply NoDup_points_eq; [| done | done |].
      - pose proof (inv_points _ _ Hinv) as Hnd. by rewrite Hr in Hnd.
      - rewrite point_strip. congruence. }
    simpl in Hxk. congruence.
Qed.

(** The state after [Quadtree.insert] at a point that no node has, the point
    being registered. *)
Lemma cache_inv_insert (now : Z) (c : Cache) (p e : Z) :
  cache_inv now c -> (e, p) ∉ point <$> root_nodes (_tree c) ->
  cache_inv now
    (set_points ({[ (e, p) ]} ∪ _expiry_priority_nodes c)
       (set_tree (Quadtree_insert p e (_tree c)).1 c))
  /\ forall k pt en,
       holds (root_nodes (Quadtree_insert p e (_tree c)).1) k pt en
       <-> holds (root_nodes (_tree c)) k pt en.
Proof.
  intros [Hwp Hnd Hok Hreg Hkeys Hidx] Hfresh.
  destruct (Quadtree_insert_nodes p e (_tree c)) as [Hperm _].
  assert (Hin : forall y, y ∈ root_nodes (Quadtree_insert p e (_tree c)).1
                          <-> y = new_node e p \/ y ∈ root_nodes (_tree c)).
  { intros y. by rewrite Hperm, elem_of_cons. }
  split; [split; simpl|].
  - eapply tree_step_well_placed; [apply step_insert | done].
  - rewrite Hperm, fmap_cons. by apply NoDup_cons.
  - rewrite Hperm. apply Forall_cons. split; [apply node_ok_new | done].
  - intros pt. rewrite elem_of_union, elem_of_singleton, (Hreg pt), Hperm, fmap_cons,
      elem_of_cons. done.
  - intros k pt Hk. destruct (Hkeys k pt Hk) as (x & Hx & Hpt & Hor).
    exists x. split_and!; [apply Hin; by right | done | done].
  - intros x k [->|Hx]%Hin Hk; [|by apply Hidx].
    simpl in Hk. rewrite lookup_empty in Hk. by destruct Hk.
  - intros k pt en. split.
    + intros (x & [->|Hx]%Hin & Hpt & He); [simpl in He; by rewrite lookup_empty in He|].
      by exists x.
    + intros (x & Hx & Hpt & He). exists x. split_and!; [apply Hin; by right | done | done].
Qed.

(** The state after [add_entry] of a key that has no live reference, on the
    node at the end of [path]. *)
Lemma cache_inv_add (now : Z) (c : Cache) (r m : Node) (path : list QuadrantIndex)
    (k : K) (v : V) (pts : gset Point) :
  cache_inv now c -> _tree c = Some r -> node_at path r = Some m ->
  key_node c k = None ->
  (forall pt, pt ∈ pts <-> pt ∈ _expiry_priority_nodes c) ->
  let m' := add_entry k v now (next_eid c) m in
  let root' := graft path (Some m') r in
  let c' := mkCache (default_expiry_duration c) (default_priority c) root' pts
              (<[k := point m]> (_key_nodes c))
              (_context_expiry_duration c) (_context_priority c) (S (next_eid c)) in
  Quadtree_at path (fun n => Ok (tt, add_entry k v now (next_eid c) n, NoCall)) (Some r)
  = Ok (tt, root')
  /\ cache_inv now c'
  /\ key_node c' k = Some (path, m')
  /\ _data m !! k = None
  /\ forall k' pt en,
       k' <> k ->
       holds (root_nodes root') k' pt en <-> holds (tree_nodes r) k' pt en.
Proof.
  intros Hinv Hr Hm Hk Hpts m' root' c'.
  destruct (key_node_None now c k Hinv Hk) as [Hkn Hnone].
  assert (Hin : strip m ∈ tree_nodes r) by (apply tree_nodes_node_at; by exists path, m).
  assert (Hmk : _data m !! k = None).
  { apply (Hnone (strip m)). by rewrite Hr. }
  assert (Hok : node_ok (next_eid c) now m).
  { pose proof (inv_nodes _ _ Hinv) as Hall. rewrite Hr, Forall_forall in Hall.
    exact (Hall _ Hin). }
  assert (Hinv' : cache_inv now c'
            /\ forall k' pt en,
                 holds (root_nodes root') k' pt en <->
                 (pt = point m
                  /\ <[k := mkEntry (next_eid c) now k v]> (_data m) !! k' = Some en)
                 \/ (pt <> point m /\ holds (tree_nodes r) k' pt en)).
  { apply (cache_inv_set_entries now c (S (next_eid c)) path r m
             (<[k := mkEntry (next_eid c) now k v]> (_data m))
             (_lru_queue m ++ [mkEntry (next_eid c) now k v])
             pts (<[k := point m]> (_key_nodes c)) Hinv Hr Hm).
    - by apply node_ok_add.
    - lia.
    - done.
    - intros k' pt. destruct (decide (k' = k)) as [->|Hne].
      + rewrite lookup_insert_eq. intros [= <-]. left. by rewrite lookup_insert_eq.
      + rewrite lookup_insert_ne by done. intros Hk'. right. split; [done|].
        by rewrite lookup_insert_ne.
    - intros k'. destruct (decide (k' = k)) as [->|Hne].
      + by rewrite !lookup_insert_eq.
      + rewrite !lookup_insert_ne by done. intros Hk'.
        pose proof (inv_indexed _ _ Hinv) as Hidx. rewrite Hr in Hidx.
        by apply (Hidx (strip m) k' Hin).
    - intros y k' Hy _ Hk'. rewrite lookup_insert_ne; [done|].
      intros ->. rewrite (Hnone y) in Hk'; [by destruct Hk' | by rewrite Hr]. }
  destruct Hinv' as [Hinv' Hholds].
  split_and!; [| done | | done |].
  - by apply (Quadtree_at_nocall path _ r m m' tt Hm).
  - unfold key_node. simpl. rewrite lookup_insert_eq. simpl.
    change (point m) with (point m').
    apply deref_node; [apply (inv_placed _ _ Hinv') | apply (inv_points _ _ Hinv') |].
    by apply (node_at_graft path r m m').
  - intros k' pt en Hne. rewrite Hholds, lookup_insert_ne by done.
    symmetry. apply (holds_split (tree_nodes r) (strip m)); [|done].
    pose proof (inv_points _ _ Hinv) as Hnd. by rewrite Hr in Hnd.
Qed.

Lemma stored_key_node (c : Cache) (k : K) (path : list QuadrantIndex) (node : Node)
    (en : Entry) :
  key_node c k = Some (path, node) -> _data node !! k = Some en ->
  stored c k = Some (point node, en).
Proof. intros Hk He. unfold stored. by rewrite Hk, He. Qed.

(** [set] of a key that has no live reference. *)
Lemma Cache_setitem_fresh (k : K) (v : V) (now : Z) (c : Cache) :
  cache_inv now c -> key_node c k = None ->
  let e := now + _context_expiry_duration c in
  let p := _context_priority c in
  exists root path m root',
    match point_node c (e, p) with
    | Some (path, _) => (_tree c, path)
    | None => Quadtree_insert p e (_tree c)
    end = (root, path)
    /\ root ≫= node_at path = Some m /\ point m = (e, p) /\ _data m !! k = None
    /\ Quadtree_at path (fun n => Ok (tt, add_entry k v now (next_eid c) n, NoCall)) root
       = Ok (tt, root')
    /\ let c' := bump_eid
                   (set_points ({[ (e, p) ]} ∪ _expiry_priority_nodes c)
                      (set_key_nodes (<[k := (e, p)]> (_key_nodes c))
                         (set_tree root' c))) in
       cache_inv now c'
       /\ key_node c' k = Some (path, add_entry k v now (next_eid c) m)
       /\ forall k', k' <> k -> stored c' k' = stored c k'.
Proof.
  intros Hinv Hk e p.
  destruct (point_node c (e, p)) as [[path m]|] eqn:Hpn.
  - unfold point_node in Hpn. destruct (decide _) as [Hpt|]; [|done].
    destruct (deref_sound _ _ _ _ Hpn) as (Hm & Hpm & _).
    destruct (_tree c) as [r|] eqn:Hr; [|done]. simpl in Hm.
    destruct (cache_inv_add now c r m path k v
                ({[ (e, p) ]} ∪ _expiry_priority_nodes c) Hinv Hr Hm Hk)
      as (Hat & Hinv' & Hk' & Hmk & Hholds).
    { intros pt. rewrite elem_of_union, elem_of_singleton. split; [|by right].
      intros [->|?]; done. }
    exists (Some r), path, m, (graft path (Some (add_entry k v now (next_eid c) m)) r).
    rewrite Hpm in *. split_and!; try done. cbn zeta. split_and!; try done.
    intros k' Hne. eapply (stored_eq now now c _ k' Hinv Hinv'). intros pt en.
    rewrite Hr. by apply Hholds.
  - assert (Hfresh : (e, p) ∉ point <$> root_nodes (_tree c)).
    { intros Hin. unfold point_node in Hpn.
      destruct (decide _) as [Hpt|Hpt].
      - apply (is_live_points _ _ (inv_placed _ _ Hinv)) in Hin.
        unfold is_live in Hin. apply bool_decide_eq_true in Hin as [? Hin]. congruence.
      - by apply (inv_registered _ _ Hinv) in Hin. }
    destruct (cache_inv_insert now c p e Hinv Hfresh) as [Hinv2 Hholds2].
    destruct (Quadtree_insert_nodes p e (_tree c)) as [_ Hat].
    destruct (Quadtree_insert p e (_tree c)) as [root path] eqn:Hins. simpl in *.
    destruct root as [r|]; [|done]. simpl in Hat.
    set (c2 := set_points ({[ (e, p) ]} ∪ _expiry_priority_nodes c)
                 (set_tree (Some r) c)) in *.
    assert (Hk2 : key_node c2 k = None).
    { destruct (key_node_None now c k Hinv Hk) as [Hkn _].
      unfold key_node. simpl. by rewrite Hkn. }
    destruct (cache_inv_add now c2 r (new_node e p) path k v
                ({[ (e, p) ]} ∪ _expiry_priority_nodes c) Hinv2 eq_refl Hat Hk2)
      as (Hat' & Hinv' & Hk' & Hmk & Hholds); [done|].
    exists (Some r), path, (new_node e p),
      (graft path (Some (add_entry k v now (next_eid c) (new_node e p))) r).
    split_and!; try done.
    intros k' Hne. eapply (stored_eq now now c _ k' Hinv Hinv'). intros pt en.
    etrans; [apply (Hholds k' pt en Hne) | apply Hholds2].
Qed.

(** [set] under the invariant: it returns unless the duration of the context
    is not positive or the key has a reference to a node that lost it. *)
Lemma Cache_setitem_returns (k : K) (v : V) (now : Z) (c : Cache) :
  cache_inv now c -> 0 < _context_expiry_duration c ->
  (forall path node, key_node c k = Some (path, node) -> is_Some (_data node !! k)) ->
  exists c' path m,
    Cache_setitem k v now c = Ok c'
    /\ cache_inv now c'
    /\ point m = (now + _context_expiry_duration c, _context_priority c)
    /\ _data m !! k = None
    /\ key_node c' k = Some (path, add_entry k v now (next_eid c) m)
    /\ (forall k', k' <> k -> stored c' k' = stored c k')
    /\ _context_expiry_duration c' = _context_expiry_duration c
    /\ _context_priority c' = _context_priority c
    /\ default_expiry_duration c' = default_expiry_duration c
    /\ default_priority c' = default_priority c.
Proof.
  intros Hinv Hd Hheld. unfold Cache_setitem.
  assert (negb (now + _context_expiry_duration c >? now) = false) as ->.
  { apply negb_false_iff. apply Z.gtb_lt. lia. }
  assert (Hdel : exists c1,
            (if bool_decide (is_Some (key_node c k)) then Cache_delitem k c else Ok c)
            = Ok c1
            /\ cache_inv now c1 /\ key_node c1 k = None
            /\ (forall k', k' <> k -> stored c1 k' = stored c k')
            /\ next_eid c1 = next_eid c
            /\ _context_expiry_duration c1 = _context_expiry_duration c
            /\ _context_priority c1 = _context_priority c
            /\ default_expiry_duration c1 = default_expiry_duration c
            /\ default_priority c1 = default_priority c).
  { destruct (key_node c k) as [[path node]|] eqn:Hk.
    - rewrite bool_decide_eq_true_2 by done.
      destruct (Cache_delitem_returns k now c path node Hinv Hk (Hheld _ _ eq_refl))
        as (c1 & Hdel & Hinv1 & Hk1 & Hst & Heid & Hcd & Hcp & Hdd & Hdp).
      exists c1. by split_and!.
    - rewrite bool_decide_eq_false_2 by (by intros [? ?]).
      exists c. by split_and!. }
  destruct Hdel as (c1 & -> & Hinv1 & Hk1 & Hst1 & Heid & Hcd & Hcp & Hdd & Hdp).
  cbn [mbind result_bind].
  destruct (Cache_setitem_fresh k v now c1 Hinv1 Hk1)
    as (root & path & m & root' & Hsel & Hm & Hpm & Hmk & Hat & Hinv' & Hk' & Hst).
  rewrite Hcd, Hcp in Hsel, Hpm, Hinv', Hk', Hst. rewrite Hsel, Hat.
  cbn [mbind result_bind].
  eexists _, path, m. split; [done|]. rewrite <- Heid.
  split_and!; try done.
  intros k' Hne. by rewrite Hst, Hst1.
Qed.

(** ** [evict] under the invariant *)

Lemma point_cleared (now : Z) (x : Node) : point (cleared now x) = point x.
Proof. unfold cleared. by destruct (expired x now). Qed.

Lemma tree_entries_eq (n : Node) :
  tree_entries n =
  _lru_queue n ++ root_entries (quadrants n ONE) ++ root_entries (quadrants n TWO)
              ++ root_entries (quadrants n THREE) ++ root_entries (quadrants n FOUR).
Proof. by destruct n. Qed.

(** The entries of a tree are those of the queues of its nodes. *)
Lemma tree_entries_nodes (n : Node) :
  tree_entries n = concat (_lru_queue <$> tree_nodes n).
Proof.
  induction n as [n IH] using Node_tree_ind.
  assert (Hs : forall q, root_entries (quadrants n q)
                         = concat (_lru_queue <$> root_nodes (quadrants n q))).
  { intros q. destruct (quadrants n q) as [c|] eqn:Hq; [by apply (IH q) | done]. }
  rewrite tree_entries_eq, tree_nodes_eq, fmap_cons, !fmap_app, concat_cons.
  by rewrite !concat_app, !Hs.
Qed.

Lemma root_entries_nodes (root : option Node) :
  root_entries root = concat (_lru_queue <$> root_nodes root).
Proof. destruct root as [r|]; [apply tree_entries_nodes | done]. Qed.

Lemma elem_of_concat {A : Type} (x : A) (ls : list (list A)) :
  x ∈ concat ls <-> exists l, x ∈ l /\ l ∈ ls.
Proof.
  induction ls as [|l ls IH]; simpl.
  - split; [by intros ?%elem_of_nil | by intros (? & _ & ?%elem_of_nil)].
  - rewrite elem_of_app, IH. split.
    + intros [?|(l' & ? & ?)]; [exists l; split; [done | by left]|].
      exists l'. split; [done | by right].
    + intros (l' & ? & [->|?]%elem_of_cons); [by left | right; by exists l'].
Qed.

Lemma concat_sublist_full {A B : Type} (f : A -> list B) (l1 l2 : list A) :
  sublist l1 l2 -> NoDup l2 ->
  (forall x, x ∈ l2 -> f x <> [] -> x ∈ l1) ->
  concat (f <$> l1) = concat (f <$> l2).
Proof.
  induction 1 as [|x l1 l2 Hs IH|x l1 l2 Hs IH]; intros Hnd Hall.
  - done.
  - apply NoDup_cons in Hnd as [Hx Hnd]. simpl. f_equal. apply IH; [done|].
    intros y Hy Hfy.
    assert (Hin : y ∈ x :: l1) by (apply Hall; [by right | done]).
    apply elem_of_cons in Hin as [->|?]; done.
  - apply NoDup_cons in Hnd as [Hx Hnd]. simpl.
    assert (f x = []) as ->.
    { destruct (f x) eqn:Hfx; [done|]. exfalso. apply Hx.
      eapply elem_of_sublist; [|done]. apply Hall; [by left | by rewrite Hfx]. }
    simpl. apply IH; [done|].
    intros y Hy Hfy. apply Hall; [by right | done].
Qed.

(** A node that holds an entry has a queue that is not empty. *)
Lemma node_ok_nonempty (bound : nat) (now : Z) (x : Node) (k : K) (en : Entry) :
  node_ok bound now x -> _data x !! k = Some en ->
  key en = k /\ en ∈ _lru_queue x /\ empty x = false.
Proof.
  intros [[Hd _] _] He. destruct (Hd k en He) as (Hkey & Hin & _).
  split_and!; [done | done |]. unfold empty.
  destruct (_lru_queue x); [by apply elem_of_nil in Hin | done].
Qed.

(** The state after [prune_expired] and the sweep of the dead references. *)
Lemma cache_inv_pruned (now : Z) (c : Cache) (r : bool) (root1 : option Node) :
  cache_inv now c ->
  Quadtree_prune_expired now (_tree c) = Ok (r, root1) ->
  cache_inv now (sweep (set_tree root1 c))
  /\ (forall k pt en,
        holds (root_nodes root1) k pt en <->
        holds (root_nodes (_tree c)) k pt en /\ ~ pt.1 < now)
  /\ (r = true <->
      exists k pt en, holds (root_nodes (_tree c)) k pt en /\ pt.1 < now).
Proof.
  intros Hinv Hrun. pose proof Hinv as [Hwp Hnd Hok Hreg Hkeys Hidx].
  destruct (Quadtree_prune_expired_spec now (_tree c) Hwp)
    as (r' & root1' & Hpe & _ & Hwp1 & _ & Hsube & Hflag & Hsub).
  rewrite Hrun in Hpe. injection Hpe as <- <-.
  pose proof (Quadtree_prune_expired_keeps now _ _ _ Hwp Hrun) as Hkeep.
  assert (Hfrom : forall y, y ∈ root_nodes root1 ->
            exists x, x ∈ root_nodes (_tree c) /\ y = cleared now x).
  { intros y Hy. eapply elem_of_sublist in Hy; [|done].
    apply list_elem_of_fmap in Hy as (x & -> & Hx). by exists x. }
  assert (Hpts : point <$> (cleared now <$> root_nodes (_tree c))
                 = point <$> root_nodes (_tree c)).
  { rewrite <- list_fmap_compose. apply map_ext. intros x. apply point_cleared. }
  assert (Hsubp : forall pt, pt ∈ point <$> root_nodes root1 ->
                             pt ∈ point <$> root_nodes (_tree c)).
  { intros pt (y & -> & Hy)%list_elem_of_fmap.
    destruct (Hfrom y Hy) as (x & Hx & ->). rewrite point_cleared.
    by apply list_elem_of_fmap_2. }
  rewrite Forall_forall in Hok.
  assert (Hholds : forall k pt en,
            holds (root_nodes root1) k pt en <->
            holds (root_nodes (_tree c)) k pt en /\ ~ pt.1 < now).
  { intros k pt en. split.
    - intros (y & Hy & <- & He). destruct (Hfrom y Hy) as (x & Hx & ->).
      unfold cleared in *.
      destruct (expired x now) eqn:Hexp; [simpl in He; by rewrite lookup_empty in He|].
      apply Z.ltb_ge in Hexp. split; [by exists x | simpl; lia].
    - intros [(x & Hx & <- & He) Hexp]. exists x. split_and!; [|done | done].
      destruct (node_ok_nonempty _ _ x k en (Hok x Hx) He) as (_ & _ & Hne).
      apply Hkeep; [done | | done]. apply Z.ltb_ge. simpl in Hexp. lia. }
  split_and!.
  - split; simpl.
    + done.
    + eapply sublist_NoDup; [|by apply fmap_sublist]. by rewrite Hpts.
    + apply Forall_forall. intros y (x & Hx & ->)%Hfrom. unfold cleared.
      destruct (expired x now); [apply node_ok_clear | by apply Hok].
    + by apply (registered_sweep root1 (root_nodes (_tree c))).
    + intros k pt [Hk Hlive]%lookup_sweep; [|done].
      apply list_elem_of_fmap in Hlive as (y & -> & Hy).
      destruct (Hfrom y Hy) as (x & Hx & ->).
      exists (cleared now x). split_and!; [done | done |].
      destruct (Hkeys k _ Hk) as (x0 & Hx0 & Hpt0 & Hor).
      rewrite point_cleared in Hpt0.
      assert (x0 = x) as -> by by eapply NoDup_points_eq.
      unfold cleared. destruct (expired x now) eqn:Hexp; [|done].
      right. simpl. by apply Z.ltb_lt.
    + intros y k Hy Hk. destruct (Hfrom y Hy) as (x & Hx & ->).
      apply lookup_sweep; [done|]. split; [|by apply list_elem_of_fmap_2].
      rewrite point_cleared. apply (Hidx x k Hx).
      unfold cleared in Hk. destruct (expired x now); [|done].
      simpl in Hk. rewrite lookup_empty in Hk. by destruct Hk.
  - done.
  - rewrite Hflag. split.
    + (* an entry went away: it sat in an expired node *)
      intros Hlt.
      destruct (decide (Exists (fun x => expired x now = true /\ _lru_queue x <> [])
                          (root_nodes (_tree c)))) as [Hex|Hnex].
      * apply Exists_exists in Hex as (x & Hx & Hexp & Hq).
        destruct (_lru_queue x) as [|e l] eqn:Hl; [done|].
        destruct (Hok x Hx) as [_ Hall]. rewrite Hl in Hall.
        apply Forall_cons in Hall as [[He _] _].
        exists (key e), (point x), e. split; [by exists x|]. by apply Z.ltb_lt.
      * exfalso. rewrite <- Forall_Exists_neg, Forall_forall in Hnex.
        rewrite !root_entries_nodes in Hlt.
        rewrite (concat_sublist_full _lru_queue (root_nodes root1)
                   (cleared now <$> root_nodes (_tree c))) in Hlt.
        -- assert (_lru_queue <$> (cleared now <$> root_nodes (_tree c))
                   = _lru_queue <$> root_nodes (_tree c)) as Heq; [|rewrite Heq in Hlt; lia].
           rewrite <- list_fmap_compose. apply list_eq_Forall2, Forall2_fmap, Forall_Forall2_diag.
           apply Forall_forall. intros x Hx. simpl. unfold cleared.
           destruct (expired x now) eqn:Hexp; [|done]. simpl.
           destruct (_lru_queue x) eqn:Hl; [done|].
           destruct (Hnex x Hx). split; [done | by rewrite Hl].
        -- done.
        -- eapply NoDup_fmap_1. by rewrite Hpts.
        -- intros y (x & -> & Hx)%list_elem_of_fmap Hq. unfold cleared in *.
           destruct (expired x now) eqn:Hexp; [done|].
           apply Hkeep; [done | done |]. unfold empty. by destruct (_lru_queue x).
    + (* an expired node held an entry: it is gone *)
      intros (k & pt & en & (x & Hx & <- & He) & Hexp).
      destruct (node_ok_nonempty _ _ x k en (Hok x Hx) He) as (Hkey & Hin & _).
      destruct (decide (length (root_entries root1)
                        < length (root_entries (_tree c)))%nat) as [|Hge]; [done|].
      exfalso.
      assert (Heq : root_entries root1 = root_entries (_tree c))
        by (apply sublist_same_length; [done | lia]).
      assert (Hen : en ∈ root_entries root1).
      { rewrite Heq, root_entries_nodes. apply elem_of_concat.
        exists (_lru_queue x). split; [done|]. by apply list_elem_of_fmap_2. }
      rewrite root_entries_nodes in Hen. apply elem_of_concat in Hen as (q & Hq & Hqin).
      apply list_elem_of_fmap in Hqin as (y & -> & Hy).
      destruct (Hfrom y Hy) as (x' & Hx' & ->).
      unfold cleared in Hq. destruct (expired x' now) eqn:Hexp'; [by apply elem_of_nil in Hq|].
      destruct (Hok x' Hx') as [_ Hall]. rewrite Forall_forall in Hall.
      destruct (Hall en Hq) as [He' _]. rewrite Hkey in He'.
      pose proof (Hidx x k Hx (mk_is_Some _ _ He)) as H1.
      pose proof (Hidx x' k Hx' (mk_is_Some _ _ He')) as H2.
      assert (x = x') as -> by (eapply NoDup_points_eq; [done | done | done | congruence]).
      apply Z.ltb_ge in Hexp'. simpl in Hexp. lia.
Qed.

Lemma queue_indexed_strip (m : Node) : queue_indexed (strip m) = queue_indexed m.
Proof. done. Qed.

Lemma cache_inv_queue_indexed (now : Z) (c : Cache) :
  cache_inv now c -> opt_nodes (forall_nodes queue_indexed) (_tree c) = true.
Proof.
  intros Hinv. pose proof (inv_nodes _ _ Hinv) as Hok.
  destruct (_tree c) as [r|]; [|done]. simpl in *.
  apply forall_nodes_Forall; [apply queue_indexed_strip|].
  eapply Forall_impl; [done|]. intros x. apply node_ok_queue_indexed.
Qed.

Lemma option_pair_ext {A B : Type} (o1 o2 : option (A * B)) :
  (forall a b, o1 = Some (a, b) <-> o2 = Some (a, b)) -> o1 = o2.
Proof.
  intros Hiff. destruct o1 as [[a b]|], o2 as [[a' b']|]; try done.
  - by apply Hiff.
  - by destruct (proj1 (Hiff a b) eq_refl).
  - by destruct (proj2 (Hiff a' b') eq_refl).
Qed.

Lemma lru_head_le (bound : nat) (now : Z) (x : Node) (k : K) (en : Entry) :
  node_ok bound now x -> _data x !! k = Some en -> lru_head x <= last_used en.
Proof.
  intros Hok He. destruct (node_ok_nonempty _ _ x k en Hok He) as (_ & Hin & _).
  destruct Hok as [[_ Hs] _]. unfold lru_head.
  destruct (_lru_queue x) as [|e rest]; [by apply elem_of_nil in Hin|].
  by eapply lru_sorted_head.
Qed.

Section EvictInvariant.

Variable iteration : Node -> list QuadrantIndex -> list QuadrantIndex.
Hypothesis iteration_perm : forall n l, iteration n l ≡ₚ l.

(** [evict] under the invariant: it returns; as far as the tree and the
    references into it go, it adds and alters no entry and leaves none that
    has expired; when an entry has expired, the entries
    that have not are all kept; when none has, one entry goes, of the
    largest priority value, and among those the least recently used. *)
Lemma Cache_evict_full_returns (now : Z) (c : Cache) :
  cache_inv now c ->
  exists c' d,
    Cache_evict_full iteration now c = Ok (c', d) /\ cache_inv now c'
    /\ (forall k pt en,
          stored c' k = Some (pt, en) -> stored c k = Some (pt, en) /\ ~ pt.1 < now)
    /\ ((exists k pt en, stored c k = Some (pt, en) /\ pt.1 < now) ->
        forall k pt en,
          stored c k = Some (pt, en) -> ~ pt.1 < now -> stored c' k = Some (pt, en))
    /\ ((forall k pt en, stored c k = Some (pt, en) -> ~ pt.1 < now) ->
        forall k0 s0,
          stored c k0 = Some s0 ->
          exists kv ptv env,
            stored c kv = Some (ptv, env) /\ stored c' kv = None
            /\ (forall k, k <> kv -> stored c' k = stored c k)
            /\ forall k pt en,
                 stored c k = Some (pt, en) ->
                 pt.2 < ptv.2 \/ (pt.2 = ptv.2 /\ last_used env <= last_used en))
    /\ _context_expiry_duration c' = _context_expiry_duration c
    /\ _context_priority c' = _context_priority c
    /\ default_expiry_duration c' = default_expiry_duration c
    /\ default_priority c' = default_priority c.
Proof.
  intros Hinv.
  destruct (Quadtree_prune_expired_spec now (_tree c) (inv_placed _ _ Hinv))
    as (r & root1 & Hpe & _).
  destruct (cache_inv_pruned now c r root1 Hinv Hpe) as (Hinv1 & Hholds1 & Hflag).
  set (c1 := sweep (set_tree root1 c)) in *.
  assert (Hst1 : forall k pt en,
            stored c1 k = Some (pt, en) <-> stored c k = Some (pt, en) /\ ~ pt.1 < now).
  { intros k pt en. rewrite (stored_holds now c1 k pt en Hinv1).
    rewrite (stored_holds now c k pt en Hinv). apply Hholds1. }
  assert (Hflag' : r = true <-> exists k pt en, stored c k = Some (pt, en) /\ pt.1 < now).
  { rewrite Hflag. split; intros (k & pt & en & Hs & Hexp); exists k, pt, en;
      (split; [by apply (stored_holds now c k pt en Hinv) | done]). }
  unfold Cache_evict_full. rewrite Hpe. cbn [mbind result_bind]. cbn zeta. fold c1.
  destruct r.
  { eexists c1, _. split_and!; try done.
    - intros k pt en. apply Hst1.
    - intros _ k pt en Hs Hexp. by apply Hst1.
    - intros Hall k0 s0 _. destruct (proj1 Hflag' eq_refl) as (k & pt & en & Hs & Hexp).
      by destruct (Hall k pt en Hs). }
  assert (Hnone : forall k pt en, stored c k = Some (pt, en) -> ~ pt.1 < now).
  { intros k pt en Hs Hexp. assert (false = true); [|done].
    apply Hflag'. by exists k, pt, en. }
  assert (Hsame : forall k, stored c1 k = stored c k).
  { intros k. apply option_pair_ext. intros pt en. rewrite Hst1. split; [tauto|].
    intros Hs. split; [done | by eapply Hnone]. }
  destruct (prune_lowest_priority_picks iteration iteration_perm (_tree c1)
              (inv_placed _ _ Hinv1) (cache_inv_queue_indexed now c1 Hinv1))
    as [Hnil Hcons].
  pose proof (inv_nodes _ _ Hinv1) as Hok1. rewrite Forall_forall in Hok1.
  destruct (root_entries (_tree c1)) as [|x l] eqn:Hre.
  - rewrite (Hnil eq_refl). eexists c1, _. split_and!; try done.
    + intros k pt en. apply Hst1.
    + intros (k & pt & en & Hs & Hexp). by destruct (Hnone k pt en Hs).
    + intros _ k0 [pt en] Hs. exfalso. rewrite <- Hsame in Hs.
      apply (stored_holds now c1 k0 pt en Hinv1) in Hs as (y & Hy & _ & He).
      destruct (node_ok_nonempty _ _ y k0 en (Hok1 y Hy) He) as (_ & Hin & _).
      assert (Hen : en ∈ root_entries (_tree c1)).
      { rewrite root_entries_nodes. apply elem_of_concat.
        exists (_lru_queue y). split; [done|]. by apply list_elem_of_fmap_2. }
      rewrite Hre in Hen. by apply elem_of_nil in Hen.
  - destruct Hcons as (r1 & path & m & e & rest & Hr1 & Hm & Hq & Hmax & Hpl); [done|].
    rewrite Hpl.
    set (m1 := set_entries (delete (key e) (_data m)) rest m) in *.
    set (root2 := graft path (clean_outcome m1) r1) in *.
    set (c' := set_key_nodes _ _).
    assert (Hin : strip m ∈ root_nodes (_tree c1)).
    { rewrite Hr1. apply tree_nodes_node_at. by exists path, m. }
    assert (Hok : node_ok (next_eid c1) now m) by exact (Hok1 _ Hin).
    assert (He : _data m !! key e = Some e).
    { destruct Hok as [_ Hall]. rewrite Hq in Hall.
      by apply Forall_cons in Hall as [[? _] _]. }
    assert (Hwp2 : opt_nodes well_placed root2 = true).
    { eapply tree_step_well_placed; [|apply (inv_placed _ _ Hinv1)].
      eapply Quadtree_prune_lowest_priority_step. exact Hpl. }
    destruct (cache_inv_removal now c1 path r1 m (key e) rest (_key_nodes c')
                Hinv1 Hr1 Hm) as [Hinv' Hholds2];
      [done | done | by apply node_ok_pop | |].
    { intros k' pt. subst c'. simpl. rewrite lookup_delete_Some, lookup_sweep by done.
      intuition congruence. }
    change (cache_inv now c') in Hinv'.
    assert (Hst2 : forall k pt en,
              stored c' k = Some (pt, en) <-> k <> key e /\ stored c1 k = Some (pt, en)).
    { intros k pt en. rewrite (stored_holds now c' k pt en Hinv').
      rewrite (stored_holds now c1 k pt en Hinv1). rewrite Hr1. apply Hholds2. }
    eexists c', _. split_and!; try done.
    + intros k pt en [_ Hs]%Hst2. by apply Hst1.
    + intros (k & pt & en & Hs & Hexp). by destruct (Hnone k pt en Hs).
    + intros _ k0 s0 _. exists (key e), (point m), e. split_and!.
      * rewrite <- Hsame. apply (stored_holds now c1 _ _ _ Hinv1). by exists (strip m).
      * destruct (stored c' (key e)) as [[pt en]|] eqn:Hs; [|done].
        by apply Hst2 in Hs as [? _].
      * intros k Hne. rewrite <- Hsame. apply option_pair_ext. intros pt en.
        rewrite Hst2. tauto.
      * intros k pt en Hs. rewrite <- Hsame in Hs.
        apply (stored_holds now c1 k pt en Hinv1) in Hs as (y & Hy & <- & Hen).
        pose proof (Hok1 y Hy) as Hoky.
        rewrite Hr1 in Hy. apply tree_nodes_node_at in Hy as (path' & m' & Hm' & ->).
        destruct (node_ok_nonempty _ _ _ k en Hoky Hen) as (_ & _ & Hne).
        pose proof (lru_head_le _ _ _ k en Hoky Hen) as Hle.
        assert (Hhead : lru_head m = last_used e) by (unfold lru_head; by rewrite Hq).
        destruct (Hmax path' m' Hm' Hne) as [?|[? ?]]; simpl in *; [by left | right].
        split; [done|]. rewrite <- Hhead. etrans; [done|]. exact Hle.
Qed.

(** The same of [Cache_evict], where [prune_expired] leaves no cycle of
    detached nodes. *)
Lemma Cache_evict_returns (now : Z) (c : Cache) :
  cache_inv now c -> Quadtree_leaves_cycle now (_tree c) = false ->
  exists c',
    Cache_evict iteration now c = Ok c' /\ cache_inv now c'
    /\ (forall k pt en,
          stored c' k = Some (pt, en) -> stored c k = Some (pt, en) /\ ~ pt.1 < now)
    /\ ((exists k pt en, stored c k = Some (pt, en) /\ pt.1 < now) ->
        forall k pt en,
          stored c k = Some (pt, en) -> ~ pt.1 < now -> stored c' k = Some (pt, en))
    /\ ((forall k pt en, stored c k = Some (pt, en) -> ~ pt.1 < now) ->
        forall k0 s0,
          stored c k0 = Some s0 ->
          exists kv ptv env,
            stored c kv = Some (ptv, env) /\ stored c' kv = None
            /\ (forall k, k <> kv -> stored c' k = stored c k)
            /\ forall k pt en,
                 stored c k = Some (pt, en) ->
                 pt.2 < ptv.2 \/ (pt.2 = ptv.2 /\ last_used env <= last_used en))
    /\ _context_expiry_duration c' = _context_expiry_duration c
    /\ _context_priority c' = _context_priority c
    /\ default_expiry_duration c' = default_expiry_duration c
    /\ default_priority c' = default_priority c.
Proof.
  intros Hinv Hcycle.
  destruct (Cache_evict_full_returns now c Hinv) as (c' & d & Hfull & Hrest).
  exists c'. split; [|exact Hrest].
  by destruct (Cache_evict_no_cycle iteration now c c' d Hcycle Hfull).
Qed.

End EvictInvariant.

(** ** The invariant along the runs of the cache *)

Lemma Cache_getitem_inv (k : K) (now : Z) (v : V) (c c' : Cache) :
  cache_inv now c -> Cache_getitem k now c = Ok (v, c') -> cache_inv now c'.
Proof.
  intros Hinv Hget. pose proof Hget as Hget'. unfold Cache_getitem in Hget'.
  destruct (key_node c k) as [[path node]|] eqn:Hk; [|done].
  destruct (expired node now) eqn:Hexp; [done|].
  apply Z.ltb_ge in Hexp.
  destruct (Cache_getitem_returns k now c path node Hinv Hk) as (e & c1 & _ & Hc1 & Hinv1 & _);
    [lia|].
  rewrite Hget in Hc1. by simplify_eq.
Qed.

Lemma Cache_delitem_inv (k : K) (now : Z) (c c' : Cache) :
  cache_inv now c -> Cache_delitem k c = Ok c' -> cache_inv now c'.
Proof.
  intros Hinv Hdel. pose proof Hdel as Hdel'. unfold Cache_delitem in Hdel'.
  destruct (key_node c k) as [[path node]|] eqn:Hk; [|done].
  destruct (_data node !! k) as [e|] eqn:He.
  - destruct (Cache_delitem_returns k now c path node Hinv Hk) as (c1 & Hc1 & Hinv1 & _);
      [done|].
    rewrite Hdel in Hc1. by simplify_eq.
  - destruct (Cache_delitem_stale k now c path node Hinv Hk He) as [Hr _]. congruence.
Qed.

(** The assertion of [set]: the duration of the context is positive. *)
Lemma Cache_setitem_assert (k : K) (v : V) (now : Z) (c : Cache) :
  _context_expiry_duration c <= 0 -> Cache_setitem k v now c = Raise AssertionError.
Proof.
  intros Hd. unfold Cache_setitem.
  assert (negb (now + _context_expiry_duration c >? now) = true) as ->; [|done].
  apply negb_true_iff. rewrite Z.gtb_ltb. apply Z.ltb_ge. lia.
Qed.

(** [set] of a key whose node lost it: the [del] inside raises. *)
Lemma Cache_setitem_stale (k : K) (v : V) (now : Z) (c : Cache)
    (path : list QuadrantIndex) (node : Node) :
  cache_inv now c -> 0 < _context_expiry_duration c ->
  key_node c k = Some (path, node) -> _data node !! k = None ->
  Cache_setitem k v now c = Raise KeyError.
Proof.
  intros Hinv Hd Hk He.
  destruct (Cache_delitem_stale k now c path node Hinv Hk He) as (Hr & _).
  unfold Cache_setitem.
  assert (negb (now + _context_expiry_duration c >? now) = false) as ->.
  { apply negb_false_iff. apply Z.gtb_lt. lia. }
  by rewrite Hk, bool_decide_eq_true_2, Hr.
Qed.

Lemma Cache_setitem_inv (k : K) (v : V) (now : Z) (c c' : Cache) :
  cache_inv now c -> Cache_setitem k v now c = Ok c' -> cache_inv now c'.
Proof.
  intros Hinv Hset.
  destruct (decide (0 < _context_expiry_duration c)) as [Hd|Hd];
    [|rewrite Cache_setitem_assert in Hset by lia; done].
  destruct (Cache_setitem_returns k v now c Hinv Hd) as (c1 & ? & ? & Hok & Hinv1 & _).
  - intros path node Hk. destruct (_data node !! k) eqn:He; [done|].
    rewrite (Cache_setitem_stale k v now c path node) in Hset; done.
  - congruence.
Qed.

Section RunInvariant.

Variable iteration : Node -> list QuadrantIndex -> list QuadrantIndex.
Hypothesis iteration_perm : forall n l, iteration n l ≡ₚ l.

Lemma Cache_evict_inv (now : Z) (c c' : Cache) :
  cache_inv now c -> Cache_evict iteration now c = Ok c' -> cache_inv now c'.
Proof.
  intros Hinv Hev.
  destruct (Cache_evict_Ok iteration now c c' Hev) as [Hcycle _].
  destruct (Cache_evict_returns iteration iteration_perm now c Hinv Hcycle)
    as (c1 & Hc1 & Hinv1 & _).
  congruence.
Qed.

(** X1: every state that a run of the cache reaches, with a clock that
    never goes back and no [evict] that left a cycle of detached nodes in
    memory, satisfies the invariant of the cache: the tree satisfies
    the placement invariant; no two nodes have the same expiry and priority;
    in every node the data map and the queue hold the same entries, the
    queue in the order of [last_used]; the point index has the points of the
    nodes of the tree and no other; every reference of the key index leads
    to a node of the tree that holds the key, or has expired; every key that
    a node holds has its reference to that node in the key index. *)
Theorem cache_run_inv (now : Z) (c : Cache) :
  cache_run iteration now c -> cache_inv now c.
Proof.
  induction 1 as [d p now | now now' c _ IH Hle | k v now c c' _ IH Hop
                 | k v now c c' _ IH Hop | k now c c' _ IH Hop
                 | k now c path node _ IH Hk He | now c c' _ IH Hop
                 | p d now c _ IH | now c _ IH].
  - apply cache_inv_new.
  - by eapply cache_inv_mono.
  - by eapply Cache_setitem_inv.
  - by eapply Cache_getitem_inv.
  - by eapply Cache_delitem_inv.
  - by destruct (Cache_delitem_stale k now c path node IH Hk He) as (_ & _ & ?).
  - by eapply Cache_evict_inv.
  - by apply cache_inv_context.
  - by apply cache_inv_context.
Qed.

End RunInvariant.

(** ** [delete_entry]: the entry is always found in the queue *)

(** C10: in a node whose data map and queue are consistent and whose queue is
    sorted, [delete_entry] of a key of the data map never reaches the branch
    that raises "entry unexpectedly missing for lru queue": the bisection
    followed by the identity scan stops on the entry, at its position [i] in
    the queue, and the call returns with the entry taken out of both. *)
Theorem delete_entry_finds_entry (n : Node) (k : K) :
  lru_consistent n -> is_Some (_data n !! k) ->
  exists e i,
    _data n !! k = Some e /\ _lru_queue n !! i = Some e
    /\ remove_entry k n <> Raise LruMissing
    /\ forall cl : bool,
         delete_entry k cl n =
         Ok (let n' := set_entries (delete k (_data n)) (delete i (_lru_queue n)) n in
             if cl then clean n' else (n', NoCall)).
Proof.
  intros Hn [e He].
  destruct (remove_entry_consistent n k e Hn He) as (i & Hi & Hrem).
  exists e, i. split_and!; [done | done | by rewrite Hrem |].
  intros cl. unfold delete_entry. by rewrite Hrem.
Qed.

(** ** [clean] *)

(** C6, as the code has it: [clean] asks the parent to delete the node when
    the node has no entries and no child quadrants; a node that has entries
    is left alone, whatever its quadrants. *)
Theorem clean_deletes_empty_leaf (n : Node) :
  (empty n = true -> quadrant_items n = [] -> clean n = (n, CallDelete))
  /\ (empty n = false -> clean n = (n, NoCall)).
Proof.
  unfold clean. split.
  - by intros -> ->.
  - by intros ->.
Qed.

(** ** [Cache.context] *)

(** C9 fails on the code. [Cache.context] keeps no stack of overrides: the
    [finally] block of a scope assigns the constructor defaults, whatever
    scope is still open around it. In a state that satisfies the invariant,
    inside a scope with the priority [p1] and the duration [d1], a [set]
    stores its entry in the node of expiry [now + d1] and priority [p1].
    Once a scope entered and left inside that scope is behind, the same
    [set], still inside the outer scope, stores its entry in the node of
    expiry [now + default_expiry_duration] and priority [default_priority]:
    when these differ from [d1] and [p1], not where the outer scope, and the
    docstring of [context], would have it. *)
Theorem set_after_inner_scope_uses_defaults
    (p1 d1 : Z) (p2 d2 : option Z) (k : K) (v : V) (now : Z) (c : Cache) :
  cache_inv now c -> 0 < default_expiry_duration c -> 0 < d1 ->
  (forall path node, key_node c k = Some (path, node) -> is_Some (_data node !! k)) ->
  let outer := context_enter (Some p1) (Some d1) c in
  let inner_left := context_exit (context_enter p2 d2 outer) in
  (exists c1,
     Cache_setitem k v now outer = Ok c1
     /\ stored c1 k = Some ((now + d1, p1), mkEntry (next_eid c) now k v))
  /\ exists c2,
       Cache_setitem k v now inner_left = Ok c2
       /\ stored c2 k
          = Some ((now + default_expiry_duration c, default_priority c),
                  mkEntry (next_eid c) now k v)
       /\ ((d1, p1) <> (default_expiry_duration c, default_priority c) ->
           stored c2 k <> Some ((now + d1, p1), mkEntry (next_eid c) now k v)).
Proof.
  intros Hinv Hd Hd1 Hheld outer inner_left.
  assert (Hstored : forall c0 : Cache,
            cache_inv now c0 -> 0 < _context_expiry_duration c0 ->
            key_node c0 k = key_node c k -> next_eid c0 = next_eid c ->
            exists c',
              Cache_setitem k v now c0 = Ok c'
              /\ stored c' k
                 = Some ((now + _context_expiry_duration c0, _context_priority c0),
                         mkEntry (next_eid c) now k v)).
  { intros c0 Hinv0 Hd0 Hkn Heid.
    destruct (Cache_setitem_returns k v now c0 Hinv0 Hd0)
      as (c' & path & m & Hset & _ & Hpm & Hmk & Hk' & _).
    { intros path node Hk. apply (Hheld path). by rewrite <- Hkn. }
    exists c'. split; [done|]. rewrite <- Hpm, <- Heid.
    apply (stored_key_node c' k path _ _ Hk'). simpl. by rewrite lookup_insert_eq. }
  split.
  - destruct (Hstored outer) as (c1 & Hset & Hs);
      [by apply cache_inv_context | done | done | done |].
    by exists c1.
  - destruct (Hstored inner_left) as (c2 & Hset & Hs);
      [by do 3 apply cache_inv_context | done | done | done |].
    exists c2. split_and!; [done | done |].
    intros Hne. rewrite Hs. intros [= Hexp Hprio]. apply Hne.
    f_equal; [lia | done].
Qed.

(** * The cache, seen by its user *)

(** ** [set] and [get] *)

(** X2: in a state that satisfies the invariant, with a positive duration in
    the context, [set] of a key that has no entry, or whose node still holds
    its entry, returns. The cache then has for the key a new entry with the
    value and the clock reading, in the node of expiry [now + duration] and
    of the priority of the context; the entries of the other keys are as
    before. A [get] of the key returns the value as long as the clock has
    not passed the expiry, and raises [KeyExpired] once it has. *)
Theorem setitem_then_getitem (k : K) (v : V) (now : Z) (c : Cache) :
  cache_inv now c -> 0 < _context_expiry_duration c ->
  (forall path node, key_node c k = Some (path, node) -> is_Some (_data node !! k)) ->
  exists c',
    Cache_setitem k v now c = Ok c'
    /\ cache_inv now c'
    /\ stored c' k
       = Some ((now + _context_expiry_duration c, _context_priority c),
               mkEntry (next_eid c) now k v)
    /\ (forall k', k' <> k -> stored c' k' = stored c k')
    /\ forall now',
         now <= now' ->
         (now' <= now + _context_expiry_duration c ->
          exists c'', Cache_getitem k now' c' = Ok (v, c''))
         /\ (now + _context_expiry_duration c < now' ->
             Cache_getitem k now' c' = Raise KeyExpired).
Proof.
  intros Hinv Hd Hheld.
  destruct (Cache_setitem_returns k v now c Hinv Hd Hheld)
    as (c' & path & m & Hset & Hinv' & Hpm & Hmk & Hk' & Hst & _).
  assert (Hexp : expiry m = now + _context_expiry_duration c)
    by (unfold point in Hpm; congruence).
  exists c'. split_and!; [done | done | | done |].
  - rewrite <- Hpm. apply (stored_key_node c' k path _ _ Hk').
    simpl. by rewrite lookup_insert_eq.
  - intros now' Hle. split.
    + intros Hle'.
      destruct (Cache_getitem_returns k now' c' path _
                  (cache_inv_mono now now' c' Hle Hinv') Hk')
        as (e & c'' & He & Hget & _); [simpl; lia|].
      simpl in He. rewrite lookup_insert_eq in He. injection He as <-.
      by exists c''.
    + intros Hlt. unfold Cache_getitem. rewrite Hk'. unfold expired. simpl.
      by rewrite (proj2 (Z.ltb_lt _ _)) by lia.
Qed.

(** X3: in a state that satisfies the invariant, [set] raises
    [AssertionError] exactly when the duration of the context is not
    positive, and [KeyError] exactly when the duration is positive and the
    reference of the key leads to a node that has lost the entry; such a
    node has expired. [set] raises nothing else. *)
Theorem setitem_error_cases (k : K) (v : V) (now : Z) (c : Cache) :
  cache_inv now c ->
  (Cache_setitem k v now c = Raise AssertionError <-> _context_expiry_duration c <= 0)
  /\ (Cache_setitem k v now c = Raise KeyError <->
      0 < _context_expiry_duration c
      /\ exists path node,
           key_node c k = Some (path, node) /\ _data node !! k = None)
  /\ (forall path node,
        key_node c k = Some (path, node) -> _data node !! k = None ->
        expiry node < now)
  /\ forall e, Cache_setitem k v now c = Raise e -> e = AssertionError \/ e = KeyError.
Proof.
  intros Hinv.
  assert (Hcases : (_context_expiry_duration c <= 0
                    /\ Cache_setitem k v now c = Raise AssertionError)
                   \/ (0 < _context_expiry_duration c
                       /\ (exists path node,
                             key_node c k = Some (path, node) /\ _data node !! k = None)
                       /\ Cache_setitem k v now c = Raise KeyError)
                   \/ (0 < _context_expiry_duration c
                       /\ (forall path node,
                             key_node c k = Some (path, node) ->
                             is_Some (_data node !! k))
                       /\ exists c', Cache_setitem k v now c = Ok c')).
  { destruct (decide (0 < _context_expiry_duration c)) as [Hd|Hd];
      [right | left; split; [lia | apply Cache_setitem_assert; lia]].
    destruct (key_node c k) as [[path node]|] eqn:Hk.
    - destruct (_data node !! k) as [en|] eqn:He.
      + right. assert (Hheld : forall path' node', key_node c k = Some (path', node') ->
                                 is_Some (_data node' !! k)).
        { intros path' node' Hk'. rewrite Hk in Hk'. simplify_eq. by rewrite He. }
        split_and!; [done | by rewrite <- Hk |].
        destruct (Cache_setitem_returns k v now c Hinv Hd Hheld) as (c' & _ & _ & ? & _).
        by exists c'.
      + left. split_and!; [done | by exists path, node |].
        by apply (Cache_setitem_stale k v now c path node).
    - right. assert (Hheld : forall path' node', key_node c k = Some (path', node') ->
                               is_Some (_data node' !! k))
        by (intros path' node' ?; congruence).
      split_and!; [done | by intros ? ? ? |].
      destruct (Cache_setitem_returns k v now c Hinv Hd Hheld) as (c' & _ & _ & ? & _).
      by exists c'. }
  split_and!.
  - split.
    + intros Hr. destruct Hcases as [[? _]|[(_ & _ & ?)|(_ & _ & c' & ?)]];
        [done | congruence | congruence].
    + intros Hd. by apply Cache_setitem_assert.
  - split.
    + intros Hr. destruct Hcases as [[_ ?]|[(? & ? & _)|(_ & _ & c' & ?)]];
        [congruence | done | congruence].
    + intros (Hd & path & node & Hk & He).
      by apply (Cache_setitem_stale k v now c path node).
  - intros path node Hk He.
    by destruct (Cache_delitem_stale k now c path node Hinv Hk He) as (_ & ? & _).
  - intros e Hr. destruct Hcases as [[_ ?]|[(_ & _ & ?)|(_ & _ & c' & ?)]];
      [left | right | ]; congruence.
Qed.

(** X4: in a state that satisfies the invariant, [get] has three outcomes
    and no other: [KeyDoesNotExist] when the key has no live reference,
    [KeyExpired] when the node of the key has expired, and otherwise the
    value of the entry of the key, which a new entry with the clock reading
    replaces in the same node; the entries of the other keys stay. *)
Theorem getitem_outcomes (k : K) (now : Z) (c : Cache) :
  cache_inv now c ->
  (key_node c k = None /\ Cache_getitem k now c = Raise KeyDoesNotExist)
  \/ (exists path node,
        key_node c k = Some (path, node) /\ expiry node < now
        /\ Cache_getitem k now c = Raise KeyExpired)
  \/ (exists pt en c',
        stored c k = Some (pt, en) /\ ~ pt.1 < now
        /\ Cache_getitem k now c = Ok (value en, c')
        /\ cache_inv now c'
        /\ stored c' k = Some (pt, mkEntry (next_eid c) now k (value en))
        /\ forall k', k' <> k -> stored c' k' = stored c k').
Proof.
  intros Hinv. destruct (key_node c k) as [[path node]|] eqn:Hk.
  - right. destruct (decide (expiry node < now)) as [Hexp|Hexp].
    + left. exists path, node. split_and!; [done | done |].
      unfold Cache_getitem. rewrite Hk. unfold expired.
      by rewrite (proj2 (Z.ltb_lt _ _) Hexp).
    + right.
      destruct (Cache_getitem_returns k now c path node Hinv Hk Hexp)
        as (e & c' & He & Hget & Hinv' & Hs & Hst).
      exists (point node), e, c'. split_and!; try done.
      by apply (stored_key_node c k path).
  - left. split; [done|]. unfold Cache_getitem. by rewrite Hk.
Qed.

(** X5: in a state that satisfies the invariant, [del] of a key that has an
    entry returns; the key then has none, the entries of the other keys are
    as before and a [get] of the key raises [KeyDoesNotExist]. [del] raises
    [KeyError] on a key without a live reference, and on a key whose node
    has lost the entry. *)
Theorem delitem_outcomes (k : K) (now : Z) (c : Cache) :
  cache_inv now c ->
  (key_node c k = None -> Cache_delitem k c = Raise KeyError)
  /\ (forall s,
        stored c k = Some s ->
        exists c',
          Cache_delitem k c = Ok c' /\ cache_inv now c'
          /\ stored c' k = None
          /\ (forall k', k' <> k -> stored c' k' = stored c k')
          /\ forall now', Cache_getitem k now' c' = Raise KeyDoesNotExist)
  /\ (forall path node,
        key_node c k = Some (path, node) -> _data node !! k = None ->
        Cache_delitem k c = Raise KeyError).
Proof.
  intros Hinv. split_and!.
  - intros Hk. unfold Cache_delitem. by rewrite Hk.
  - intros s Hs. unfold stored in Hs.
    destruct (key_node c k) as [[path node]|] eqn:Hk; [|done].
    destruct (_data node !! k) as [en|] eqn:He; [|done].
    destruct (Cache_delitem_returns k now c path node Hinv Hk)
      as (c' & Hdel & Hinv' & Hk' & Hst & _); [by rewrite He|].
    exists c'. split_and!; [done | done | | done |].
    + unfold stored. by rewrite Hk'.
    + intros now'. unfold Cache_getitem. by rewrite Hk'.
  - intros path node Hk He.
    by destruct (Cache_delitem_stale k now c path node Hinv Hk He) as (? & _).
Qed.

(** ** [evict] *)

Section EvictOutcomes.

Variable iteration : Node -> list QuadrantIndex -> list QuadrantIndex.
Hypothesis iteration_perm : forall n l, iteration n l ≡ₚ l.

(** X6: in a state that satisfies the invariant, an [evict] whose
    [prune_expired] leaves no cycle of detached nodes in memory returns, in
    a state that satisfies the invariant. It adds and alters no entry, and
    leaves no entry whose node has expired. When
    the cache has an entry whose node has expired, every entry of a node
    that has not is kept. When it has none, and has an entry, exactly one
    entry goes: no entry has a larger priority value than it, and none of
    the same priority value was used less recently. *)
Theorem evict_outcomes (now : Z) (c : Cache) :
  cache_inv now c -> Quadtree_leaves_cycle now (_tree c) = false ->
  exists c',
    Cache_evict iteration now c = Ok c' /\ cache_inv now c'
    /\ (forall k pt en,
          stored c' k = Some (pt, en) -> stored c k = Some (pt, en) /\ ~ pt.1 < now)
    /\ ((exists k pt en, stored c k = Some (pt, en) /\ pt.1 < now) ->
        forall k pt en,
          stored c k = Some (pt, en) -> ~ pt.1 < now -> stored c' k = Some (pt, en))
    /\ ((forall k pt en, stored c k = Some (pt, en) -> ~ pt.1 < now) ->
        forall k0 s0,
          stored c k0 = Some s0 ->
          exists kv ptv env,
            stored c kv = Some (ptv, env) /\ stored c' kv = None
            /\ (forall k, k <> kv -> stored c' k = stored c k)
            /\ forall k pt en,
                 stored c k = Some (pt, en) ->
                 pt.2 < ptv.2 \/ (pt.2 = ptv.2 /\ last_used env <= last_used en)).
Proof.
  intros Hinv Hcycle.
  destruct (Cache_evict_returns iteration iteration_perm now c Hinv Hcycle)
    as (c' & Hev & Hinv' & Hsub & Hexp & Hlow & _).
  exists c'. by split_and!.
Qed.

End EvictOutcomes.

(** ** [prune_expired] keeps what has not expired *)

(** X7: on a tree that satisfies the placement invariant, a node that has
    not expired and has entries is still in the tree after
    [prune_expired(now)], with the same entries. *)
Theorem prune_expired_keeps_unexpired (now : Z) (root root' : option Node) (r : bool)
    (path : list QuadrantIndex) (m : Node) :
  opt_nodes well_placed root = true ->
  Quadtree_prune_expired now root = Ok (r, root') ->
  root ≫= node_at path = Some m -> ~ expiry m < now -> _lru_queue m <> [] ->
  exists path' m',
    root' ≫= node_at path' = Some m'
    /\ expiry m' = expiry m /\ priority m' = priority m
    /\ _data m' = _data m /\ _lru_queue m' = _lru_queue m.
Proof.
  intros Hwp Hrun Hm Hexp Hq.
  assert (Hin : strip m ∈ root_nodes root').
  { apply (Quadtree_prune_expired_keeps now root root' r Hwp Hrun).
    - apply root_nodes_node_at. by exists path, m.
    - apply Z.ltb_ge. simpl. lia.
    - unfold empty. simpl. by destruct (_lru_queue m). }
  apply root_nodes_node_at in Hin as (path' & m' & Hm' & Heq).
  exists path', m'. split; [done|].
  apply (f_equal expiry) in Heq as He. apply (f_equal priority) in Heq as Hp.
  apply (f_equal _data) in Heq as Hd. apply (f_equal _lru_queue) in Heq as Hl.
  simpl in *. by split_and!.
Qed.

(** ** [insert] *)

(** X8: [Quadtree.insert(priority, expiry)] on a tree that satisfies the
    placement invariant returns a reference to a new node without entries
    at that point; the tree has this node and the nodes it had, it satisfies
    the placement invariant and, when no node had the point, routing from
    the root by the point leads to the new node. *)
Theorem insert_then_lookup (p e : Z) (root : option Node) :
  opt_nodes well_placed root = true ->
  let root' := (Quadtree_insert p e root).1 in
  let path := (Quadtree_insert p e root).2 in
  root' ≫= node_at path = Some (new_node e p)
  /\ root_nodes root' ≡ₚ new_node e p :: root_nodes root
  /\ opt_nodes well_placed root' = true
  /\ (NoDup (point <$> root_nodes root) -> (e, p) ∉ point <$> root_nodes root ->
      deref (e, p) root' = Some (path, new_node e p)).
Proof.
  intros Hwp root' path.
  destruct (Quadtree_insert_nodes p e root) as [Hperm Hat].
  assert (Hwp' : opt_nodes well_placed root' = true).
  { eapply tree_step_well_placed; [apply step_insert | done]. }
  split_and!; [done | done | done |].
  intros Hnd Hfresh.
  apply (deref_node root' path (new_node e p) Hwp'); [|done].
  subst root'. rewrite Hperm, fmap_cons. by apply NoDup_cons.
Qed.

(** ** [deep_empty] *)

(** X9: [deep_empty] is true of a node exactly when neither the node nor any
    node below it has an entry. *)
Theorem deep_empty_iff (n : Node) :
  deep_empty n = true <->
  forall path m, node_at path n = Some m -> empty m = true.
Proof.
  rewrite deep_empty_entries, tree_entries_nodes. split.
  - intros Hnil path m Hm. unfold empty.
    destruct (_lru_queue m) as [|x l] eqn:Hq; [done|]. exfalso.
    assert (Hx : x ∈ concat (_lru_queue <$> tree_nodes n)).
    { apply elem_of_concat. exists (_lru_queue (strip m)). split.
      - simpl. rewrite Hq. left.
      - apply list_elem_of_fmap_2, tree_nodes_node_at. by exists path, m. }
    rewrite Hnil in Hx. by apply elem_of_nil in Hx.
  - intros Hall. destruct (concat _) as [|x l] eqn:Hc; [done|]. exfalso.
    assert (Hx : x ∈ concat (_lru_queue <$> tree_nodes n)) by (rewrite Hc; left).
    apply elem_of_concat in Hx as (q & Hx & Hq).
    apply list_elem_of_fmap in Hq as (y & -> & Hy).
    apply tree_nodes_node_at in Hy as (path & m & Hm & ->).
    specialize (Hall path m Hm). unfold empty in Hall. simpl in Hx.
    destruct (_lru_queue m); [by apply elem_of_nil in Hx | done].
Qed.

(** ** [__iter__] and [__len__] *)

Lemma Cache_items_elem (c : Cache) (k : K) (node : Node) :
  (k, node) ∈ Cache_items c <-> exists path, key_node c k = Some (path, node).
Proof.
  unfold Cache_items, key_node. rewrite list_elem_of_omap. split.
  - intros ([k' pt] & Hin%elem_of_map_to_list & Hf). simpl in Hf.
    destruct (deref pt (_tree c)) as [[path node']|] eqn:Hd; simpl in Hf; [|done].
    injection Hf as -> ->. exists path. rewrite Hin. simpl. by rewrite Hd.
  - intros (path & Hk).
    destruct (_key_nodes c !! k) as [pt|] eqn:Hpt; simpl in Hk; [|done].
    exists (k, pt). split; [by apply elem_of_map_to_list|]. simpl. by rewrite Hk.
Qed.

Lemma omap_fst_sublist {A B C : Type} (f : A * B -> option (A * C)) (l : list (A * B)) :
  (forall x y, f x = Some y -> y.1 = x.1) ->
  sublist ((omap f l).*1) (l.*1).
Proof.
  intros Hf. induction l as [|x l IH]; simpl; [done|].
  destruct (f x) as [y|] eqn:Hy; simpl.
  - rewrite (Hf x y Hy). by apply sublist_skip.
  - by apply sublist_cons.
Qed.

Lemma Cache_items_NoDup (c : Cache) : NoDup (Cache_items c).*1.
Proof.
  apply (sublist_NoDup _ ((map_to_list (_key_nodes c)).*1));
    [apply NoDup_fst_map_to_list|].
  apply omap_fst_sublist. intros [k pt] [k' node]. simpl.
  destruct (deref pt (_tree c)) as [[? ?]|]; simpl; [|done]. by intros [= <- _].
Qed.

Lemma Cache_iter_NoDup (clock : K -> Z) (c : Cache) : NoDup (Cache_iter clock c).
Proof.
  apply (sublist_NoDup _ ((Cache_items c).*1)); [apply Cache_items_NoDup|].
  apply fmap_sublist, sublist_filter.
Qed.

Lemma Cache_iter_elem (clock : K -> Z) (c : Cache) (k : K) :
  k ∈ Cache_iter clock c <->
  exists pt en, stored c k = Some (pt, en) /\ ~ pt.1 < clock k.
Proof.
  unfold Cache_iter, stored. rewrite list_elem_of_fmap. split.
  - intros ([k' node] & -> & [HP Hin]%list_elem_of_filter). simpl in *.
    apply Cache_items_elem in Hin as (path & ->).
    apply andb_prop_elim in HP as [Hexp Hd].
    apply bool_decide_unpack in Hd as [en ->].
    exists (point node), en. split; [done|]. simpl.
    apply negb_prop_elim in Hexp. intros Hlt. apply Hexp.
    unfold expired. by rewrite (proj2 (Z.ltb_lt _ _) Hlt).
  - intros (pt & en & Hs & Hexp).
    destruct (key_node c k) as [[path node]|] eqn:Hk; [|done].
    destruct (_data node !! k) as [en'|] eqn:He; [|done]. simpl in Hs.
    injection Hs as <- <-.
    exists (k, node). split; [done|]. apply list_elem_of_filter. split.
    + simpl. apply andb_prop_intro. split.
      * apply negb_prop_intro. unfold expired. intros Ht%Is_true_true%Z.ltb_lt. done.
      * apply bool_decide_pack. by rewrite He.
    + apply Cache_items_elem. by exists path.
Qed.

Lemma NoDup_concat_fmap {A B : Type} (f : A -> list B) (l : list A) :
  NoDup l -> (forall x, x ∈ l -> NoDup (f x)) ->
  (forall x y b, x ∈ l -> y ∈ l -> b ∈ f x -> b ∈ f y -> x = y) ->
  NoDup (concat (f <$> l)).
Proof.
  induction l as [|a l IH]; intros Hnd Hf Hdis; simpl; [constructor|].
  apply NoDup_cons in Hnd as [Ha Hnd]. apply NoDup_app. split_and!.
  - apply Hf. left.
  - intros b Hb (q & Hbq & Hq)%elem_of_concat.
    apply list_elem_of_fmap in Hq as (y & -> & Hy).
    apply Ha. by rewrite (Hdis a y b) by (done || by left || by right).
  - apply IH; [done | |].
    + intros x Hx. apply Hf. by right.
    + intros x y b Hx Hy. apply Hdis; by right.
Qed.

Lemma NoDup_filter_one (l : list Entry) :
  (forall e, e ∈ l -> length (filter (fun y : Entry => eid y = eid e) l) = 1%nat) ->
  NoDup l.
Proof.
  induction l as [|a l IH]; intros Hone; [constructor|].
  apply NoDup_cons. split.
  - intros Ha. specialize (Hone a (list_elem_of_here _ _)).
    rewrite filter_cons, decide_True in Hone by done. simpl in Hone.
    assert (Hin : a ∈ filter (fun y : Entry => eid y = eid a) l)
      by by apply list_elem_of_filter.
    destruct (filter _ l); [by apply elem_of_nil in Hin | simpl in Hone; lia].
  - apply IH. intros e He.
    pose proof (Hone e (list_elem_of_further _ _ _ He)) as Hc.
    assert (Hin : e ∈ filter (fun y : Entry => eid y = eid e) l)
      by by apply list_elem_of_filter.
    rewrite filter_cons in Hc.
    destruct (decide (eid a = eid e)); simpl in Hc; [|done].
    destruct (filter _ l) as [|? [|? ?]]; [by apply elem_of_nil in Hin | done | simpl in Hc; lia].
Qed.

Lemma node_ok_NoDup (bound : nat) (now : Z) (x : Node) :
  node_ok bound now x -> NoDup (_lru_queue x).
Proof.
  intros [[Hd _] Hall]. rewrite Forall_forall in Hall.
  apply NoDup_filter_one. intros e He.
  destruct (Hall e He) as (Hde & _). by destruct (Hd _ _ Hde) as (_ & _ & ?).
Qed.

(** X10: in a state that satisfies the invariant, with clock readings that
    are not before the one of the state, [__iter__] yields each key at most
    once, and yields a key exactly when a [get] of the key at the reading
    taken for it would return. [__len__] is the number of the entries that
    the nodes of the tree that have not expired hold: the keys that
    [__iter__] yields are, up to their order, the keys of these entries. *)
Theorem iter_len_spec (now : Z) (clock : K -> Z) (c : Cache) :
  cache_inv now c -> (forall k, now <= clock k) ->
  NoDup (Cache_iter clock c)
  /\ (forall k,
        k ∈ Cache_iter clock c <->
        exists v c', Cache_getitem k (clock k) c = Ok (v, c'))
  /\ Cache_iter (fun _ => now) c
     ≡ₚ key <$> concat (_lru_queue
                         <$> filter (fun x : Node => expired x now = false)
                               (root_nodes (_tree c)))
  /\ Cache_len (fun _ => now) c
     = length (concat (_lru_queue
                        <$> filter (fun x : Node => expired x now = false)
                              (root_nodes (_tree c)))).
Proof.
  intros Hinv Hclock.
  pose proof (inv_nodes _ _ Hinv) as Hok. rewrite Forall_forall in Hok.
  pose proof (inv_points _ _ Hinv) as Hnd.
  pose proof (inv_indexed _ _ Hinv) as Hidx.
  assert (Hperm : Cache_iter (fun _ => now) c
                  ≡ₚ key <$> concat (_lru_queue
                                      <$> filter (fun x : Node => expired x now = false)
                                            (root_nodes (_tree c)))).
  { set (Lf := filter (fun x : Node => expired x now = false) (root_nodes (_tree c))).
    assert (HLf : forall x, x ∈ Lf <-> expired x now = false /\ x ∈ root_nodes (_tree c))
      by (intros x; unfold Lf; by rewrite list_elem_of_filter).
    assert (Hent : forall e, e ∈ concat (_lru_queue <$> Lf) ->
              exists x, x ∈ root_nodes (_tree c) /\ expired x now = false
                        /\ e ∈ _lru_queue x /\ _data x !! key e = Some e).
    { intros e (q & He & Hq)%elem_of_concat.
      apply list_elem_of_fmap in Hq as (x & -> & [Hexp Hx]%HLf).
      exists x. split_and!; [done | done | done |].
      destruct (Hok x Hx) as [_ Hall]. rewrite Forall_forall in Hall.
      by destruct (Hall e He). }
    apply NoDup_Permutation.
    - apply Cache_iter_NoDup.
    - apply NoDup_fmap_2_strong.
      + intros e1 e2 (x1 & Hx1 & _ & _ & Hd1)%Hent (x2 & Hx2 & _ & _ & Hd2)%Hent Heq.
        rewrite Heq in Hd1.
        pose proof (Hidx x1 _ Hx1 (mk_is_Some _ _ Hd1)) as H1.
        pose proof (Hidx x2 _ Hx2 (mk_is_Some _ _ Hd2)) as H2.
        assert (x1 = x2) as -> by (eapply NoDup_points_eq; [done | done | done | congruence]).
        congruence.
      + apply NoDup_concat_fmap.
        * apply NoDup_filter. eapply NoDup_fmap_1. exact Hnd.
        * intros x [_ Hx]%HLf. exact (node_ok_NoDup _ _ x (Hok x Hx)).
        * intros x y e [_ Hx]%HLf [_ Hy]%HLf Hex Hey.
          destruct (Hok x Hx) as [_ Hallx]. destruct (Hok y Hy) as [_ Hally].
          rewrite Forall_forall in Hallx, Hally.
          destruct (Hallx e Hex) as [Hdx _]. destruct (Hally e Hey) as [Hdy _].
          pose proof (Hidx x _ Hx (mk_is_Some _ _ Hdx)) as H1.
          pose proof (Hidx y _ Hy (mk_is_Some _ _ Hdy)) as H2.
          eapply NoDup_points_eq; [done | done | done | congruence].
    - intros k. rewrite Cache_iter_elem, list_elem_of_fmap. split.
      + intros (pt & en & Hs & Hexp).
        apply (stored_holds now c k pt en Hinv) in Hs as (x & Hx & <- & He).
        destruct (node_ok_nonempty _ _ x k en (Hok x Hx) He) as (Hkey & Hin & _).
        exists en. split; [done|]. apply elem_of_concat.
        exists (_lru_queue x). split; [done|]. apply list_elem_of_fmap_2, HLf.
        split; [|done]. apply Z.ltb_ge. simpl in Hexp. lia.
      + intros (e & -> & (x & Hx & Hexp & _ & Hd)%Hent).
        exists (point x), e. split.
        * apply (stored_holds now c _ _ _ Hinv). by exists x.
        * apply Z.ltb_ge in Hexp. simpl. lia. }
  split_and!.
  - apply Cache_iter_NoDup.
  - intros k. rewrite Cache_iter_elem. split.
    + intros (pt & en & Hs & Hexp). unfold stored in Hs.
      destruct (key_node c k) as [[path node]|] eqn:Hk; [|done].
      destruct (_data node !! k) as [en'|] eqn:He; [|done]. simpl in Hs.
      injection Hs as <- <-.
      destruct (Cache_getitem_returns k (clock k) c path node
                  (cache_inv_mono now (clock k) c (Hclock k) Hinv) Hk Hexp)
        as (e & c' & _ & Hget & _).
      by exists (value e), c'.
    + intros (v & c' & Hget). unfold Cache_getitem in Hget.
      destruct (key_node c k) as [[path node]|] eqn:Hk; [|done].
      destruct (expired node (clock k)) eqn:Hexp; [done|].
      apply Z.ltb_ge in Hexp.
      destruct (key_node_holds (clock k) c k path node
                  (cache_inv_mono now (clock k) c (Hclock k) Hinv) Hk)
        as (_ & _ & _ & _ & _ & _ & [[en He]|?]); [|lia].
      exists (point node), en. split; [by apply (stored_key_node c k path)|]. simpl. lia.
  - done.
  - unfold Cache_len. by rewrite Hperm, length_fmap.
Qed.

(** ** [pop_lru] and [lru_time] *)

(** X11: on a node whose data map and queue are consistent, [pop_lru] and
    [lru_time] raise [EmptyNode] when the node has no entry. Otherwise
    [lru_time] is the [last_used] of the head of the queue, which no entry
    of the node is below; [pop_lru] returns the key of that entry and takes
    it out of the queue and of the data map, the two staying consistent,
    then runs [clean]. *)
Theorem pop_lru_outcomes (bound : nat) (now : Z) (n : Node) :
  node_ok bound now n ->
  (empty n = true ->
   pop_lru n = Raise EmptyNode /\ lru_time n = Raise EmptyNode)
  /\ (empty n = false ->
      exists e rest,
        _lru_queue n = e :: rest /\ _data n !! key e = Some e
        /\ (forall k' e', _data n !! k' = Some e' -> last_used e <= last_used e')
        /\ lru_time n = Ok (last_used e)
        /\ let n1 := set_entries (delete (key e) (_data n)) rest n in
           pop_lru n = Ok (key e, (clean n1).1, (clean n1).2)
           /\ node_ok bound now n1).
Proof.
  intros Hok. unfold empty, pop_lru, lru_time.
  destruct (_lru_queue n) as [|e rest] eqn:Hq; [by split | split; [done|]].
  intros _. exists e, rest.
  assert (He : _data n !! key e = Some e).
  { destruct Hok as [_ Hall]. rewrite Hq in Hall.
    by apply Forall_cons in Hall as [[? _] _]. }
  split_and!; [done | done | | done | |].
  - intros k' e' He'. destruct Hok as [[Hd Hs] _].
    destruct (Hd k' e' He') as (_ & Hin & _). rewrite Hq in Hin, Hs.
    by eapply lru_sorted_head.
  - rewrite He. by destruct (clean _).
  - by apply node_ok_pop.
Qed.

(** ** [context] and [set] *)

(** X12: [with cache.context(priority, expiry_duration): cache[k] = v] in a
    state that satisfies the invariant: with a positive duration (the one
    given, else the default), and a key without entry or whose node holds
    its entry, the [set] returns and the key has an entry with the value in
    the node of expiry [now + duration] and of the priority given, else the
    default one. After the block the context has the defaults again. *)
Theorem set_within_context (prio duration : option Z) (k : K) (v : V) (now : Z)
    (c : Cache) :
  let p := default (default_priority c) prio in
  let d := default (default_expiry_duration c) duration in
  cache_inv now c -> 0 < d ->
  (forall path node, key_node c k = Some (path, node) -> is_Some (_data node !! k)) ->
  exists c',
    Cache_setitem k v now (context_enter prio duration c) = Ok c'
    /\ cache_inv now (context_exit c')
    /\ stored (context_exit c') k = Some ((now + d, p), mkEntry (next_eid c) now k v)
    /\ (forall k', k' <> k -> stored (context_exit c') k' = stored c k')
    /\ _context_priority (context_exit c') = default_priority c
    /\ _context_expiry_duration (context_exit c') = default_expiry_duration c.
Proof.
  intros p d Hinv Hd Hheld.
  destruct (Cache_setitem_returns k v now (context_enter prio duration c))
    as (c' & path & m & Hset & Hinv' & Hpm & Hmk & Hk' & Hst & _ & _ & Hdd & Hdp);
    [by apply cache_inv_context | done | done |].
  exists c'. split_and!; [done | by apply cache_inv_context | | | |].
  - change (stored (context_exit c') k) with (stored c' k).
    change (point m = (now + d, p)) in Hpm. rewrite <- Hpm.
    apply (stored_key_node c' k path _ _ Hk'). simpl. by rewrite lookup_insert_eq.
  - intros k' Hne. change (stored (context_exit c') k') with (stored c' k').
    by rewrite (Hst k' Hne).
  - simpl. by rewrite Hdp.
  - simpl. by rewrite Hdd.
Qed.

(** ** What the quadrants hold *)

(** X13: in a tree that the operations of the cache lead to from the empty
    tree, the quadrant [q] of a node [n] holds, at any depth, only nodes [m]
    for which [q] is the member [(m.expiry <= n.expiry, m.priority <
    n.priority)]: quadrants ONE and TWO hold what expires no later than [n],
    quadrants ONE and THREE what has a smaller priority value. *)
Theorem quadrant_semantics (root : option Node) (path path' : list QuadrantIndex)
    (n c m : Node) (q : QuadrantIndex) :
  reachable_tree root ->
  root ≫= node_at path = Some n -> quadrants n q = Some c ->
  node_at path' c = Some m ->
  quadrant_value q = (expiry m <=? expiry n, priority m <? priority n)
  /\ (q ∈ OLDER_QUADS <-> expiry m <= expiry n)
  /\ (q ∈ BEST_QUADS <-> priority m < priority n).
Proof.
  intros Hreach Hn Hq Hm.
  pose proof (reachable_tree_well_placed root Hreach) as Hwp.
  destruct root as [r|]; [|done]. simpl in *.
  pose proof (forall_nodes_node_at _ _ _ _ Hwp Hn) as Hsp.
  pose proof (subtrees_placed_slot n c q Hsp Hq) as Hin.
  pose proof (forall_nodes_node_at _ _ _ _ Hin Hm) as Hmq.
  unfold in_quadrant, quadrant_index in Hmq. apply bool_decide_eq_true in Hmq.
  assert (Hv : quadrant_value q = (expiry m <=? expiry n, priority m <? priority n)).
  { rewrite <- Hmq. by destruct (expiry m <=? expiry n), (priority m <? priority n). }
  split; [done|].
  rewrite <- Z.leb_le, <- Z.ltb_lt. unfold OLDER_QUADS, BEST_QUADS.
  rewrite !elem_of_cons, !elem_of_nil.
  destruct (expiry m <=? expiry n), (priority m <? priority n), q;
    simpl in Hv; try discriminate Hv; intuition (discriminate || eauto).
Qed.

Section EvictFrees.

Variable iteration : Node -> list QuadrantIndex -> list QuadrantIndex.
Hypothesis iteration_perm : forall n l, iteration n l ≡ₚ l.

(** X14: in a state that satisfies the invariant, an [evict] whose
    [prune_expired] leaves no cycle of detached nodes in memory, on a cache
    that has an entry, returns a cache without one of its entries. *)
Theorem evict_frees_entry (now : Z) (c : Cache) (k0 : K) (s0 : Point * Entry) :
  cache_inv now c -> Quadtree_leaves_cycle now (_tree c) = false ->
  stored c k0 = Some s0 ->
  exists c' k s,
    Cache_evict iteration now c = Ok c'
    /\ stored c k = Some s /\ stored c' k = None.
Proof.
  intros Hinv Hcycle Hs0.
  destruct (Cache_evict_returns iteration iteration_perm now c Hinv Hcycle)
    as (c' & Hev & _ & Hsub & _ & Hlow & _).
  set (gone := fun k : K =>
                 match stored c k with
                 | Some (pt, _) => bool_decide (pt.1 < now)
                 | None => false
                 end).
  destruct (decide (Exists (fun k => gone k = true) (map_to_list (_key_nodes c)).*1))
    as [Hex|Hnex].
  - apply Exists_exists in Hex as (k & _ & Hk). unfold gone in Hk.
    destruct (stored c k) as [[pt en]|] eqn:Hs; [|done].
    apply bool_decide_eq_true in Hk.
    exists c', k, (pt, en). split_and!; [done | done |].
    destruct (stored c' k) as [[pt' en']|] eqn:Hs'; [|done].
    destruct (Hsub k pt' en' Hs') as [Hs1 Hexp]. rewrite Hs in Hs1.
    injection Hs1 as <- <-. done.
  - rewrite <- Forall_Exists_neg, Forall_forall in Hnex.
    destruct (Hlow) with (k0 := k0) (s0 := s0) as (kv & ptv & env & Hv & Hv' & _);
      [|done|].
    + intros k pt en Hs Hexp.
      assert (Hin : k ∈ (map_to_list (_key_nodes c)).*1).
      { unfold stored, key_node in Hs.
        destruct (_key_nodes c !! k) as [pt'|] eqn:Hpt; simpl in Hs; [|done].
        apply list_elem_of_fmap. exists (k, pt'). split; [done|].
        by apply elem_of_map_to_list. }
      apply (Hnex k Hin). unfold gone. rewrite Hs. by apply bool_decide_eq_true.
    + by exists c', kv, (ptv, env).
Qed.

End EvictFrees.

(** ** [get], then [evict] *)

Section GetThenEvict.

Variable iteration : Node -> list QuadrantIndex -> list QuadrantIndex.
Hypothesis iteration_perm : forall n l, iteration n l ≡ₚ l.

(** X15: a [get] protects its key from the next [evict]. In a state that
    satisfies the invariant and has no expired entry, after a [get] of [k]
    that returned, [evict] at the same clock reading keeps the entry of [k],
    provided another key has an entry that was last used before, in a node
    whose priority value is not smaller. The [evict] is [Cache_evict_full];
    where its [prune_expired] leaves no cycle of detached nodes in memory
    (nodes without entries, here), it is [Cache_evict]. *)
Theorem getitem_then_evict (k k' : K) (v : V) (now : Z) (c c1 : Cache)
    (pt' : Point) (en' : Entry) :
  cache_inv now c -> Cache_getitem k now c = Ok (v, c1) ->
  (forall k0 pt en, stored c k0 = Some (pt, en) -> ~ pt.1 < now) ->
  k' <> k -> stored c k' = Some (pt', en') -> last_used en' < now ->
  (forall pt en, stored c k = Some (pt, en) -> pt.2 <= pt'.2) ->
  exists c2 d pt en,
    Cache_evict_full iteration now c1 = Ok (c2, d)
    /\ stored c2 k = Some (pt, en) /\ value en = v /\ last_used en = now
    /\ (Quadtree_leaves_cycle now (_tree c1) = false ->
        Cache_evict iteration now c1 = Ok c2).
Proof.
  intros Hinv Hget Hfresh Hne Hs' Hused Hprio.
  pose proof Hget as Hget'. unfold Cache_getitem in Hget'.
  destruct (key_node c k) as [[path node]|] eqn:Hk; [|done].
  destruct (expired node now) eqn:Hexp; [done|]. apply Z.ltb_ge in Hexp.
  destruct (Cache_getitem_returns k now c path node Hinv Hk)
    as (e & c1' & He & Hget1 & Hinv1 & Hs1 & Hst1); [lia|].
  rewrite Hget in Hget1. injection Hget1 as -> <-. clear Hget'.
  pose proof (stored_key_node c k path node e Hk He) as Hs.
  destruct (Cache_evict_full_returns iteration iteration_perm now c1 Hinv1)
    as (c2 & d & Hev & _ & _ & _ & Hlow & _).
  destruct (Hlow) with (k0 := k) (s0 := (point node, mkEntry (next_eid c) now k (value e)))
    as (kv & ptv & env & Hv & Hv2 & Hothers & Hmax); [|done|].
  { intros k0 pt en Hs0. destruct (decide (k0 = k)) as [->|Hk0].
    - rewrite Hs1 in Hs0. injection Hs0 as <- _. by apply (Hfresh k _ e).
    - rewrite (Hst1 k0 Hk0) in Hs0. by eapply Hfresh. }
  exists c2, d, (point node), (mkEntry (next_eid c) now k (value e)).
  split_and!; [done | | done | done |].
  2: { intros Hcycle.
       by destruct (Cache_evict_no_cycle iteration now c1 c2 d Hcycle Hev). }
  destruct (decide (kv = k)) as [->|Hkv]; [|by rewrite (Hothers k) by done].
  exfalso. rewrite Hs1 in Hv. injection Hv as <- <-.
  specialize (Hprio _ _ Hs).
  destruct (Hmax k' pt' en') as [Hlt|[_ Hle]]; [by rewrite (Hst1 k' Hne) | lia |].
  simpl in Hle. lia.
Qed.

End GetThenEvict.

(** ** [__len__] after a [set] and after a [del] *)

Lemma length_same_elements {A : Type} (l l' : list A) :
  NoDup l -> NoDup l' -> (forall x, x ∈ l' <-> x ∈ l) -> length l' = length l.
Proof. intros Hl Hl' Hiff. by rewrite (NoDup_Permutation l' l Hl' Hl Hiff). Qed.

Lemma length_one_more {A : Type} (l l' : list A) (k : A) :
  NoDup l -> NoDup l' -> k ∉ l -> (forall x, x ∈ l' <-> x = k \/ x ∈ l) ->
  length l' = S (length l).
Proof.
  intros Hl Hl' Hk Hiff.
  rewrite (NoDup_Permutation l' (k :: l) Hl'); [done | by apply NoDup_cons |].
  intros x. by rewrite elem_of_cons.
Qed.

(** X16: in a state that satisfies the invariant, a [set] that returns
    leaves [__len__] as it was when [__iter__] yielded the key, and one
    larger when it did not; a [del] that returns leaves it one smaller when
    [__iter__] yielded the key, and as it was when it did not. *)
Theorem len_after_setitem_delitem (k : K) (now : Z) (c c' : Cache) :
  cache_inv now c ->
  let clock := fun _ : K => now in
  (forall v,
     Cache_setitem k v now c = Ok c' ->
     Cache_len clock c'
     = if decide (k ∈ Cache_iter clock c) then Cache_len clock c
       else S (Cache_len clock c))
  /\ (Cache_delitem k c = Ok c' ->
      Cache_len clock c
      = if decide (k ∈ Cache_iter clock c) then S (Cache_len clock c')
        else Cache_len clock c').
Proof.
  intros Hinv clock. unfold Cache_len. split.
  - intros v Hset.
    destruct (decide (0 < _context_expiry_duration c)) as [Hd|Hd];
      [|rewrite Cache_setitem_assert in Hset by lia; done].
    destruct (Cache_setitem_returns k v now c Hinv Hd)
      as (c1 & path & m & Hset1 & _ & Hpm & _ & Hk1 & Hst & _).
    { intros path node Hk. destruct (_data node !! k) eqn:He; [done|].
      rewrite (Cache_setitem_stale k v now c path node) in Hset; done. }
    rewrite Hset in Hset1. injection Hset1 as <-.
    assert (Hin : k ∈ Cache_iter clock c').
    { apply Cache_iter_elem. eexists (point m), _. split.
      - apply (stored_key_node c' k path _ _ Hk1). simpl. by rewrite lookup_insert_eq.
      - rewrite Hpm. unfold clock. simpl. lia. }
    assert (Hother : forall x, x <> k ->
              x ∈ Cache_iter clock c' <-> x ∈ Cache_iter clock c).
    { intros x Hx. by rewrite !Cache_iter_elem, (Hst x Hx). }
    destruct (decide (k ∈ Cache_iter clock c)) as [Hold|Hold].
    + apply length_same_elements; [apply Cache_iter_NoDup .. |].
      intros x. destruct (decide (x = k)) as [->|Hx]; [tauto | by apply Hother].
    + apply (length_one_more _ _ k); [apply Cache_iter_NoDup .. | done |].
      intros x. destruct (decide (x = k)) as [->|Hx]; [tauto|].
      rewrite (Hother x Hx). intuition congruence.
  - intros Hdel. pose proof Hdel as Hdel'. unfold Cache_delitem in Hdel'.
    destruct (key_node c k) as [[path node]|] eqn:Hk; [|done]. clear Hdel'.
    destruct (_data node !! k) as [e|] eqn:He.
    2: { destruct (Cache_delitem_stale k now c path node Hinv Hk He) as [Hr _].
         congruence. }
    destruct (Cache_delitem_returns k now c path node Hinv Hk)
      as (c1 & Hdel1 & _ & Hk1 & Hst & _); [by rewrite He|].
    rewrite Hdel in Hdel1. injection Hdel1 as <-.
    assert (Hout : k ∉ Cache_iter clock c').
    { intros (pt & en & Hs & _)%Cache_iter_elem. unfold stored in Hs.
      by rewrite Hk1 in Hs. }
    assert (Hother : forall x, x <> k ->
              x ∈ Cache_iter clock c' <-> x ∈ Cache_iter clock c).
    { intros x Hx. by rewrite !Cache_iter_elem, (Hst x Hx). }
    destruct (decide (k ∈ Cache_iter clock c)) as [Hold|Hold].
    + apply (length_one_more _ _ k); [apply Cache_iter_NoDup .. | done |].
      intros x. destruct (decide (x = k)) as [->|Hx]; [tauto|].
      rewrite (Hother x Hx). intuition congruence.
    + apply length_same_elements; [apply Cache_iter_NoDup .. |].
      intros x. destruct (decide (x = k)) as [->|Hx]; [tauto | symmetry; by apply Hother].
Qed.

End Properties.

(** * Witnesses on concrete caches *)


Lemma lru_consistent_two_entries : lru_consistent Examples.two_entries.
Proof.
  split.
  - intros k e Hk. unfold Examples.two_entries, add_entry in Hk. simpl in Hk.
    destruct (decide (k = 2)) as [->|]; [|destruct (decide (k = 1)) as [->|]].
    + rewrite lookup_insert_eq in Hk. simplify_eq. split_and!; [done | | done].
      apply list_elem_of_In. simpl. tauto.
    + rewrite lookup_insert_ne, lookup_insert_eq in Hk by done. simplify_eq.
      split_and!; [done | | done]. apply list_elem_of_In. simpl. tauto.
    + by rewrite !lookup_insert_ne, lookup_empty in Hk.
  - repeat constructor; simpl; lia.
Qed.

Lemma delete_entry_finds_entry_witness :
  exists e i,
    _data Examples.two_entries !! 2 = Some e /\ _lru_queue Examples.two_entries !! i = Some e
    /\ remove_entry 2 Examples.two_entries <> Raise LruMissing
    /\ forall cl : bool,
         delete_entry 2 cl Examples.two_entries =
         Ok (let n' := set_entries (delete 2 (_data Examples.two_entries))
                         (delete i (_lru_queue Examples.two_entries)) Examples.two_entries in
             if cl then clean n' else (n', NoCall)).
Proof.
  apply (delete_entry_finds_entry Examples.two_entries 2).
  - exact lru_consistent_two_entries.
  - by eexists.
Defined.

(** C6 as the specification words it fails: a node with an entry and no
    quadrants makes no call on its parent. *)
Lemma clean_keeps_leaf_with_entries :
  let n : Examples.ZNode := add_entry 1 10 0 0%nat (new_node 5 0) in
  empty n = false /\ quadrant_items n = [] /\ (clean n).2 = NoCall
  /\ (clean n).2 <> CallDelete.
Proof. by split_and!. Qed.

Lemma clean_deletes_empty_leaf_witness :
  let n : Examples.ZNode := new_node 5 0 in
  (empty n = true /\ quadrant_items n = [] /\ clean n = (n, CallDelete)).
Proof.
  intros n. split_and!; [done | done |].
  by apply (proj1 (clean_deletes_empty_leaf n)).
Defined.

(** C9 on a new cache with the defaults 1000 and 0: inside the scope of
    priority 10 and duration 5, key 1 goes to the node (5, 10); after a
    scope of priority 20 and duration 7 was entered and left inside it, key
    1 goes to the node (1000, 0). *)
Lemma set_after_inner_scope_uses_defaults_witness :
  let c : Examples.ZCache := new_cache 1000 0 in
  cache_inv 0 c /\ 0 < default_expiry_duration c /\ 0 < 5
  /\ key_node c 1 = None
  /\ (exists c1,
        Cache_setitem 1 1 0 (context_enter (Some 10) (Some 5) c) = Ok c1
        /\ stored c1 1 = Some ((0 + 5, 10), mkEntry (next_eid c) 0 1 1))
  /\ exists c2,
       Cache_setitem 1 1 0 Examples.nested_scopes = Ok c2
       /\ stored c2 1
          = Some ((0 + default_expiry_duration c, default_priority c),
                  mkEntry (next_eid c) 0 1 1)
       /\ ((5, 10) <> (default_expiry_duration c, default_priority c) ->
           stored c2 1 <> Some ((0 + 5, 10), mkEntry (next_eid c) 0 1 1)).
Proof.
  intros c.
  assert (Hinv : cache_inv 0 c) by apply cache_inv_new.
  split; [done|]. split; [reflexivity|]. split; [reflexivity|]. split; [reflexivity|].
  apply (set_after_inner_scope_uses_defaults 10 5 (Some 20) (Some 7) 1 1 0 c);
    [exact Hinv | reflexivity | reflexivity | by intros path node Hk].
Defined.

Lemma prune_expired_clears_expired_witness :
  opt_nodes well_placed Examples.pivot_tree = true
  /\ exists r root',
       Quadtree_prune_expired 11 Examples.pivot_tree = Ok (r, root')
       /\ forall path m,
            root' ≫= node_at path = Some m -> expiry m < 11 ->
            _lru_queue m = [] /\ _data m = ∅.
Proof.
  split; [reflexivity|].
  apply (prune_expired_clears_expired 11 Examples.pivot_tree). reflexivity.
Defined.

Lemma prune_expired_flag_witness :
  opt_nodes well_placed Examples.pivot_tree = true
  /\ exists r root',
       Quadtree_prune_expired 11 Examples.pivot_tree = Ok (r, root')
       /\ sublist (root_entries root') (root_entries Examples.pivot_tree)
       /\ (r = true <->
           (length (root_entries root') < length (root_entries Examples.pivot_tree))%nat)
       /\ (r = false <-> root_entries root' = root_entries Examples.pivot_tree).
Proof.
  split; [reflexivity|].
  apply (prune_expired_flag 11 Examples.pivot_tree). reflexivity.
Defined.

Example prune_lowest_priority_pivot_tree :
  exists root',
    Quadtree_prune_lowest_priority (fun _ l => l) Examples.pivot_tree = Ok (1, root').
Proof. eexists. reflexivity. Qed.

Lemma prune_lowest_priority_spec_witness :
  let it := fun (_ : Examples.ZNode) (l : list QuadrantIndex) => l in
  let root := Examples.pivot_tree in
  (forall n l, it n l ≡ₚ l)
  /\ opt_nodes well_placed root = true
  /\ opt_nodes (forall_nodes queue_indexed) root = true
  /\ (root_entries root = [] ->
      Quadtree_prune_lowest_priority it root = Raise EmptyTree)
  /\ (root_entries root <> [] ->
      exists r path m e rest root',
        root = Some r /\ node_at path r = Some m /\ _lru_queue m = e :: rest
        /\ (forall path' m',
              node_at path' r = Some m' -> empty m' = false ->
              priority m' < priority m
              \/ (priority m' = priority m /\ lru_head m <= lru_head m'))
        /\ (lru_sorted (_lru_queue m) ->
            forall e', e' ∈ _lru_queue m -> last_used e <= last_used e')
        /\ Quadtree_prune_lowest_priority it root = Ok (key e, root')
        /\ exists l1 l2,
             root_entries root = l1 ++ e :: l2 /\ root_entries root' = l1 ++ l2).
Proof.
  intros it root.
  assert (Hperm : forall n l, it n l ≡ₚ l) by done.
  split; [done|]. split; [reflexivity|]. split; [reflexivity|].
  apply (prune_lowest_priority_spec it Hperm root); reflexivity.
Defined.

Example three_sets_pivot_cache : Examples.three_sets = Ok Examples.pivot_cache.
Proof. by vm_compute. Qed.

(** C7 fails on the code. Key 1 sits in the root node, which expires at 10
    and has two children that expire at 20. At clock reading 11 [evict]
    empties the root and leaves it in the tree, so the key index still
    refers to it; [set] of key 1 then runs [del self[key]], whose
    [delete_entry] raises [KeyError] on the emptied data map. No value is
    stored, and with the key popped from the key index by [__delitem__], the
    [get] that follows raises [KeyDoesNotExist]. *)
Theorem setitem_raises_after_pivot_cleared :
  exists c,
    Cache_evict Examples.in_order 11 Examples.pivot_cache = Ok c
    /\ Cache_setitem 1 999 11 c = Raise KeyError
    /\ Cache_getitem 1 11 (set_key_nodes (delete 1 (_key_nodes c)) c)
       = Raise KeyDoesNotExist.
Proof. eexists. split_and!; by vm_compute. Qed.

Example chained_sets_chain_cache : Examples.chained_sets = Ok Examples.chain_cache.
Proof. by vm_compute. Qed.

(** [evict] in its five cases. At clock reading 5 no node of [pivot_cache]
    has expired: the entry of key 1 leaves the tree and the key index. On a
    new cache [EmptyTree] is swallowed. In [single_cache] the only node
    leaves the tree with its entry, the reference of key 1 dies with it, and
    the [KeyError] of [del self._key_nodes[key]] is swallowed. At clock
    reading 11 the root of [pivot_cache] has expired: it is emptied and no
    other entry goes. At clock reading 11 the root of [chain_cache] has
    expired and the node at (5, 5), deleted from its quadrants, has a child:
    the tree is left without a root, the three nodes stay in memory and the
    indices keep their references to them. *)
Lemma Cache_evict_spec_witness :
  (forall n l, Examples.in_order n l ≡ₚ l)
  /\ (let c := Examples.pivot_cache in
      opt_nodes well_placed (_tree c) = true
      /\ opt_nodes (forall_nodes queue_indexed) (_tree c) = true
      /\ Quadtree_prune_expired 5 (_tree c) = Ok (false, _tree c)
      /\ exists e root2 l1 l2 c',
           Quadtree_prune_lowest_priority Examples.in_order (_tree c) = Ok (key e, root2)
           /\ root_entries (_tree c) = l1 ++ e :: l2 /\ root_entries root2 = l1 ++ l2
           /\ Cache_evict_full Examples.in_order 5 c = Ok (c', mkDetached ∅ ∅)
           /\ Cache_evict Examples.in_order 5 c = Ok c'
           /\ _tree c' = root2 /\ _key_nodes c' !! key e = None)
  /\ (let c : Examples.ZCache := new_cache 1000 0 in
      opt_nodes well_placed (_tree c) = true
      /\ opt_nodes (forall_nodes queue_indexed) (_tree c) = true
      /\ Quadtree_prune_expired 0 (_tree c) = Ok (false, None)
      /\ Quadtree_prune_lowest_priority Examples.in_order (_tree c) = Raise EmptyTree
      /\ Cache_evict_full Examples.in_order 0 c = Ok (c, mkDetached ∅ ∅)
      /\ Cache_evict Examples.in_order 0 c = Ok c)
  /\ (let c := Examples.single_cache in
      opt_nodes well_placed (_tree c) = true
      /\ opt_nodes (forall_nodes queue_indexed) (_tree c) = true
      /\ Quadtree_prune_expired 5 (_tree c) = Ok (false, _tree c)
      /\ Quadtree_prune_lowest_priority Examples.in_order (_tree c) = Ok (1, None)
      /\ _key_nodes (sweep (set_tree None c)) !! 1 = None
      /\ Cache_evict_full Examples.in_order 5 c
         = Ok (Examples.emptied_cache, mkDetached ∅ ∅)
      /\ Cache_evict Examples.in_order 5 c = Ok Examples.emptied_cache)
  /\ (let c := Examples.pivot_cache in
      opt_nodes well_placed (_tree c) = true
      /\ opt_nodes (forall_nodes queue_indexed) (_tree c) = true
      /\ Quadtree_prune_expired 11 (_tree c) = Ok (true, Examples.pruned_pivot_tree)
      /\ exists c',
           Cache_evict_full Examples.in_order 11 c = Ok (c', mkDetached ∅ ∅)
           /\ Cache_evict Examples.in_order 11 c = Ok c'
           /\ c' = sweep (set_tree Examples.pruned_pivot_tree c)
           /\ _key_nodes c' !! 1 = Some (10, 5)
           /\ root_entries (_tree c') = [mkEntry 2%nat 0 3 300; mkEntry 1%nat 0 2 200])
  /\ (let c := Examples.chain_cache in
      opt_nodes well_placed (_tree c) = true
      /\ opt_nodes (forall_nodes queue_indexed) (_tree c) = true
      /\ Quadtree_prune_expired 11 (_tree c) = Ok (true, None)
      /\ Quadtree_leaves_cycle 11 (_tree c) = true
      /\ Cache_evict_full Examples.in_order 11 c
         = Ok (mkCache 1000000000 0 None ∅ ∅ 1000000000 0 3,
               mkDetached (list_to_set [(10, 5); (5, 5); (3, 5)])
                 (list_to_map [(1, (10, 5)); (2, (5, 5)); (3, (3, 5))]))
      /\ Cache_evict Examples.in_order 11 c = Raise OutsideModel).
Proof.
  assert (Hperm : forall n l, Examples.in_order n l ≡ₚ l) by done.
  split; [done|]. split_and!.
  - intros c. split; [reflexivity|]. split; [reflexivity|]. split; [reflexivity|].
    destruct (Cache_evict_spec Examples.in_order Hperm 5 c eq_refl eq_refl)
      as (r & root1 & c' & d & Hpe & Hfull & _ & Hprio & Hok & _).
    assert (Hpe' : Quadtree_prune_expired 5 (_tree c) = Ok (false, _tree c))
      by reflexivity.
    rewrite Hpe' in Hpe. simplify_eq.
    destruct (Hprio eq_refl) as (e & root2 & l1 & l2 & d2 & Hpl & Hl1 & Hl2 & Hc');
      [done|].
    cbn zeta in Hc'. destruct Hc' as (_ & _ & Ht & Hk & _).
    destruct (Hok eq_refl) as [-> Hev].
    by exists e, root2, l1, l2, c'.
  - intros c. split; [reflexivity|]. split; [reflexivity|]. split; [reflexivity|].
    destruct (Cache_evict_spec Examples.in_order Hperm 0 c eq_refl eq_refl)
      as (r & root1 & c' & d & Hpe & Hfull & Hcases & _ & Hok & _).
    assert (Hpe' : Quadtree_prune_expired 0 (_tree c) = Ok (false, None))
      by reflexivity.
    rewrite Hpe' in Hpe. simplify_eq. cbn zeta in Hcases.
    destruct Hcases as [_ Hempty].
    destruct (Hempty eq_refl eq_refl) as (Hraise & Hc' & _).
    destruct (Hok eq_refl) as [-> Hev].
    assert (Hc : c' = c) by (rewrite Hc'; by vm_compute).
    rewrite Hc in Hfull, Hev. by split_and!.
  - intros c. split; [reflexivity|]. split; [reflexivity|]. split; [reflexivity|].
    destruct (Cache_evict_spec Examples.in_order Hperm 5 c eq_refl eq_refl)
      as (r & root1 & c' & d & Hpe & Hfull & _ & Hprio & Hok & _).
    assert (Hpe' : Quadtree_prune_expired 5 (_tree c) = Ok (false, _tree c))
      by reflexivity.
    rewrite Hpe' in Hpe. simplify_eq.
    assert (Hpl' : Quadtree_prune_lowest_priority Examples.in_order (_tree c)
                   = Ok (1, None)) by reflexivity.
    assert (Hk : _key_nodes (sweep (set_tree None c)) !! 1 = None) by by vm_compute.
    destruct (Hprio eq_refl) as (e & root2 & l1 & l2 & d2 & Hpl & _ & _ & Hc');
      [done|].
    pose proof (eq_trans (eq_sym Hpl) Hpl') as Heq. injection Heq as He ->.
    rewrite He in Hc'.
    cbn zeta in Hc'. destruct Hc' as (_ & _ & _ & _ & _ & Habsent & _).
    destruct (Hok eq_refl) as [-> Hev].
    assert (Hc : c' = Examples.emptied_cache) by (rewrite Habsent; by vm_compute).
    rewrite Hc in Hfull, Hev. by split_and!.
  - intros c. split; [reflexivity|]. split; [reflexivity|]. split; [reflexivity|].
    destruct (Cache_evict_spec Examples.in_order Hperm 11 c eq_refl eq_refl)
      as (r & root1 & c' & d & Hpe & Hfull & Hcases & _ & Hok & _).
    assert (Hpe' : Quadtree_prune_expired 11 (_tree c)
                   = Ok (true, Examples.pruned_pivot_tree)) by reflexivity.
    rewrite Hpe' in Hpe. simplify_eq. cbn zeta in Hcases.
    destruct Hcases as [Htrue _]. destruct (Htrue eq_refl) as [Hc' _].
    destruct (Hok eq_refl) as [-> Hev].
    exists c'. split_and!; [done | done | done | |]; rewrite Hc'; by vm_compute.
  - intros c. split; [reflexivity|]. split; [reflexivity|]. split; [reflexivity|].
    split; [reflexivity|].
    destruct (Cache_evict_spec Examples.in_order Hperm 11 c eq_refl eq_refl)
      as (r & root1 & c' & d & Hpe & Hfull & Hcases & _ & _ & Hcycle).
    assert (Hpe' : Quadtree_prune_expired 11 (_tree c) = Ok (true, None))
      by reflexivity.
    rewrite Hpe' in Hpe. simplify_eq. cbn zeta in Hcases.
    destruct Hcases as [Htrue _]. destruct (Htrue eq_refl) as [Hc' Hd].
    split; [|by apply Hcycle].
    rewrite Hfull, Hc', Hd. by vm_compute.
Defined.

(** Without an expired node, [evict] removes the least recently used entry
    of the largest priority value: here key 1, written before key 2. *)
Example evict_by_priority :
  exists c,
    Cache_evict Examples.in_order 5 Examples.pivot_cache = Ok c
    /\ Cache_getitem 1 5 c = Raise KeyDoesNotExist
    /\ (exists c', Cache_getitem 2 5 c = Ok (200, c'))
    /\ (exists c', Cache_getitem 3 5 c = Ok (300, c')).
Proof. eexists. split_and!; [by vm_compute | by vm_compute | |]; eexists; by vm_compute. Qed.

Lemma quadrant_invariant_preserved_witness :
  let c := Examples.pivot_cache in
  opt_nodes quadrant_invariant (_tree c) = true
  /\ (forall k v now c',
        Cache_setitem k v now c = Ok c' ->
        opt_nodes quadrant_invariant (_tree c') = true)
  /\ (forall k now v c',
        Cache_getitem k now c = Ok (v, c') ->
        opt_nodes quadrant_invariant (_tree c') = true)
  /\ (forall k c',
        Cache_delitem k c = Ok c' ->
        opt_nodes quadrant_invariant (_tree c') = true)
  /\ (forall now c',
        Cache_evict Examples.in_order now c = Ok c' ->
        opt_nodes quadrant_invariant (_tree c') = true)
  /\ (forall p e,
        opt_nodes quadrant_invariant (Quadtree_insert p e (_tree c)).1 = true)
  /\ (forall now r root',
        Quadtree_prune_expired now (_tree c) = Ok (r, root') ->
        opt_nodes quadrant_invariant root' = true)
  /\ (forall k root',
        Quadtree_prune_lowest_priority Examples.in_order (_tree c) = Ok (k, root') ->
        opt_nodes quadrant_invariant root' = true)
  /\ (forall self node,
        _tree c = Some self -> quadrant_invariant node = true ->
        quadrant_invariant (Node_replace self node) = true).
Proof.
  intros c. split; [reflexivity|].
  apply (quadrant_invariant_preserved Examples.in_order c). reflexivity.
Defined.

(** * Witnesses of the properties of the cache *)

Lemma in_order_perm (n : Examples.ZNode) (l : list QuadrantIndex) :
  Examples.in_order n l ≡ₚ l.
Proof. done. Qed.

(** The three [set] of [three_sets], as a run. *)
Lemma three_sets_run (c : Examples.ZCache) :
  Examples.three_sets = Ok c -> cache_run Examples.in_order 0 c.
Proof.
  unfold Examples.three_sets, Examples.set_in_context. intros Hc.
  destruct (Cache_setitem 1 100 0 _) as [c1|] eqn:H1;
    cbn [mbind result_bind] in Hc; [|done].
  destruct (Cache_setitem 2 200 0 _) as [c2|] eqn:H2;
    cbn [mbind result_bind] in Hc; [|done].
  destruct (Cache_setitem 3 300 0 _) as [c3|] eqn:H3;
    cbn [mbind result_bind] in Hc; [|done].
  injection Hc as <-.
  apply run_context_exit. eapply run_setitem; [|exact H3].
  apply run_context_enter.
  apply run_context_exit. eapply run_setitem; [|exact H2].
  apply run_context_enter.
  apply run_context_exit. eapply run_setitem; [|exact H1].
  apply run_context_enter. apply run_new.
Qed.

Lemma three_sets_inv (c : Examples.ZCache) :
  Examples.three_sets = Ok c -> cache_inv 0 c.
Proof.
  unfold Examples.three_sets, Examples.set_in_context. intros Hc.
  destruct (Cache_setitem 1 100 0 _) as [c1|] eqn:H1;
    cbn [mbind result_bind] in Hc; [|done].
  destruct (Cache_setitem 2 200 0 _) as [c2|] eqn:H2;
    cbn [mbind result_bind] in Hc; [|done].
  destruct (Cache_setitem 3 300 0 _) as [c3|] eqn:H3;
    cbn [mbind result_bind] in Hc; [|done].
  injection Hc as <-.
  apply cache_inv_context. eapply Cache_setitem_inv; [|exact H3].
  apply cache_inv_context.
  apply cache_inv_context. eapply Cache_setitem_inv; [|exact H2].
  apply cache_inv_context.
  apply cache_inv_context. eapply Cache_setitem_inv; [|exact H1].
  apply cache_inv_context. apply cache_inv_new.
Qed.

Lemma cache_inv_pivot_cache (now : Z) : 0 <= now -> cache_inv now Examples.pivot_cache.
Proof.
  intros Hle. apply (cache_inv_mono 0 now); [done|].
  apply three_sets_inv, three_sets_pivot_cache.
Qed.

Lemma cache_run_inv_witness :
  let c := Examples.pivot_cache in
  cache_run Examples.in_order 0 c /\ cache_inv 0 c.
Proof.
  intros c.
  assert (Hrun : cache_run Examples.in_order 0 c)
    by apply three_sets_run, three_sets_pivot_cache.
  split; [done|].
  apply (cache_run_inv Examples.in_order in_order_perm 0 c). exact Hrun.
Defined.

Lemma setitem_then_getitem_witness :
  let c := Examples.pivot_cache in
  cache_inv 5 c /\ 0 < _context_expiry_duration c
  /\ exists c',
       Cache_setitem 2 999 5 c = Ok c'
       /\ cache_inv 5 c'
       /\ stored c' 2
          = Some ((5 + _context_expiry_duration c, _context_priority c),
                  mkEntry (next_eid c) 5 2 999)
       /\ (forall k', k' <> 2 -> stored c' k' = stored c k')
       /\ forall now',
            5 <= now' ->
            (now' <= 5 + _context_expiry_duration c ->
             exists c'', Cache_getitem 2 now' c' = Ok (999, c''))
            /\ (5 + _context_expiry_duration c < now' ->
                Cache_getitem 2 now' c' = Raise KeyExpired).
Proof.
  intros c.
  assert (Hinv : cache_inv 5 c) by (apply cache_inv_pivot_cache; lia).
  split; [done|]. split; [reflexivity|].
  apply (setitem_then_getitem 2 999 5 c); [done | reflexivity |].
  intros path node Hk. vm_compute in Hk. injection Hk as _ <-. by eexists.
Defined.

Lemma setitem_error_cases_witness :
  let c := Examples.pivot_cache in
  cache_inv 5 c
  /\ (Cache_setitem 2 999 5 c = Raise AssertionError <-> _context_expiry_duration c <= 0)
  /\ (Cache_setitem 2 999 5 c = Raise KeyError <->
      0 < _context_expiry_duration c
      /\ exists path node,
           key_node c 2 = Some (path, node) /\ _data node !! 2 = None)
  /\ (forall path node,
        key_node c 2 = Some (path, node) -> _data node !! 2 = None ->
        expiry node < 5)
  /\ forall e, Cache_setitem 2 999 5 c = Raise e -> e = AssertionError \/ e = KeyError.
Proof.
  intros c.
  assert (Hinv : cache_inv 5 c) by (apply cache_inv_pivot_cache; lia).
  split; [done|]. apply (setitem_error_cases 2 999 5 c). exact Hinv.
Defined.

Lemma getitem_outcomes_witness :
  let c := Examples.pivot_cache in
  cache_inv 5 c
  /\ ((key_node c 2 = None /\ Cache_getitem 2 5 c = Raise KeyDoesNotExist)
      \/ (exists path node,
            key_node c 2 = Some (path, node) /\ expiry node < 5
            /\ Cache_getitem 2 5 c = Raise KeyExpired)
      \/ (exists pt en c',
            stored c 2 = Some (pt, en) /\ ~ pt.1 < 5
            /\ Cache_getitem 2 5 c = Ok (value en, c')
            /\ cache_inv 5 c'
            /\ stored c' 2 = Some (pt, mkEntry (next_eid c) 5 2 (value en))
            /\ forall k', k' <> 2 -> stored c' k' = stored c k')).
Proof.
  intros c.
  assert (Hinv : cache_inv 5 c) by (apply cache_inv_pivot_cache; lia).
  split; [done|]. apply (getitem_outcomes 2 5 c). exact Hinv.
Defined.

Lemma delitem_outcomes_witness :
  let c := Examples.pivot_cache in
  cache_inv 5 c
  /\ (key_node c 2 = None -> Cache_delitem 2 c = Raise KeyError)
  /\ (forall s,
        stored c 2 = Some s ->
        exists c',
          Cache_delitem 2 c = Ok c' /\ cache_inv 5 c'
          /\ stored c' 2 = None
          /\ (forall k', k' <> 2 -> stored c' k' = stored c k')
          /\ forall now', Cache_getitem 2 now' c' = Raise KeyDoesNotExist)
  /\ (forall path node,
        key_node c 2 = Some (path, node) -> _data node !! 2 = None ->
        Cache_delitem 2 c = Raise KeyError).
Proof.
  intros c.
  assert (Hinv : cache_inv 5 c) by (apply cache_inv_pivot_cache; lia).
  split; [done|]. apply (delitem_outcomes 2 5 c). exact Hinv.
Defined.

Lemma evict_outcomes_witness :
  let c := Examples.pivot_cache in
  cache_inv 11 c /\ Quadtree_leaves_cycle 11 (_tree c) = false
  /\ exists c',
       Cache_evict Examples.in_order 11 c = Ok c' /\ cache_inv 11 c'
       /\ (forall k pt en,
             stored c' k = Some (pt, en) -> stored c k = Some (pt, en) /\ ~ pt.1 < 11)
       /\ ((exists k pt en, stored c k = Some (pt, en) /\ pt.1 < 11) ->
           forall k pt en,
             stored c k = Some (pt, en) -> ~ pt.1 < 11 -> stored c' k = Some (pt, en))
       /\ ((forall k pt en, stored c k = Some (pt, en) -> ~ pt.1 < 11) ->
           forall k0 s0,
             stored c k0 = Some s0 ->
             exists kv ptv env,
               stored c kv = Some (ptv, env) /\ stored c' kv = None
               /\ (forall k, k <> kv -> stored c' k = stored c k)
               /\ forall k pt en,
                    stored c k = Some (pt, en) ->
                    pt.2 < ptv.2 \/ (pt.2 = ptv.2 /\ last_used env <= last_used en)).
Proof.
  intros c.
  assert (Hinv : cache_inv 11 c) by (apply cache_inv_pivot_cache; lia).
  split; [done|]. split; [reflexivity|].
  apply (evict_outcomes Examples.in_order in_order_perm 11 c); [exact Hinv | reflexivity].
Defined.

Lemma prune_expired_keeps_unexpired_witness :
  let m := add_entry 3 300 0 2%nat (new_node 20 3) : Examples.ZNode in
  opt_nodes well_placed Examples.pivot_tree = true
  /\ Quadtree_prune_expired 11 Examples.pivot_tree = Ok (true, Examples.pruned_pivot_tree)
  /\ Examples.pivot_tree ≫= node_at [THREE] = Some m
  /\ ~ expiry m < 11 /\ _lru_queue m <> []
  /\ exists path' m',
       Examples.pruned_pivot_tree ≫= node_at path' = Some m'
       /\ expiry m' = expiry m /\ priority m' = priority m
       /\ _data m' = _data m /\ _lru_queue m' = _lru_queue m.
Proof.
  intros m.
  assert (H1 : opt_nodes well_placed Examples.pivot_tree = true) by reflexivity.
  assert (H2 : Quadtree_prune_expired 11 Examples.pivot_tree
               = Ok (true, Examples.pruned_pivot_tree)) by (by vm_compute).
  assert (H3 : Examples.pivot_tree ≫= node_at [THREE] = Some m) by reflexivity.
  assert (H4 : ~ expiry m < 11) by (simpl; lia).
  assert (H5 : _lru_queue m <> []) by done.
  split_and!; [done .. |].
  exact (prune_expired_keeps_unexpired 11 Examples.pivot_tree Examples.pruned_pivot_tree
           true [THREE] m H1 H2 H3 H4 H5).
Defined.

Lemma insert_then_lookup_witness :
  let root := Examples.pivot_tree in
  let root' := (Quadtree_insert 4 30 root).1 in
  let path := (Quadtree_insert 4 30 root).2 in
  opt_nodes well_placed root = true
  /\ root' ≫= node_at path = Some (new_node 30 4)
  /\ root_nodes root' ≡ₚ new_node 30 4 :: root_nodes root
  /\ opt_nodes well_placed root' = true
  /\ (NoDup (point <$> root_nodes root) -> (30, 4) ∉ point <$> root_nodes root ->
      deref (30, 4) root' = Some (path, new_node 30 4)).
Proof.
  intros root root' path. split; [reflexivity|].
  apply (insert_then_lookup 4 30 root). reflexivity.
Defined.

Lemma iter_len_spec_witness :
  let c := Examples.pivot_cache in
  let clock := fun _ : Z => 11 in
  cache_inv 11 c /\ (forall k, 11 <= clock k)
  /\ NoDup (Cache_iter clock c)
  /\ (forall k,
        k ∈ Cache_iter clock c <->
        exists v c', Cache_getitem k (clock k) c = Ok (v, c'))
  /\ Cache_iter (fun _ => 11) c
     ≡ₚ key <$> concat (_lru_queue
                         <$> filter (fun x : Examples.ZNode => expired x 11 = false)
                               (root_nodes (_tree c)))
  /\ Cache_len (fun _ => 11) c
     = length (concat (_lru_queue
                        <$> filter (fun x : Examples.ZNode => expired x 11 = false)
                              (root_nodes (_tree c)))).
Proof.
  intros c clock.
  assert (Hinv : cache_inv 11 c) by (apply cache_inv_pivot_cache; lia).
  assert (Hclock : forall k, 11 <= clock k) by (intros k; unfold clock; lia).
  split; [done|]. split; [done|].
  exact (iter_len_spec 11 clock c Hinv Hclock).
Defined.

(** [len] at clock reading 11, where the node of key 1 has expired. *)
Example len_pivot_cache :
  Cache_len (fun _ => 11) Examples.pivot_cache = 2%nat
  /\ Cache_len (fun _ => 5) Examples.pivot_cache = 3%nat.
Proof. split; by vm_compute. Qed.

Lemma node_ok_two_entries : node_ok 2 5 Examples.two_entries.
Proof.
  unfold Examples.two_entries.
  apply (node_ok_add 1 5); [|done].
  apply (node_ok_add 0 5); [|done].
  apply node_ok_new.
Qed.

Lemma pop_lru_outcomes_witness :
  let n := Examples.two_entries in
  node_ok 2 5 n
  /\ (empty n = true ->
      pop_lru n = Raise EmptyNode /\ lru_time n = Raise EmptyNode)
  /\ (empty n = false ->
      exists e rest,
        _lru_queue n = e :: rest /\ _data n !! key e = Some e
        /\ (forall k' e', _data n !! k' = Some e' -> last_used e <= last_used e')
        /\ lru_time n = Ok (last_used e)
        /\ let n1 := set_entries (delete (key e) (_data n)) rest n in
           pop_lru n = Ok (key e, (clean n1).1, (clean n1).2)
           /\ node_ok 2 5 n1).
Proof.
  intros n. split; [apply node_ok_two_entries|].
  apply (pop_lru_outcomes 2 5 n). apply node_ok_two_entries.
Defined.

Lemma set_within_context_witness :
  let c := new_cache 1000 0 : Examples.ZCache in
  cache_inv 0 c /\ 0 < 10
  /\ exists c',
       Cache_setitem 1 100 0 (context_enter (Some 5) (Some 10) c) = Ok c'
       /\ cache_inv 0 (context_exit c')
       /\ stored (context_exit c') 1 = Some ((0 + 10, 5), mkEntry (next_eid c) 0 1 100)
       /\ (forall k', k' <> 1 -> stored (context_exit c') k' = stored c k')
       /\ _context_priority (context_exit c') = default_priority c
       /\ _context_expiry_duration (context_exit c') = default_expiry_duration c.
Proof.
  intros c.
  assert (Hinv : cache_inv 0 c) by apply cache_inv_new.
  split; [done|]. split; [lia|].
  apply (set_within_context (Some 5) (Some 10) 1 100 0 c); [done | simpl; lia |].
  intros path node Hk. by vm_compute in Hk.
Defined.

Lemma reachable_two_inserts : reachable_tree Examples.two_inserts.
Proof.
  unfold reachable_tree, Examples.two_inserts.
  eapply rtc_l; [apply (step_insert None 5 10)|].
  apply rtc_once. apply step_insert.
Qed.

Lemma quadrant_semantics_witness :
  let n := mkNode 10 5 None None (Some (new_node 20 3)) None ∅ [] : Examples.ZNode in
  let m := new_node 20 3 : Examples.ZNode in
  reachable_tree Examples.two_inserts
  /\ Examples.two_inserts ≫= node_at [] = Some n
  /\ quadrants n THREE = Some m /\ node_at [] m = Some m
  /\ quadrant_value THREE = (expiry m <=? expiry n, priority m <? priority n)
  /\ (THREE ∈ OLDER_QUADS <-> expiry m <= expiry n)
  /\ (THREE ∈ BEST_QUADS <-> priority m < priority n).
Proof.
  intros n m. split; [apply reachable_two_inserts|].
  split; [reflexivity|]. split; [reflexivity|]. split; [reflexivity|].
  apply (quadrant_semantics Examples.two_inserts [] [] n m m THREE);
    [apply reachable_two_inserts | reflexivity ..].
Defined.

Lemma evict_frees_entry_witness :
  let c := Examples.pivot_cache in
  cache_inv 11 c /\ Quadtree_leaves_cycle 11 (_tree c) = false
  /\ stored c 1 = Some ((10, 5), mkEntry 0%nat 0 1 100)
  /\ exists c' k s,
       Cache_evict Examples.in_order 11 c = Ok c'
       /\ stored c k = Some s /\ stored c' k = None.
Proof.
  intros c.
  assert (Hinv : cache_inv 11 c) by (apply cache_inv_pivot_cache; lia).
  assert (Hs : stored c 1 = Some ((10, 5), mkEntry 0%nat 0 1 100)) by (by vm_compute).
  split; [done|]. split; [reflexivity|]. split; [done|].
  exact (evict_frees_entry Examples.in_order in_order_perm 11 c 1 _ Hinv eq_refl Hs).
Defined.

Lemma pivot_cache_unexpired (k0 : Z) (pt : Point) (en : EntryOf Z Z) :
  stored Examples.pivot_cache k0 = Some (pt, en) -> ~ pt.1 < 5.
Proof.
  intros Hs.
  apply (stored_holds 0 Examples.pivot_cache k0 pt en) in Hs as (x & Hx & <- & _);
    [|apply cache_inv_pivot_cache; lia].
  simpl in Hx. rewrite !elem_of_cons, elem_of_nil in Hx.
  destruct Hx as [->|[->|[->|[]]]]; simpl; lia.
Qed.

Lemma getitem_then_evict_witness :
  let c := Examples.pivot_cache in
  exists c1,
    Cache_getitem 1 5 c = Ok (100, c1)
    /\ exists c2 d pt en,
         Cache_evict_full Examples.in_order 5 c1 = Ok (c2, d)
         /\ stored c2 1 = Some (pt, en) /\ value en = 100 /\ last_used en = 5
         /\ (Quadtree_leaves_cycle 5 (_tree c1) = false ->
             Cache_evict Examples.in_order 5 c1 = Ok c2).
Proof.
  intros c.
  assert (Hinv : cache_inv 5 c) by (apply cache_inv_pivot_cache; lia).
  destruct (Cache_getitem 1 5 c) as [[v c1]|] eqn:Hget; [|by vm_compute in Hget].
  assert (v = 100) as ->.
  { pose proof Hget as Hv. vm_compute in Hv. by injection Hv as <- _. }
  exists c1. split; [done|].
  apply (getitem_then_evict Examples.in_order in_order_perm 1 2 100 5 c c1
           (20, 5) (mkEntry 1%nat 0 2 200) Hinv Hget).
  - apply pivot_cache_unexpired.
  - done.
  - by vm_compute.
  - simpl. lia.
  - intros pt en Hs. vm_compute in Hs. injection Hs as <- _. simpl. lia.
Defined.

Lemma len_after_setitem_delitem_witness :
  let c := Examples.pivot_cache in
  let clock := fun _ : Z => 5 in
  exists c',
    Cache_delitem 2 c = Ok c'
    /\ (forall v,
          Cache_setitem 2 v 5 c = Ok c' ->
          Cache_len clock c'
          = if decide (2 ∈ Cache_iter clock c) then Cache_len clock c
            else S (Cache_len clock c))
    /\ (Cache_delitem 2 c = Ok c' ->
        Cache_len clock c
        = if decide (2 ∈ Cache_iter clock c) then S (Cache_len clock c')
          else Cache_len clock c').
Proof.
  intros c clock.
  assert (Hinv : cache_inv 5 c) by (apply cache_inv_pivot_cache; lia).
  eexists. split; [by vm_compute|].
  apply (len_after_setitem_delitem 2 5 c _ Hinv).
Defined.
